(** * crlib/string.h: StringRef, String and Utf8Tools

    A shallow embedding of the text classes of [inc/crlib/string.h] and the
    properties of their buffer arithmetic.

    Conventions of the embedding.
    - A [char] is its byte value, a [Z] in [0, 256).
    - [size_t] is 64 bits wide: a [Z] in [0, 2^64), every addition and
      subtraction of the source wrapped explicitly with [wrap].
    - A [const char *] is the list of bytes readable from the pointer up to
      the end of its allocation, or [None] for [nullptr].
    - A read or write outside an allocation is undefined behaviour, the
      outcome [UB]; a loop that does not finish within its fuel is [Timeout].
    - Views and C strings passed to a [String] operation do not alias the
      buffer of the string that is mutated. *)

From Stdlib Require Import ZArith Lia Ascii String.
From stdpp Require Import base list.

Local Open Scope Z_scope.

(** ** Outcomes *)

Inductive res (A : Type) : Type :=
| Ok (a : A)
| UB
| Timeout.
Arguments Ok {A} a.
Arguments UB {A}.
Arguments Timeout {A}.

#[global] Instance res_ret : MRet res := @Ok.
#[global] Instance res_bind : MBind res := λ A B f m,
  match m with
  | Ok a => f a
  | UB => UB
  | Timeout => Timeout
  end.

(** ** Machine integers *)

Definition size_bits : Z := 64.
Definition size_mod : Z := 2 ^ size_bits.

(** Arithmetic on [size_t] is modulo [2^64]. *)
Definition wrap (x : Z) : Z := x mod size_mod.

(** [static_cast <size_t> (-1)] *)
Definition InvalidIndex : Z := wrap (-1).

(** helper for null-termination *)
Definition kNullChar : Z := 0.

(** ** Memory *)

(** What a [const char *] points at; [None] is [nullptr]. *)
Definition cptr : Type := option (list Z).

(** [m[i]] as an rvalue. *)
Definition rd (m : list Z) (i : Z) : res Z :=
  if i <? 0 then UB
  else match m !! Z.to_nat i with
       | Some b => Ok b
       | None => UB
       end.

(** [m[i] = v]. *)
Definition wr (m : list Z) (i : Z) (v : Z) : res (list Z) :=
  if (0 <=? i) && (i <? Z.of_nat (length m))
  then Ok (<[Z.to_nat i := v]> m)
  else UB.

(** [p[i]] through a pointer. *)
Definition rdp (p : cptr) (i : Z) : res Z :=
  match p with
  | Some m => rd m i
  | None => UB
  end.

(** [p + k]: the result may point one past the end, not further. *)
Definition ptr_add (p : cptr) (k : Z) : res cptr :=
  match p with
  | Some m =>
      if (0 <=? k) && (k <=? Z.of_nat (length m))
      then Ok (Some (drop (Z.to_nat k) m))
      else UB
  | None => if k =? 0 then Ok None else UB
  end.

(** [memcpy (dst + off, src, n)]; copying nothing is harmless. *)
Definition memcpy (dst : list Z) (off : Z) (src : cptr) (n : Z) : res (list Z) :=
  if n =? 0 then
    if (0 <=? off) && (off <=? Z.of_nat (length dst)) then Ok dst else UB
  else match src with
       | None => UB
       | Some s =>
           if (0 <? n) && (n <=? Z.of_nat (length s))
              && (0 <=? off) && (off + n <=? Z.of_nat (length dst))
           then Ok (take (Z.to_nat off) dst ++ take (Z.to_nat n) s
                      ++ drop (Z.to_nat (off + n)) dst)
           else UB
       end.

(** [p] can be read for [n] bytes. *)
Definition readable (p : cptr) (n : Z) : Prop :=
  match p with
  | Some m => n <= Z.of_nat (length m)
  | None => n = 0
  end.

(** The first [n] bytes behind [p]. *)
Definition ptr_bytes (p : cptr) (n : Z) : list Z :=
  match p with
  | Some m => take (Z.to_nat n) m
  | None => []
  end.

(** [strlen]: the index of the first zero byte. *)
Fixpoint strlen (m : list Z) : res Z :=
  match m with
  | [] => UB
  | b :: m' => if b =? 0 then Ok 0 else n ← strlen m'; Ok (n + 1)
  end.

(** Bytes of a literal, without and with its terminator. *)
Definition bytes (s : string) : list Z :=
  map (fun a => Z.of_N (N_of_ascii a)) (list_ascii_of_string s).

Definition cstr (s : string) : list Z := bytes s ++ [0].

Arguments bytes s%_string.
Arguments cstr s%_string.

(** [memcmp] on the bytes it was given: the sign of the first difference. *)
Fixpoint memcmp_bytes (a b : list Z) : Z :=
  match a, b with
  | x :: a', y :: b' =>
      if x =? y then memcmp_bytes a' b' else if x <? y then -1 else 1
  | _, _ => 0
  end.

(** [memcmp (a, b, n)]; comparing nothing is harmless. *)
Definition memcmp (a b : cptr) (n : Z) : res Z :=
  if n =? 0 then Ok 0
  else match a, b with
       | Some x, Some y =>
           if (0 <? n) && (n <=? Z.of_nat (length x)) && (n <=? Z.of_nat (length y))
           then Ok (memcmp_bytes (take (Z.to_nat n) x) (take (Z.to_nat n) y))
           else UB
       | _, _ => UB
       end.

(** [strncmp] on arrays: at most [n] bytes, and none after a zero byte. *)
Fixpoint strncmp_bytes (n : nat) (a b : list Z) : res Z :=
  match n with
  | O => Ok 0
  | S n' =>
      match a, b with
      | x :: a', y :: b' =>
          if x =? y then if x =? 0 then Ok 0 else strncmp_bytes n' a' b'
          else Ok (if x <? y then -1 else 1)
      | _, _ => UB
      end
  end.

(** [strncmp (a, b, n)]; comparing nothing is harmless. *)
Definition strncmp (a b : cptr) (n : Z) : res Z :=
  if n =? 0 then Ok 0
  else match a, b with
       | Some x, Some y => strncmp_bytes (Z.to_nat n) x y
       | _, _ => UB
       end.

(** ** Loops *)

(** [for (i = lo; n iterations; ++i)] with an early [return]. *)
Fixpoint for_up {A} (n : nat) (i : Z) (body : Z → res (option A)) : res (option A) :=
  match n with
  | O => Ok None
  | S n' =>
      r ← body i;
      match r with
      | Some a => Ok (Some a)
      | None => for_up n' (i + 1) body
      end
  end.

(** [for (i = hi; n iterations; --i)] with an early [return]. *)
Fixpoint for_down {A} (n : nat) (i : Z) (body : Z → res (option A)) : res (option A) :=
  match n with
  | O => Ok None
  | S n' =>
      r ← body i;
      match r with
      | Some a => Ok (Some a)
      | None => for_down n' (i - 1) body
      end
  end.

(** A counted loop that threads a state and never leaves early. *)
Fixpoint iter_up {S} (n : nat) (i : Z) (body : Z → S → res S) (st : S) : res S :=
  match n with
  | O => Ok st
  | S n' => st' ← body i st; iter_up n' (i + 1) body st'
  end.

Fixpoint iter_down {S} (n : nat) (i : Z) (body : Z → S → res S) (st : S) : res S :=
  match n with
  | O => Ok st
  | S n' => st' ← body i st; iter_down n' (i - 1) body st'
  end.

(** Strictly ascending, checked on neighbours. *)
Fixpoint ascending (l : list Z) : bool :=
  match l with
  | a :: l' =>
      match l' with
      | b :: _ => (a <? b) && ascending l'
      | [] => true
      end
  | [] => true
  end.

(** ** StringRef: simple non-owning string class *)

Module StringRef.

Record t : Type := mk { chars_ : cptr; length_ : Z }.

(** [StringRef (const char *chars)] *)
Definition of_chars (chars : cptr) : res t :=
  match chars with
  | Some m => n ← strlen m; Ok (mk chars n)
  | None => Ok (mk chars 0)
  end.

(** The view of a literal. *)
Definition lit (s : string) : t :=
  mk (Some (cstr s)) (Z.of_nat (length (bytes s))).
Arguments lit s%_string.

(** The bytes [[0, length_)] a view denotes. *)
Definition content (v : t) : list Z :=
  match chars_ v with
  | Some m => take (Z.to_nat (length_ v)) m
  | None => []
  end.

Definition empty (v : t) : bool := length_ v =? 0.

(** [operator []] *)
Definition at_ (v : t) (i : Z) : res Z := rdp (chars_ v) i.

(** [find (char pattern, size_t start)] *)
Definition find_char (v : t) (pattern : Z) (start : Z) : res Z :=
  r ← for_up (Z.to_nat (length_ v - start)) start
        (fun i => c ← at_ v i; Ok (if c =? pattern then Some i else None));
  Ok (default InvalidIndex r).

(** The inner loop of [find]: runs while [index < pattern.length ()] and
    [chars_[index]] is not zero, leaves at the first mismatch, and yields
    the final [index]. *)
Fixpoint find_inner (n : nat) (v pattern : t) (i index : Z) : res Z :=
  match n with
  | O => Ok index
  | S n' =>
      c0 ← at_ v index;
      if c0 =? 0 then Ok index
      else
        a ← at_ v (wrap (i + index));
        b ← at_ pattern index;
        if a =? b then find_inner n' v pattern i (index + 1) else Ok index
  end.

(** [find (StringRef pattern, size_t start)] *)
Definition find (v pattern : t) (start : Z) : res Z :=
  if (length_ pattern >? length_ v) || (start >? length_ v) then Ok InvalidIndex
  else
    r ← for_up (Z.to_nat (length_ v - length_ pattern - start + 1)) start
          (fun i =>
             index ← find_inner (Z.to_nat (length_ pattern)) v pattern i 0;
             p ← at_ pattern index;
             Ok (if p =? 0 then Some i else None));
    Ok (default InvalidIndex r).

(** [rfind (char pattern)] *)
Definition rfind_char (v : t) (pattern : Z) : res Z :=
  r ← for_down (Z.to_nat (length_ v)) (length_ v)
        (fun i => c ← at_ v i; Ok (if c =? pattern then Some i else None));
  Ok (default InvalidIndex r).

(** The inner loop of [rfind]: [for (j = pattern.length () - 1; j > 0; j--)],
    yielding [match]. *)
Fixpoint rfind_inner (n : nat) (v pattern : t) (i j : Z) : res bool :=
  match n with
  | O => if j >? 0 then Timeout else Ok true
  | S n' =>
      if j >? 0 then
        a ← at_ v (wrap (i + i));
        b ← at_ pattern j;
        if a =? b then rfind_inner n' v pattern i (wrap (j - 1)) else Ok false
      else Ok true
  end.

(** The outer loop of [rfind]: [for (i = length_ - 1; i >= pattern.length (); i--)]. *)
Fixpoint rfind_outer (n : nat) (v pattern : t) (i : Z) : res Z :=
  match n with
  | O => if i >=? length_ pattern then Timeout else Ok InvalidIndex
  | S n' =>
      if i >=? length_ pattern then
        m ← rfind_inner (Z.to_nat (length_ pattern) + 1) v pattern i
              (wrap (length_ pattern - 1));
        if m : bool then Ok i else rfind_outer n' v pattern (wrap (i - 1))
      else Ok InvalidIndex
  end.

(** [rfind (StringRef pattern)] *)
Definition rfind (v pattern : t) : res Z :=
  if length_ pattern >? length_ v then Ok InvalidIndex
  else rfind_outer (Z.to_nat (length_ v) + 1) v pattern (wrap (length_ v - 1)).

(** [substr (size_t start, size_t count = InvalidIndex)] *)
Definition substr (v : t) (start count : Z) : res t :=
  let start := Z.min start (length_ v) in
  let count := if count =? InvalidIndex then length_ v else count in
  p ← ptr_add (chars_ v) start;
  Ok (mk p (Z.min count (wrap (length_ v - start)))).

(** The loop of [split (StringRef delim)]; the tokens are collected in
    order, [conv] is the conversion from [StringRef] to the element type. *)
Fixpoint split_loop {U} (conv : t → res U) (n : nat) (v delim : t)
    (prev pos : Z) (tokens : list U) : res (list U) :=
  match n with
  | O => Timeout
  | S n' =>
      pos ← find v delim pos;
      if pos =? InvalidIndex then
        s ← substr v prev (wrap (pos - prev));
        u ← conv s;
        Ok (tokens ++ [u])
      else
        s ← substr v prev (wrap (pos - prev));
        u ← conv s;
        let pos := wrap (pos + 1) in
        split_loop conv n' v delim pos pos (tokens ++ [u])
  end.

(** [split <U> (StringRef delim)] *)
Definition split_as {U} (conv : t → res U) (v delim : t) : res (list U) :=
  split_loop conv (Z.to_nat (length_ v) + 2) v delim 0 0 [].

(** [split <StringRef> (StringRef delim)] *)
Definition split (v delim : t) : res (list t) := split_as Ok v delim.

(** A view whose [length_] bytes can be read. *)
Definition Valid (v : t) : Prop :=
  0 <= length_ v < 2 ^ 62 ∧ readable (chars_ v) (length_ v).

(** [fnv1a32 (const char *str)], from the byte the walk has reached. *)
Fixpoint fnv1a32_loop (m : list Z) (hash : Z) : res Z :=
  match m with
  | [] => UB
  | b :: m' =>
      if b =? kNullChar then Ok hash
      else fnv1a32_loop m' ((Z.lxor hash b * 0x1000193) mod 2 ^ 32)
  end.

Definition fnv1a32 (str : cptr) : res Z :=
  match str with
  | Some m => fnv1a32_loop m 0x811c9dc5
  | None => UB
  end.

(** [hash ()] *)
Definition hash (v : t) : res Z := fnv1a32 (chars_ v).

(** [operator == (const StringRef &rhs)] and [equals] *)
Definition equals (v rhs : t) : res bool :=
  if length_ v =? length_ rhs then
    c ← memcmp (chars_ v) (chars_ rhs) (length_ v); Ok (c =? 0)
  else Ok false.

(** [startsWith (StringRef prefix)] *)
Definition startsWith (v prefix : t) : res bool :=
  if length_ prefix <=? length_ v then
    c ← strncmp (chars_ v) (chars_ prefix) (length_ prefix); Ok (c =? 0)
  else Ok false.

(** [endsWith (StringRef suffix)] *)
Definition endsWith (v suffix : t) : res bool :=
  if length_ suffix <=? length_ v then
    _ ← ptr_add (chars_ v) (length_ v);
    p ← ptr_add (chars_ v) (wrap (length_ v - length_ suffix));
    c ← strncmp p (chars_ suffix) (length_ suffix); Ok (c =? 0)
  else Ok false.

(** [contains (StringRef rhs)] *)
Definition contains (v rhs : t) : res bool :=
  q ← find v rhs 0; Ok (negb (q =? InvalidIndex)).

(** The inner loop of the [find...Of] family: whether [chars_[i]] is one
    of the bytes of [pattern]. *)
Definition is_any_of (v pattern : t) (i : Z) : res bool :=
  r ← for_up (Z.to_nat (length_ pattern)) 0
        (fun j => a ← at_ v i; b ← at_ pattern j; Ok (if a =? b then Some j else None));
  Ok (match r with Some _ => true | None => false end).

(** [findFirstOf (StringRef pattern, size_t start = 0)] *)
Definition findFirstOf (v pattern : t) (start : Z) : res Z :=
  r ← for_up (Z.to_nat (length_ v - start)) start
        (fun i => m ← is_any_of v pattern i; Ok (if m : bool then Some i else None));
  Ok (default InvalidIndex r).

(** [findLastOf (StringRef pattern)] *)
Definition findLastOf (v pattern : t) : res Z :=
  let i0 := wrap (length_ v - 1) in
  r ← for_down (Z.to_nat i0) i0
        (fun i => m ← is_any_of v pattern i; Ok (if m : bool then Some i else None));
  Ok (default InvalidIndex r).

(** [findFirstNotOf (StringRef pattern, size_t start = 0)] *)
Definition findFirstNotOf (v pattern : t) (start : Z) : res Z :=
  r ← for_up (Z.to_nat (length_ v - start)) start
        (fun i => m ← is_any_of v pattern i; Ok (if m : bool then None else Some i));
  Ok (default InvalidIndex r).

(** [findLastNotOf (StringRef pattern)] *)
Definition findLastNotOf (v pattern : t) : res Z :=
  let i0 := wrap (length_ v - 1) in
  r ← for_down (Z.to_nat i0) i0
        (fun i => m ← is_any_of v pattern i; Ok (if m : bool then None else Some i));
  Ok (default InvalidIndex r).

(** [countChar (char ch)] *)
Definition countChar (v : t) (ch : Z) : res Z :=
  iter_up (Z.to_nat (length_ v)) 0
    (fun i count => c ← at_ v i; Ok (if c =? ch then wrap (count + 1) else count)) 0.

(** [countStr (StringRef pattern)] *)
Definition countStr (v pattern : t) : res Z :=
  if length_ pattern >? length_ v then Ok 0
  else
    let e := wrap (wrap (length_ v - length_ pattern) + 1) in
    iter_up (Z.to_nat e) 0
      (fun i count =>
         s ← substr v i (length_ pattern);
         m ← equals s pattern;
         Ok (if m : bool then wrap (count + 1) else count)) 0.

(** The loop of [split (size_t maxLength)]:
    [for (i = 0; i < length (); i += maxLength)]. *)
Fixpoint split_chunks_loop {U} (conv : t → res U) (n : nat) (v : t)
    (maxLength i : Z) (tokens : list U) {struct n} : res (list U) :=
  if i <? length_ v then
    match n with
    | O => Timeout
    | S n' =>
        s ← substr v i maxLength;
        u ← conv s;
        split_chunks_loop conv n' v maxLength (wrap (i + maxLength)) (tokens ++ [u])
    end
  else Ok tokens.

(** [split <U> (size_t maxLength)] *)
Definition split_chunks_as {U} (conv : t → res U) (v : t) (maxLength : Z) : res (list U) :=
  split_chunks_loop conv (Z.to_nat (length_ v)) v maxLength 0 [].

(** [split <StringRef> (size_t maxLength)] *)
Definition split_chunks (v : t) (maxLength : Z) : res (list t) :=
  split_chunks_as Ok v maxLength.

(** The byte of the content at [i], zero outside. *)
Definition byte_at (v : t) (i : Z) : Z := default 0 (content v !! Z.to_nat i).

(** A view as [StringRef (const char *chars)] makes it: its length is the
    [strlen] of its bytes. *)
Definition CString (v : t) : Prop :=
  match chars_ v with
  | Some m => length_ v < 2 ^ 62 ∧ strlen m = Ok (length_ v)
  | None => False
  end.

(** Pieces of exactly [n] bytes, the last one of 1 to [n] bytes. *)
Fixpoint chunked (n : Z) (l : list (list Z)) : Prop :=
  match l with
  | [] => True
  | c :: l' =>
      match l' with
      | [] => 1 <= Z.of_nat (length c) <= n
      | _ :: _ => Z.of_nat (length c) = n ∧ chunked n l'
      end
  end.

(** [pattern] occurs in [l] at position [i]. *)
Definition occurs_at (l pattern : list Z) (i : nat) : Prop :=
  take (length pattern) (drop i l) = pattern.

#[global] Instance occurs_at_dec (l pattern : list Z) (i : nat) :
  Decision (occurs_at l pattern i) :=
  decide (take (length pattern) (drop i l) = pattern).

End StringRef.

(** ** String: simple std::string analogue *)

(** The class [String]; the module is not called [String] to keep the
    standard library's strings in reach. *)
Module CrString.

Record t : Type := mk { chars_ : cptr; length_ : Z; capacity_ : Z }.

(** [String () = default] *)
Definition empty_string : t := mk None 0 0.

Definition set_length (s : t) (n : Z) : t := mk (chars_ s) n (capacity_ s).

(** The loop of [getGrowFactor]:
    [while (length_ + length > capacity) capacity += capacity * 2 / 3]. *)
Fixpoint grow_loop (n : nat) (target capacity : Z) {struct n} : res Z :=
  if target >? capacity then
    match n with
    | O => Timeout
    | S n' => grow_loop n' target (wrap (capacity + wrap (capacity * 2) / 3))
    end
  else Ok capacity.

(** [getGrowFactor (const size_t length)] *)
Definition getGrowFactor (s : t) (length : Z) : res Z :=
  let capacity :=
    if capacity_ s =? 0 then Z.max 12 (wrap (length + 1)) else capacity_ s in
  let target := wrap (length_ s + length) in
  capacity ← grow_loop (Z.to_nat target) target capacity;
  Ok (wrap (capacity + (if length <? 4 then 8 else length))).

(** [calcLength (const char *str, const size_t length)] *)
Definition calcLength (str : cptr) (length : Z) : res Z :=
  if length >? 0 then Ok length
  else match str with
       | Some m => strlen m
       | None => Ok 0
       end.

(** [chars ()]: the buffer, or the literal ["\0"] when there is none. *)
Definition chars (s : t) : cptr :=
  match chars_ s with
  | Some b => Some b
  | None => Some [0; 0]
  end.

(** [str ()] *)
Definition str (s : t) : StringRef.t := StringRef.mk (chars_ s) (length_ s).

(** The bytes [[0, length_)] the string holds. *)
Definition content (s : t) : list Z :=
  match chars_ s with
  | Some b => take (Z.to_nat (length_ s)) b
  | None => []
  end.

(** [at (index)] read. *)
Definition at_ (s : t) (index : Z) : res Z := rdp (chars s) index.

(** [at (index) = c]; the literal behind an unallocated string is not
    writable. *)
Definition at_put (s : t) (index c : Z) : res t :=
  match chars_ s with
  | Some b => b' ← wr b index c; Ok (mk (Some b') (length_ s) (capacity_ s))
  | None => UB
  end.

(** [chars_[index] = c] on the owned array. *)
Definition buf_put (s : t) (index c : Z) : res t := at_put s index c.

(** The representation invariant. An unallocated string is empty with
    capacity zero. An allocated one holds its [length_] bytes inside the
    array; its capacity is the size of the array and exceeds the length,
    or is still zero when the array was adopted by
    [String (UniquePtr <char[]> &&, size_t)]. *)
Definition Valid (s : t) : Prop :=
  0 <= length_ s ∧
  match chars_ s with
  | Some b =>
      length_ s <= Z.of_nat (length b) ∧
      (capacity_ s = 0 ∨
       (capacity_ s = Z.of_nat (length b) ∧ length_ s < capacity_ s ∧ 2 <= capacity_ s))
  | None => length_ s = 0 ∧ capacity_ s = 0
  end.

(** The zero terminator: [buffer[length] == 0]. *)
Definition terminated (s : t) : Prop := at_ s (length_ s) = Ok kNullChar.

(** What the shifting loops of [insert] and [erase] keep: an array of
    the same size, and the fields. *)
Definition same_shape (b : list Z) (L C : Z) (st : t) : Prop :=
  ∃ b', chars_ st = Some b' ∧ length b' = length b ∧ length_ st = L ∧ capacity_ st = C.

(** The arguments of an [append] call that copies [n] bytes: [n] is what
    [calcLength] makes of them, and that many bytes can be read. *)
Definition append_arg (op : cptr * Z) (n : Z) : Prop :=
  calcLength op.1 op.2 = Ok n ∧ 0 <= n ∧ readable op.1 n.

(** Along [l] the capacity never decreases, starting from [c], and every
    string has a capacity above its length. *)
Fixpoint capacity_chain (c : Z) (l : list t) : Prop :=
  match l with
  | [] => True
  | s :: l' => c <= capacity_ s ∧ length_ s < capacity_ s ∧ capacity_chain (capacity_ s) l'
  end.

Section WithAllocator.

(** [makeUnique <char[]> (n)] lives in [crlib/uniqueptr.h]; the bytes of
    a fresh array are left open: [junk n i] is byte [i] of a fresh array
    of [n] bytes (constantly zero for a value-initialising allocator). *)
Variable junk : Z → nat → Z.

Definition makeUnique (n : Z) : list Z := map (junk n) (seq 0 (Z.to_nat n)).

(** [resize (const size_t amount)] *)
Definition resize (s : t) (amount : Z) : res t :=
  if wrap (length_ s + amount) <? capacity_ s then Ok s
  else
    g ← getGrowFactor s amount;
    let factor := wrap (g + length_ s) in
    match chars_ s with
    | Some old =>
        transfer ← memcpy (makeUnique factor) 0 (Some old) (length_ s);
        Ok (mk (Some transfer) (length_ s) factor)
    | None =>
        b ← wr (makeUnique factor) 0 kNullChar;
        Ok (mk (Some b) (length_ s) factor)
    end.

(** [assign (const char *str, size_t length = 0)] *)
Definition assign (s : t) (str : cptr) (length : Z) : res t :=
  length ← calcLength str length;
  s ← resize s length;
  s ← match str, chars_ s with
      | Some _, Some b =>
          b' ← memcpy b 0 str length; Ok (mk (Some b') (length_ s) (capacity_ s))
      | Some _, None => UB
      | None, _ => buf_put s 0 kNullChar
      end;
  buf_put (set_length s length) length kNullChar.

(** [append (const char *str, size_t length = 0)] *)
Definition append (s : t) (str : cptr) (length : Z) : res t :=
  length ← calcLength str length;
  s ← resize s length;
  match chars_ s with
  | Some b =>
      b' ← memcpy b (length_ s) str length;
      let s := mk (Some b') (wrap (length_ s + length)) (capacity_ s) in
      buf_put s (length_ s) kNullChar
  | None => UB
  end.

(** A sequence of [append] calls; the strings after each call. *)
Fixpoint appends (s : t) (ops : list (cptr * Z)) : res (list t) :=
  match ops with
  | [] => Ok []
  | op :: ops' =>
      s' ← append s op.1 op.2;
      l ← appends s' ops';
      Ok (s' :: l)
  end.

(** [String (const char *str, size_t length = 0)] *)
Definition of_chars (str : cptr) (length : Z) : res t :=
  assign empty_string str length.

(** A string built from a literal. *)
Definition lit (x : string) : res t := of_chars (Some (cstr x)) 0.

(** [String (const String &str)] *)
Definition copy (src : t) : res t := assign empty_string (chars src) 0.

(** [String (StringRef str)] *)
Definition of_ref (v : StringRef.t) : res t :=
  assign empty_string (StringRef.chars_ v) (StringRef.length_ v).

(** [operator = (const String &rhs)], through [assign (const String &, 0)] *)
Definition copy_assign (s rhs : t) : res t := assign s (chars rhs) 0.

(** [operator += (const String &rhs)], through [append (const String &, 0)] *)
Definition append_string (s rhs : t) : res t := append s (chars rhs) 0.

(** [operator + (const String &lhs, const String &rhs)] *)
Definition plus (lhs rhs : t) : res t :=
  l ← copy lhs; append_string l rhs.

(** [insert (size_t index, StringRef str)] *)
Definition insert (s : t) (index : Z) (v : StringRef.t) : res (bool * t) :=
  let n := StringRef.length_ v in
  if StringRef.empty v then Ok (false, s)
  else if index >=? length_ s then
    s ← append s (StringRef.chars_ v) n; Ok (true, s)
  else
    s ← resize s (wrap (length_ s + n));
    s ← iter_down (Z.to_nat (length_ s - index)) (length_ s)
          (fun i s => c ← at_ s (wrap (i - 1)); at_put s (wrap (wrap (i + n) - 1)) c) s;
    s ← iter_up (Z.to_nat n) 0
          (fun i s => c ← StringRef.at_ v i; at_put s (wrap (i + index)) c) s;
    Ok (true, set_length s (wrap (length_ s + n))).

(** [erase (size_t index, size_t count = 1)] *)
Definition erase (s : t) (index count : Z) : res (bool * t) :=
  if wrap (index + count) >? length_ s then Ok (false, s)
  else
    let s := set_length s (wrap (length_ s - count)) in
    s ← iter_up (Z.to_nat (length_ s - index)) index
          (fun i s => c ← at_ s (wrap (i + count)); at_put s i c) s;
    Ok (true, s).

(** [find (StringRef pattern, size_t start = 0)] *)
Definition find (s : t) (pattern : StringRef.t) (start : Z) : res Z :=
  StringRef.find (str s) pattern start.

(** The loop of [replace]: [while (pos < length ())]. *)
Fixpoint replace_loop (n : nat) (s : t) (needle to : StringRef.t)
    (pos replaced : Z) {struct n} : res (Z * t) :=
  if pos <? length_ s then
    match n with
    | O => Timeout
    | S n' =>
        pos ← find s needle pos;
        if pos =? InvalidIndex then Ok (replaced, s)
        else
          r ← erase s pos (StringRef.length_ needle);
          r ← insert r.2 pos to;
          replace_loop n' r.2 needle to
            (wrap (pos + StringRef.length_ to)) (wrap (replaced + 1))
    end
  else Ok (replaced, s).

(** [replace (StringRef needle, StringRef to)] *)
Definition replace (s : t) (needle to : StringRef.t) : res (Z * t) :=
  if StringRef.empty needle || StringRef.empty to then Ok (0, s)
  else replace_loop (Z.to_nat (length_ s)) s needle to 0 0.

(** [split (StringRef delim)]: [str ().split <String> (delim)] *)
Definition split (s : t) (delim : StringRef.t) : res (list t) :=
  StringRef.split_as of_ref (str s) delim.

(** The loop of [join]: [for (index = start; index < sequence.length (); ++index)];
    [Array] is a list, read out of range is undefined. *)
Definition join_loop (sequence : list t) (delim : StringRef.t) (start : Z) : res t :=
  iter_up (Z.to_nat (Z.of_nat (length sequence) - start)) start
    (fun index result =>
       match sequence !! Z.to_nat index with
       | None => UB
       | Some x =>
           if negb (index =? start) then
             d ← of_ref delim;
             tmp ← plus d x;
             append_string result tmp
           else append_string result x
       end) empty_string.

(** [join (const Array <String> &sequence, StringRef delim, const size_t start = 0)] *)
Definition join (sequence : list t) (delim : StringRef.t) (start : Z) : res t :=
  match sequence with
  | [] => of_chars (Some (cstr "")) 0
  | [x] => copy x
  | _ => join_loop sequence delim start
  end.

(** [clear ()]: [assign ("\0")] *)
Definition clear (s : t) : res t := assign s (Some [0; 0]) 0.

(** [substr (size_t start, size_t count = InvalidIndex)]: the view of
    [str ().substr] turned into a [String]. *)
Definition substr (s : t) (start count : Z) : res t :=
  v ← StringRef.substr (str s) start count; of_ref v.

(** [ltrim (StringRef characters)]; the result of [substr] is moved into
    the string. *)
Definition ltrim (s : t) (characters : StringRef.t) : res t :=
  r ← for_up (Z.to_nat (length_ s)) 0
        (fun i =>
           c ← at_ s i;
           q ← StringRef.find_char characters c 0;
           Ok (if q =? InvalidIndex then Some i else None));
  let begin := default (length_ s) r in
  substr s begin (wrap (length_ s - begin)).

(** [rtrim (StringRef characters)] *)
Definition rtrim (s : t) (characters : StringRef.t) : res t :=
  r ← for_down (Z.to_nat (length_ s)) (length_ s)
        (fun i =>
           c ← at_ s (wrap (i - 1));
           q ← StringRef.find_char characters c 0;
           Ok (if q =? InvalidIndex then Some i else None));
  let end_ := default 0 r in
  substr s 0 end_.

(** [trim (StringRef characters)] *)
Definition trim (s : t) (characters : StringRef.t) : res t :=
  s ← ltrim s characters; rtrim s characters.

End WithAllocator.

Section WithCtype.

(** [::tolower] and [::toupper] of [<ctype.h>], applied to a [char] and
    cast back to [char]: functions on byte values. *)
Variables c_tolower c_toupper : Z → Z.

(** The range-based loop [for (auto &ch : *this) ch = f (ch)]. *)
Definition map_chars (f : Z → Z) (s : t) : res t :=
  iter_up (Z.to_nat (length_ s)) 0 (fun i s => c ← at_ s i; at_put s i (f c)) s.

(** [lowercase ()] *)
Definition lowercase (s : t) : res t := map_chars c_tolower s.

(** [uppercase ()] *)
Definition uppercase (s : t) : res t := map_chars c_toupper s.

End WithCtype.

End CrString.

(** ** StringBuffer: simple rotation-string pool *)

Module StringBuffer.

Definition StaticBufferSize : Z := 1024.
Definition RotationCount : Z := 16.

(** [data_] holds [RotationCount + 1] arrays of [StaticBufferSize + 1] bytes. *)
Record t : Type := mk { data_ : list (list Z); rotate_ : Z }.

Section WithClamp.

(** [cr::clamp] lives in [crlib/basic.h]. *)
Variable clamp : Z → Z → Z → Z.

(** [chars ()]: the index of the array it returns, and the pool afterwards. *)
Definition chars (sb : t) : res (Z * t) :=
  let r := wrap (rotate_ sb + 1) in
  let r := if r >=? RotationCount then 0 else r in
  let idx := clamp r 0 RotationCount in
  if idx <? 0 then UB
  else match data_ sb !! Z.to_nat idx with
       | Some row =>
           row' ← wr row 0 kNullChar;
           Ok (idx, mk (<[Z.to_nat idx := row']> (data_ sb)) r)
       | None => UB
       end.

(** [n] calls of [chars ()] in a row: the indices returned, in order. *)
Fixpoint chars_n (n : nat) (sb : t) : res (list Z * t) :=
  match n with
  | O => Ok ([], sb)
  | S n' =>
      r ← chars sb;
      rest ← chars_n n' r.2;
      Ok (r.1 :: rest.1, rest.2)
  end.

End WithClamp.

(** A pool as the class lays it out, with the cursor inside the ring. *)
Definition Valid (sb : t) : Prop :=
  length (data_ sb) = 17%nat ∧ Forall (fun row => row ≠ []) (data_ sb) ∧
  0 <= rotate_ sb < RotationCount.

End StringBuffer.

(** ** Utf8Tools: some limited utf8 stuff *)

Module Utf8Tools.

Definition Utf8MaxChars : Z := 706.

Record Utf8Table : Type :=
  mkTable { cmask : Z; cval : Z; shift : Z; lmask : Z; lval : Z }.

Record Utf8CaseTable : Type := mkCase { from : Z; to : Z }.

Definition upperTable_ : list Utf8CaseTable :=
  map (fun p : Z * Z => mkCase p.1 p.2) [
    (0x0061, 0x0041); (0x0062, 0x0042); (0x0063, 0x0043); (0x0064, 0x0044); (0x0065, 0x0045); (0x0066, 0x0046);
    (0x0067, 0x0047); (0x0068, 0x0048); (0x0069, 0x0049); (0x006a, 0x004a); (0x006b, 0x004b); (0x006c, 0x004c);
    (0x006d, 0x004d); (0x006e, 0x004e); (0x006f, 0x004f); (0x0070, 0x0050); (0x0071, 0x0051); (0x0072, 0x0052);
    (0x0073, 0x0053); (0x0074, 0x0054); (0x0075, 0x0055); (0x0076, 0x0056); (0x0077, 0x0057); (0x0078, 0x0058);
    (0x0079, 0x0059); (0x007a, 0x005a); (0x00e0, 0x00c0); (0x00e1, 0x00c1); (0x00e2, 0x00c2); (0x00e3, 0x00c3);
    (0x00e4, 0x00c4); (0x00e5, 0x00c5); (0x00e6, 0x00c6); (0x00e7, 0x00c7); (0x00e8, 0x00c8); (0x00e9, 0x00c9);
    (0x00ea, 0x00ca); (0x00eb, 0x00cb); (0x00ec, 0x00cc); (0x00ed, 0x00cd); (0x00ee, 0x00ce); (0x00ef, 0x00cf);
    (0x00f0, 0x00d0); (0x00f1, 0x00d1); (0x00f2, 0x00d2); (0x00f3, 0x00d3); (0x00f4, 0x00d4); (0x00f5, 0x00d5);
    (0x00f6, 0x00d6); (0x00f8, 0x00d8); (0x00f9, 0x00d9); (0x00fa, 0x00da); (0x00fb, 0x00db); (0x00fc, 0x00dc);
    (0x00fd, 0x00dd); (0x00fe, 0x00de); (0x00ff, 0x0178); (0x0101, 0x0100); (0x0103, 0x0102); (0x0105, 0x0104);
    (0x0107, 0x0106); (0x0109, 0x0108); (0x010b, 0x010a); (0x010d, 0x010c); (0x010f, 0x010e); (0x0111, 0x0110);
    (0x0113, 0x0112); (0x0115, 0x0114); (0x0117, 0x0116); (0x0119, 0x0118); (0x011b, 0x011a); (0x011d, 0x011c);
    (0x011f, 0x011e); (0x0121, 0x0120); (0x0123, 0x0122); (0x0125, 0x0124); (0x0127, 0x0126); (0x0129, 0x0128);
    (0x012b, 0x012a); (0x012d, 0x012c); (0x012f, 0x012e); (0x0131, 0x0049); (0x0133, 0x0132); (0x0135, 0x0134);
    (0x0137, 0x0136); (0x013a, 0x0139); (0x013c, 0x013b); (0x013e, 0x013d); (0x0140, 0x013f); (0x0142, 0x0141);
    (0x0144, 0x0143); (0x0146, 0x0145); (0x0148, 0x0147); (0x014b, 0x014a); (0x014d, 0x014c); (0x014f, 0x014e);
    (0x0151, 0x0150); (0x0153, 0x0152); (0x0155, 0x0154); (0x0157, 0x0156); (0x0159, 0x0158); (0x015b, 0x015a);
    (0x015d, 0x015c); (0x015f, 0x015e); (0x0161, 0x0160); (0x0163, 0x0162); (0x0165, 0x0164); (0x0167, 0x0166);
    (0x0169, 0x0168); (0x016b, 0x016a); (0x016d, 0x016c); (0x016f, 0x016e); (0x0171, 0x0170); (0x0173, 0x0172);
    (0x0175, 0x0174); (0x0177, 0x0176); (0x017a, 0x0179); (0x017c, 0x017b); (0x017e, 0x017d); (0x0183, 0x0182);
    (0x0185, 0x0184); (0x0188, 0x0187); (0x018c, 0x018b); (0x0192, 0x0191); (0x0195, 0x01f6); (0x0199, 0x0198);
    (0x019e, 0x0220); (0x01a1, 0x01a0); (0x01a3, 0x01a2); (0x01a5, 0x01a4); (0x01a8, 0x01a7); (0x01ad, 0x01ac);
    (0x01b0, 0x01af); (0x01b4, 0x01b3); (0x01b6, 0x01b5); (0x01b9, 0x01b8); (0x01bd, 0x01bc); (0x01bf, 0x01f7);
    (0x01c6, 0x01c4); (0x01c9, 0x01c7); (0x01cc, 0x01ca); (0x01ce, 0x01cd); (0x01d0, 0x01cf); (0x01d2, 0x01d1);
    (0x01d4, 0x01d3); (0x01d6, 0x01d5); (0x01d8, 0x01d7); (0x01da, 0x01d9); (0x01dc, 0x01db); (0x01dd, 0x018e);
    (0x01df, 0x01de); (0x01e1, 0x01e0); (0x01e3, 0x01e2); (0x01e5, 0x01e4); (0x01e7, 0x01e6); (0x01e9, 0x01e8);
    (0x01eb, 0x01ea); (0x01ed, 0x01ec); (0x01ef, 0x01ee); (0x01f3, 0x01f1); (0x01f5, 0x01f4); (0x01f9, 0x01f8);
    (0x01fb, 0x01fa); (0x01fd, 0x01fc); (0x01ff, 0x01fe); (0x0201, 0x0200); (0x0203, 0x0202); (0x0205, 0x0204);
    (0x0207, 0x0206); (0x0209, 0x0208); (0x020b, 0x020a); (0x020d, 0x020c); (0x020f, 0x020e); (0x0211, 0x0210);
    (0x0213, 0x0212); (0x0215, 0x0214); (0x0217, 0x0216); (0x0219, 0x0218); (0x021b, 0x021a); (0x021d, 0x021c);
    (0x021f, 0x021e); (0x0223, 0x0222); (0x0225, 0x0224); (0x0227, 0x0226); (0x0229, 0x0228); (0x022b, 0x022a);
    (0x022d, 0x022c); (0x022f, 0x022e); (0x0231, 0x0230); (0x0233, 0x0232); (0x0253, 0x0181); (0x0254, 0x0186);
    (0x0256, 0x0189); (0x0257, 0x018a); (0x0259, 0x018f); (0x025b, 0x0190); (0x0260, 0x0193); (0x0263, 0x0194);
    (0x0268, 0x0197); (0x0269, 0x0196); (0x026f, 0x019c); (0x0272, 0x019d); (0x0275, 0x019f); (0x0280, 0x01a6);
    (0x0283, 0x01a9); (0x0288, 0x01ae); (0x028a, 0x01b1); (0x028b, 0x01b2); (0x0292, 0x01b7); (0x03ac, 0x0386);
    (0x03ad, 0x0388); (0x03ae, 0x0389); (0x03af, 0x038a); (0x03b1, 0x0391); (0x03b2, 0x0392); (0x03b3, 0x0393);
    (0x03b4, 0x0394); (0x03b5, 0x0395); (0x03b6, 0x0396); (0x03b7, 0x0397); (0x03b8, 0x0398); (0x03b9, 0x0345);
    (0x03ba, 0x039a); (0x03bb, 0x039b); (0x03bc, 0x00b5); (0x03bd, 0x039d); (0x03be, 0x039e); (0x03bf, 0x039f);
    (0x03c0, 0x03a0); (0x03c1, 0x03a1); (0x03c3, 0x03a3); (0x03c4, 0x03a4); (0x03c5, 0x03a5); (0x03c6, 0x03a6);
    (0x03c7, 0x03a7); (0x03c8, 0x03a8); (0x03c9, 0x03a9); (0x03ca, 0x03aa); (0x03cb, 0x03ab); (0x03cc, 0x038c);
    (0x03cd, 0x038e); (0x03ce, 0x038f); (0x03d9, 0x03d8); (0x03db, 0x03da); (0x03dd, 0x03dc); (0x03df, 0x03de);
    (0x03e1, 0x03e0); (0x03e3, 0x03e2); (0x03e5, 0x03e4); (0x03e7, 0x03e6); (0x03e9, 0x03e8); (0x03eb, 0x03ea);
    (0x03ed, 0x03ec); (0x03ef, 0x03ee); (0x03f2, 0x03f9); (0x03f8, 0x03f7); (0x03fb, 0x03fa); (0x0430, 0x0410);
    (0x0431, 0x0411); (0x0432, 0x0412); (0x0433, 0x0413); (0x0434, 0x0414); (0x0435, 0x0415); (0x0436, 0x0416);
    (0x0437, 0x0417); (0x0438, 0x0418); (0x0439, 0x0419); (0x043a, 0x041a); (0x043b, 0x041b); (0x043c, 0x041c);
    (0x043d, 0x041d); (0x043e, 0x041e); (0x043f, 0x041f); (0x0440, 0x0420); (0x0441, 0x0421); (0x0442, 0x0422);
    (0x0443, 0x0423); (0x0444, 0x0424); (0x0445, 0x0425); (0x0446, 0x0426); (0x0447, 0x0427); (0x0448, 0x0428);
    (0x0449, 0x0429); (0x044a, 0x042a); (0x044b, 0x042b); (0x044c, 0x042c); (0x044d, 0x042d); (0x044e, 0x042e);
    (0x044f, 0x042f); (0x0450, 0x0400); (0x0451, 0x0401); (0x0452, 0x0402); (0x0453, 0x0403); (0x0454, 0x0404);
    (0x0455, 0x0405); (0x0456, 0x0406); (0x0457, 0x0407); (0x0458, 0x0408); (0x0459, 0x0409); (0x045a, 0x040a);
    (0x045b, 0x040b); (0x045c, 0x040c); (0x045d, 0x040d); (0x045e, 0x040e); (0x045f, 0x040f); (0x0461, 0x0460);
    (0x0463, 0x0462); (0x0465, 0x0464); (0x0467, 0x0466); (0x0469, 0x0468); (0x046b, 0x046a); (0x046d, 0x046c);
    (0x046f, 0x046e); (0x0471, 0x0470); (0x0473, 0x0472); (0x0475, 0x0474); (0x0477, 0x0476); (0x0479, 0x0478);
    (0x047b, 0x047a); (0x047d, 0x047c); (0x047f, 0x047e); (0x0481, 0x0480); (0x048b, 0x048a); (0x048d, 0x048c);
    (0x048f, 0x048e); (0x0491, 0x0490); (0x0493, 0x0492); (0x0495, 0x0494); (0x0497, 0x0496); (0x0499, 0x0498);
    (0x049b, 0x049a); (0x049d, 0x049c); (0x049f, 0x049e); (0x04a1, 0x04a0); (0x04a3, 0x04a2); (0x04a5, 0x04a4);
    (0x04a7, 0x04a6); (0x04a9, 0x04a8); (0x04ab, 0x04aa); (0x04ad, 0x04ac); (0x04af, 0x04ae); (0x04b1, 0x04b0);
    (0x04b3, 0x04b2); (0x04b5, 0x04b4); (0x04b7, 0x04b6); (0x04b9, 0x04b8); (0x04bb, 0x04ba); (0x04bd, 0x04bc);
    (0x04bf, 0x04be); (0x04c2, 0x04c1); (0x04c4, 0x04c3); (0x04c6, 0x04c5); (0x04c8, 0x04c7); (0x04ca, 0x04c9);
    (0x04cc, 0x04cb); (0x04ce, 0x04cd); (0x04d1, 0x04d0); (0x04d3, 0x04d2); (0x04d5, 0x04d4); (0x04d7, 0x04d6);
    (0x04d9, 0x04d8); (0x04db, 0x04da); (0x04dd, 0x04dc); (0x04df, 0x04de); (0x04e1, 0x04e0); (0x04e3, 0x04e2);
    (0x04e5, 0x04e4); (0x04e7, 0x04e6); (0x04e9, 0x04e8); (0x04eb, 0x04ea); (0x04ed, 0x04ec); (0x04ef, 0x04ee);
    (0x04f1, 0x04f0); (0x04f3, 0x04f2); (0x04f5, 0x04f4); (0x04f9, 0x04f8); (0x0501, 0x0500); (0x0503, 0x0502);
    (0x0505, 0x0504); (0x0507, 0x0506); (0x0509, 0x0508); (0x050b, 0x050a); (0x050d, 0x050c); (0x050f, 0x050e);
    (0x0561, 0x0531); (0x0562, 0x0532); (0x0563, 0x0533); (0x0564, 0x0534); (0x0565, 0x0535); (0x0566, 0x0536);
    (0x0567, 0x0537); (0x0568, 0x0538); (0x0569, 0x0539); (0x056a, 0x053a); (0x056b, 0x053b); (0x056c, 0x053c);
    (0x056d, 0x053d); (0x056e, 0x053e); (0x056f, 0x053f); (0x0570, 0x0540); (0x0571, 0x0541); (0x0572, 0x0542);
    (0x0573, 0x0543); (0x0574, 0x0544); (0x0575, 0x0545); (0x0576, 0x0546); (0x0577, 0x0547); (0x0578, 0x0548);
    (0x0579, 0x0549); (0x057a, 0x054a); (0x057b, 0x054b); (0x057c, 0x054c); (0x057d, 0x054d); (0x057e, 0x054e);
    (0x057f, 0x054f); (0x0580, 0x0550); (0x0581, 0x0551); (0x0582, 0x0552); (0x0583, 0x0553); (0x0584, 0x0554);
    (0x0585, 0x0555); (0x0586, 0x0556); (0x1e01, 0x1e00); (0x1e03, 0x1e02); (0x1e05, 0x1e04); (0x1e07, 0x1e06);
    (0x1e09, 0x1e08); (0x1e0b, 0x1e0a); (0x1e0d, 0x1e0c); (0x1e0f, 0x1e0e); (0x1e11, 0x1e10); (0x1e13, 0x1e12);
    (0x1e15, 0x1e14); (0x1e17, 0x1e16); (0x1e19, 0x1e18); (0x1e1b, 0x1e1a); (0x1e1d, 0x1e1c); (0x1e1f, 0x1e1e);
    (0x1e21, 0x1e20); (0x1e23, 0x1e22); (0x1e25, 0x1e24); (0x1e27, 0x1e26); (0x1e29, 0x1e28); (0x1e2b, 0x1e2a);
    (0x1e2d, 0x1e2c); (0x1e2f, 0x1e2e); (0x1e31, 0x1e30); (0x1e33, 0x1e32); (0x1e35, 0x1e34); (0x1e37, 0x1e36);
    (0x1e39, 0x1e38); (0x1e3b, 0x1e3a); (0x1e3d, 0x1e3c); (0x1e3f, 0x1e3e); (0x1e41, 0x1e40); (0x1e43, 0x1e42);
    (0x1e45, 0x1e44); (0x1e47, 0x1e46); (0x1e49, 0x1e48); (0x1e4b, 0x1e4a); (0x1e4d, 0x1e4c); (0x1e4f, 0x1e4e);
    (0x1e51, 0x1e50); (0x1e53, 0x1e52); (0x1e55, 0x1e54); (0x1e57, 0x1e56); (0x1e59, 0x1e58); (0x1e5b, 0x1e5a);
    (0x1e5d, 0x1e5c); (0x1e5f, 0x1e5e); (0x1e61, 0x1e60); (0x1e63, 0x1e62); (0x1e65, 0x1e64); (0x1e67, 0x1e66);
    (0x1e69, 0x1e68); (0x1e6b, 0x1e6a); (0x1e6d, 0x1e6c); (0x1e6f, 0x1e6e); (0x1e71, 0x1e70); (0x1e73, 0x1e72);
    (0x1e75, 0x1e74); (0x1e77, 0x1e76); (0x1e79, 0x1e78); (0x1e7b, 0x1e7a); (0x1e7d, 0x1e7c); (0x1e7f, 0x1e7e);
    (0x1e81, 0x1e80); (0x1e83, 0x1e82); (0x1e85, 0x1e84); (0x1e87, 0x1e86); (0x1e89, 0x1e88); (0x1e8b, 0x1e8a);
    (0x1e8d, 0x1e8c); (0x1e8f, 0x1e8e); (0x1e91, 0x1e90); (0x1e93, 0x1e92); (0x1e95, 0x1e94); (0x1ea1, 0x1ea0);
    (0x1ea3, 0x1ea2); (0x1ea5, 0x1ea4); (0x1ea7, 0x1ea6); (0x1ea9, 0x1ea8); (0x1eab, 0x1eaa); (0x1ead, 0x1eac);
    (0x1eaf, 0x1eae); (0x1eb1, 0x1eb0); (0x1eb3, 0x1eb2); (0x1eb5, 0x1eb4); (0x1eb7, 0x1eb6); (0x1eb9, 0x1eb8);
    (0x1ebb, 0x1eba); (0x1ebd, 0x1ebc); (0x1ebf, 0x1ebe); (0x1ec1, 0x1ec0); (0x1ec3, 0x1ec2); (0x1ec5, 0x1ec4);
    (0x1ec7, 0x1ec6); (0x1ec9, 0x1ec8); (0x1ecb, 0x1eca); (0x1ecd, 0x1ecc); (0x1ecf, 0x1ece); (0x1ed1, 0x1ed0);
    (0x1ed3, 0x1ed2); (0x1ed5, 0x1ed4); (0x1ed7, 0x1ed6); (0x1ed9, 0x1ed8); (0x1edb, 0x1eda); (0x1edd, 0x1edc);
    (0x1edf, 0x1ede); (0x1ee1, 0x1ee0); (0x1ee3, 0x1ee2); (0x1ee5, 0x1ee4); (0x1ee7, 0x1ee6); (0x1ee9, 0x1ee8);
    (0x1eeb, 0x1eea); (0x1eed, 0x1eec); (0x1eef, 0x1eee); (0x1ef1, 0x1ef0); (0x1ef3, 0x1ef2); (0x1ef5, 0x1ef4);
    (0x1ef7, 0x1ef6); (0x1ef9, 0x1ef8); (0x1f00, 0x1f08); (0x1f01, 0x1f09); (0x1f02, 0x1f0a); (0x1f03, 0x1f0b);
    (0x1f04, 0x1f0c); (0x1f05, 0x1f0d); (0x1f06, 0x1f0e); (0x1f07, 0x1f0f); (0x1f10, 0x1f18); (0x1f11, 0x1f19);
    (0x1f12, 0x1f1a); (0x1f13, 0x1f1b); (0x1f14, 0x1f1c); (0x1f15, 0x1f1d); (0x1f20, 0x1f28); (0x1f21, 0x1f29);
    (0x1f22, 0x1f2a); (0x1f23, 0x1f2b); (0x1f24, 0x1f2c); (0x1f25, 0x1f2d); (0x1f26, 0x1f2e); (0x1f27, 0x1f2f);
    (0x1f30, 0x1f38); (0x1f31, 0x1f39); (0x1f32, 0x1f3a); (0x1f33, 0x1f3b); (0x1f34, 0x1f3c); (0x1f35, 0x1f3d);
    (0x1f36, 0x1f3e); (0x1f37, 0x1f3f); (0x1f40, 0x1f48); (0x1f41, 0x1f49); (0x1f42, 0x1f4a); (0x1f43, 0x1f4b);
    (0x1f44, 0x1f4c); (0x1f45, 0x1f4d); (0x1f51, 0x1f59); (0x1f53, 0x1f5b); (0x1f55, 0x1f5d); (0x1f57, 0x1f5f);
    (0x1f60, 0x1f68); (0x1f61, 0x1f69); (0x1f62, 0x1f6a); (0x1f63, 0x1f6b); (0x1f64, 0x1f6c); (0x1f65, 0x1f6d);
    (0x1f66, 0x1f6e); (0x1f67, 0x1f6f); (0x1f70, 0x1fba); (0x1f71, 0x1fbb); (0x1f72, 0x1fc8); (0x1f73, 0x1fc9);
    (0x1f74, 0x1fca); (0x1f75, 0x1fcb); (0x1f76, 0x1fda); (0x1f77, 0x1fdb); (0x1f78, 0x1ff8); (0x1f79, 0x1ff9);
    (0x1f7a, 0x1fea); (0x1f7b, 0x1feb); (0x1f7c, 0x1ffa); (0x1f7d, 0x1ffb); (0x1f80, 0x1f88); (0x1f81, 0x1f89);
    (0x1f82, 0x1f8a); (0x1f83, 0x1f8b); (0x1f84, 0x1f8c); (0x1f85, 0x1f8d); (0x1f86, 0x1f8e); (0x1f87, 0x1f8f);
    (0x1f90, 0x1f98); (0x1f91, 0x1f99); (0x1f92, 0x1f9a); (0x1f93, 0x1f9b); (0x1f94, 0x1f9c); (0x1f95, 0x1f9d);
    (0x1f96, 0x1f9e); (0x1f97, 0x1f9f); (0x1fa0, 0x1fa8); (0x1fa1, 0x1fa9); (0x1fa2, 0x1faa); (0x1fa3, 0x1fab);
    (0x1fa4, 0x1fac); (0x1fa5, 0x1fad); (0x1fa6, 0x1fae); (0x1fa7, 0x1faf); (0x1fb0, 0x1fb8); (0x1fb1, 0x1fb9);
    (0x1fb3, 0x1fbc); (0x1fc3, 0x1fcc); (0x1fd0, 0x1fd8); (0x1fd1, 0x1fd9); (0x1fe0, 0x1fe8); (0x1fe1, 0x1fe9);
    (0x1fe5, 0x1fec); (0x1ff3, 0x1ffc); (0x2170, 0x2160); (0x2171, 0x2161); (0x2172, 0x2162); (0x2173, 0x2163);
    (0x2174, 0x2164); (0x2175, 0x2165); (0x2176, 0x2166); (0x2177, 0x2167); (0x2178, 0x2168); (0x2179, 0x2169);
    (0x217a, 0x216a); (0x217b, 0x216b); (0x217c, 0x216c); (0x217d, 0x216d); (0x217e, 0x216e); (0x217f, 0x216f);
    (0x24d0, 0x24b6); (0x24d1, 0x24b7); (0x24d2, 0x24b8); (0x24d3, 0x24b9); (0x24d4, 0x24ba); (0x24d5, 0x24bb);
    (0x24d6, 0x24bc); (0x24d7, 0x24bd); (0x24d8, 0x24be); (0x24d9, 0x24bf); (0x24da, 0x24c0); (0x24db, 0x24c1);
    (0x24dc, 0x24c2); (0x24dd, 0x24c3); (0x24de, 0x24c4); (0x24df, 0x24c5); (0x24e0, 0x24c6); (0x24e1, 0x24c7);
    (0x24e2, 0x24c8); (0x24e3, 0x24c9); (0x24e4, 0x24ca); (0x24e5, 0x24cb); (0x24e6, 0x24cc); (0x24e7, 0x24cd);
    (0x24e8, 0x24ce); (0x24e9, 0x24cf); (0xff41, 0xff21); (0xff42, 0xff22); (0xff43, 0xff23); (0xff44, 0xff24);
    (0xff45, 0xff25); (0xff46, 0xff26); (0xff47, 0xff27); (0xff48, 0xff28); (0xff49, 0xff29); (0xff4a, 0xff2a);
    (0xff4b, 0xff2b); (0xff4c, 0xff2c); (0xff4d, 0xff2d); (0xff4e, 0xff2e); (0xff4f, 0xff2f); (0xff50, 0xff30);
    (0xff51, 0xff31); (0xff52, 0xff32); (0xff53, 0xff33); (0xff54, 0xff34); (0xff55, 0xff35); (0xff56, 0xff36);
    (0xff57, 0xff37); (0xff58, 0xff38); (0xff59, 0xff39); (0xff5a, 0xff3a)
  ].

(** [utfTable_.emplace (...)] appends a row. *)
Definition emplace (tbl : list Utf8Table) (a b c d e : Z) : list Utf8Table :=
  tbl ++ [mkTable a b c d e].

(** [buildTable ()], run once by the constructor on the empty table. *)
Definition buildTable (tbl : list Utf8Table) : list Utf8Table :=
  let tbl := emplace tbl 0x80 0x00 (0 * 6) 0x7f 0 in
  let tbl := emplace tbl 0xe0 0xc0 (1 * 6) 0x7ff 0x80 in
  let tbl := emplace tbl 0xf0 0xe0 (2 * 6) 0xffff 0x800 in
  let tbl := emplace tbl 0xf8 0xf0 (3 * 6) 0x1fffff 0x10000 in
  let tbl := emplace tbl 0xfc 0xf8 (4 * 6) 0x3ffffff 0x200000 in
  let tbl := emplace tbl 0xfe 0xfc (5 * 6) 0x7fffffff 0x4000000 in
  tbl.

Definition utfTable_ : list Utf8Table := buildTable [].

(** Conversion to [int32_t]. *)
Definition sint32 (x : Z) : Z := (x + 2 ^ 31) mod 2 ^ 32 - 2 ^ 31.

Section Platform.

(** Whether plain [char] is signed, and whether [wchar_t] is the
    unsigned 16-bit type (otherwise it is [int32_t]). *)
Variable char_signed : bool.
Variable wchar16 : bool.

(** A byte read as a [char] and promoted to [int]. *)
Definition char_to_int (b : Z) : Z :=
  if char_signed && (b >=? 128) then b - 256 else b.

(** [static_cast <wchar_t> (x)] *)
Definition to_wchar (x : Z) : Z :=
  if wchar16 then x mod 2 ^ 16 else sint32 x.

(** The loop of [multiByteToWideChar] over the rows of the table; [k] is
    how far [mbs] has advanced. Yields the returned length and [*wide]. *)
Fixpoint decode_loop (tbl : list Utf8Table) (mbs : cptr) (ch : Z)
    (k len lv wide : Z) : res (Z * Z) :=
  match tbl with
  | [] => Ok (-1, wide)
  | table :: tbl' =>
      let len := sint32 (len + 1) in
      if Z.land ch (cmask table) =? cval table then
        let lv := sint32 (Z.land lv (lmask table)) in
        if lv <? lval table then Ok (-1, wide)
        else Ok (len, to_wchar lv)
      else
        let k := k + 1 in
        b ← rdp mbs k;
        let test := Z.land (Z.lxor (char_to_int b) 0x80) 0xff in
        if negb (Z.land test 0xc0 =? 0) then Ok (-1, wide)
        else decode_loop tbl' mbs ch k len (sint32 (Z.lor (Z.shiftl lv 6) test)) wide
  end.

(** [multiByteToWideChar (wchar_t *wide, const char *mbs)]: the returned
    length, and the value of [*wide] afterwards. *)
Definition multiByteToWideChar (wide : Z) (mbs : cptr) : res (Z * Z) :=
  b ← rdp mbs 0;
  let ch := char_to_int b in
  decode_loop utfTable_ mbs ch 0 0 ch wide.

(** The loop of [toUpper]: [while (bottom <= top)]. *)
Fixpoint toUpper_loop (n : nat) (ch bottom top : Z) {struct n} : res Z :=
  if bottom <=? top then
    match n with
    | O => Timeout
    | S n' =>
        let mid := sint32 (Z.quot (sint32 (bottom + top)) 2) in
        if mid <? 0 then UB
        else match upperTable_ !! Z.to_nat mid with
             | None => UB
             | Some e =>
                 let cur := to_wchar (from e) in
                 if ch =? cur then Ok (to_wchar (to e))
                 else if ch >? cur then toUpper_loop n' ch (sint32 (mid + 1)) top
                 else toUpper_loop n' ch bottom (sint32 (mid - 1))
             end
    end
  else Ok ch.

(** [toUpper (wchar_t ch)] *)
Definition toUpper (ch : Z) : res Z :=
  toUpper_loop (Z.to_nat Utf8MaxChars) ch 0 (Utf8MaxChars - 1).

(** Every value the table maps to, as [toUpper] returns it. *)
Definition upper_values : list Z :=
  map (fun e => to_wchar (to e)) upperTable_.

(** The keys of the table, as [toUpper] compares them. *)
Definition upper_keys : list Z := (fun e => to_wchar (from e)) <$> upperTable_.

(** What the table says about [ch], read row by row from the top: the
    mapping of the first row whose key is [ch], or [ch] itself. *)
Definition upper_of (ch : Z) : Z :=
  match list_find (fun e => ch = to_wchar (from e)) upperTable_ with
  | Some (_, e) => to_wchar (to e)
  | None => ch
  end.

(** [toUpper] leaves [u] as it is. *)
Definition upper_fixed (u : Z) : bool :=
  match toUpper u with
  | Ok u' => u' =? u
  | _ => false
  end.

(** [static_cast <char> (x)], as a byte value. *)
Definition to_char (x : Z) : Z := x mod 256.

(** The inner loop of [wideCharToMultiByte]: [while (ch > 0)]; [k] is how
    far [mbs] has advanced. *)
Fixpoint encode_tail (n : nat) (mbs : list Z) (k ch lm : Z) {struct n} : res (list Z) :=
  if ch >? 0 then
    match n with
    | O => Timeout
    | S n' =>
        let ch := sint32 (ch - 6) in
        let k := k + 1 in
        m ← wr mbs k (to_char (Z.lor 0x80 (Z.land (Z.shiftr lm ch) 0x3F)));
        encode_tail n' m k ch lm
    end
  else Ok mbs.

(** The loop of [wideCharToMultiByte] over the rows of the table. *)
Fixpoint encode_loop (tbl : list Utf8Table) (mbs : list Z) (len lm : Z)
    : res (Z * list Z) :=
  match tbl with
  | [] => Ok (-1, mbs)
  | table :: tbl' =>
      let len := sint32 (len + 1) in
      if lm <=? lmask table then
        let ch := shift table in
        m ← wr mbs 0 (to_char (Z.lor (cval table) (Z.shiftr lm ch)));
        m ← encode_tail 6 m 0 ch lm;
        Ok (len, m)
      else encode_loop tbl' mbs len lm
  end.

(** [wideCharToMultiByte (char *mbs, wchar_t wide)]: the returned length
    and the bytes behind [mbs] afterwards. *)
Definition wideCharToMultiByte (mbs : cptr) (wide : Z) : res (Z * cptr) :=
  match mbs with
  | None => Ok (0, None)
  | Some m => r ← encode_loop utfTable_ m 0 wide; Ok (r.1, Some r.2)
  end.

End Platform.

End Utf8Tools.

(** ** The byte sequences of FSS-UTF

    The layout the table of [buildTable] describes, written out on its own
    to state what the two conversions do: a code point of row [r] is a lead
    byte carrying the bits above [6 * r], then [r] bytes [10xxxxxx] with six
    bits each, the high ones first. *)

(** The [j] trailing bytes of [w]. *)
Fixpoint tail_bytes (j : nat) (w : Z) : list Z :=
  match j with
  | O => []
  | S j' => (0x80 + (w / 64 ^ Z.of_nat j') mod 64) :: tail_bytes j' w
  end.

(** The first row whose [lmask] is not below [w]. *)
Definition row_of (w : Z) : nat :=
  if w <=? 0x7f then 0
  else if w <=? 0x7ff then 1
  else if w <=? 0xffff then 2
  else if w <=? 0x1fffff then 3
  else if w <=? 0x3ffffff then 4
  else 5.

(** The [cval] of a row. *)
Definition lead_of (r : nat) : Z := nth r [0x00; 0xc0; 0xe0; 0xf0; 0xf8; 0xfc] 0.

Definition sequence_of (w : Z) : list Z :=
  (lead_of (row_of w) + w / 64 ^ Z.of_nat (row_of w)) :: tail_bytes (row_of w) w.

(** * Properties *)

(** ** Outcomes and machine integers *)

Lemma wrap_small (x : Z) : 0 <= x < size_mod → wrap x = x.
Proof. intros H. unfold wrap. apply Z.mod_small. exact H. Qed.

Lemma wrap_range (x : Z) : 0 <= wrap x < size_mod.
Proof. unfold wrap. apply Z.mod_pos_bound. reflexivity. Qed.

Lemma size_mod_eq : size_mod = 18446744073709551616.
Proof. reflexivity. Qed.

Lemma InvalidIndex_eq : InvalidIndex = 18446744073709551615.
Proof. reflexivity. Qed.

Lemma sint32_small (x : Z) : - 2 ^ 31 <= x < 2 ^ 31 → Utf8Tools.sint32 x = x.
Proof.
  intros H. unfold Utf8Tools.sint32.
  rewrite Z.mod_small; lia.
Qed.

(** ** The scenarios, run on the model *)

Example find_banana :
  StringRef.find (StringRef.lit "banana") (StringRef.lit "ana") 0 = Ok 1.
Proof. reflexivity. Qed.

Example assign_append_scenario :
  (s ← CrString.assign (fun _ _ => 0) CrString.empty_string (Some (cstr "hello")) 0;
   s ← CrString.append (fun _ _ => 0) s (Some (cstr " world")) 0;
   Ok (CrString.content s, CrString.length_ s))
  = Ok (bytes "hello world", 11).
Proof. vm_compute. reflexivity. Qed.

Example replace_banana :
  (s ← CrString.lit (fun _ _ => 0) "banana";
   r ← CrString.replace (fun _ _ => 0) s (StringRef.lit "ana") (StringRef.lit "X");
   Ok (r.1, CrString.content r.2))
  = Ok (1, bytes "bXna").
Proof. vm_compute. reflexivity. Qed.

(** The replacement contains the needle and is not scanned again. *)
Example replace_doubles :
  (s ← CrString.lit (fun _ _ => 0) "banana";
   r ← CrString.replace (fun _ _ => 0) s (StringRef.lit "a") (StringRef.lit "aa");
   Ok (r.1, CrString.content r.2))
  = Ok (3, bytes "baanaanaa").
Proof. vm_compute. reflexivity. Qed.

(** A string built with an explicit length keeps a zero byte inside; its
    copy does not. *)
Example explicit_length_then_copy :
  (s ← CrString.of_chars (fun _ _ => 0) (Some [97; 0; 98; 0]) 3;
   c ← CrString.copy (fun _ _ => 0) s;
   Ok (CrString.content s, CrString.content c))
  = Ok ([97; 0; 98], [97]).
Proof. vm_compute. reflexivity. Qed.

Example upper_a : Utf8Tools.toUpper false 0x61 = Ok 0x41.
Proof. vm_compute. reflexivity. Qed.

(** ** Utf8Tools *)

Section Utf8Facts.

Import Utf8Tools.

Variable wchar16 : bool.

Lemma upperTable_length : length upperTable_ = 706%nat.
Proof. reflexivity. Qed.

(** The search returns, within its fuel, the input or a mapped value. *)
Lemma toUpper_loop_result (n : nat) :
  ∀ ch bottom top,
    0 <= bottom → top < Utf8MaxChars → top - bottom + 1 <= Z.of_nat n →
    ∃ u, toUpper_loop wchar16 n ch bottom top = Ok u ∧ (u = ch ∨ In u (upper_values wchar16)).
Proof.
  unfold Utf8MaxChars.
  induction n as [|n IH]; intros ch bottom top Hb Ht Hn.
  - exists ch. cbn [toUpper_loop].
    destruct (bottom <=? top) eqn:E; [apply Z.leb_le in E; lia|]. auto.
  - cbn [toUpper_loop].
    destruct (bottom <=? top) eqn:E; [|exists ch; auto].
    apply Z.leb_le in E.
    rewrite (sint32_small (bottom + top)) by lia.
    assert (Hmid : bottom <= Z.quot (bottom + top) 2 <= top).
    { rewrite Z.quot_div_nonneg by lia. split.
      - apply Z.div_le_lower_bound; lia.
      - apply Z.div_le_upper_bound; lia. }
    set (mid := Z.quot (bottom + top) 2) in *.
    rewrite (sint32_small mid) by lia.
    destruct (mid <? 0) eqn:E0; [apply Z.ltb_lt in E0; lia|].
    destruct (lookup_lt_is_Some_2 upperTable_ (Z.to_nat mid)) as [e He].
    { rewrite upperTable_length. lia. }
    rewrite He.
    destruct (ch =? to_wchar wchar16 (from e)).
    + exists (to_wchar wchar16 (to e)). split; [reflexivity|]. right.
      unfold upper_values. apply in_map_iff. exists e. split; [reflexivity|].
      apply list_elem_of_In. eapply list_elem_of_lookup_2. exact He.
    + destruct (ch >? to_wchar wchar16 (from e)).
      * rewrite (sint32_small (mid + 1)) by lia. apply IH; lia.
      * rewrite (sint32_small (mid - 1)) by lia. apply IH; lia.
Qed.

Lemma toUpper_result (ch : Z) :
  ∃ u, toUpper wchar16 ch = Ok u ∧ (u = ch ∨ In u (upper_values wchar16)).
Proof.
  unfold toUpper. apply toUpper_loop_result; unfold Utf8MaxChars; lia.
Qed.

(** No mapped value is itself mapped: checked on the whole table. *)
Lemma upper_values_fixed : forallb (upper_fixed wchar16) (upper_values wchar16) = true.
Proof. unfold upper_values, upper_fixed. destruct wchar16; vm_compute; reflexivity. Qed.

Lemma toUpper_fixed (u : Z) : In u (upper_values wchar16) → toUpper wchar16 u = Ok u.
Proof.
  intros Hu.
  pose proof (proj1 (forallb_forall _ _) upper_values_fixed u Hu) as H.
  unfold upper_fixed in H.
  destruct (toUpper wchar16 u) as [u'| |]; try discriminate.
  apply Z.eqb_eq in H. congruence.
Qed.

End Utf8Facts.

(** ** The binary search of [toUpper] against the table read in order *)

Lemma ascending_head (l : list Z) :
  ∀ a, ascending (a :: l) = true → Forall (fun b => a < b) l.
Proof.
  induction l as [|b l IH]; intros a H; [constructor|].
  cbn [ascending] in H. apply andb_true_iff in H as [Hab Hrest].
  constructor; [lia|].
  eapply Forall_impl; [apply IH; exact Hrest|]. cbn. intros c Hc. lia.
Qed.

Lemma ascending_lookup (l : list Z) :
  ascending l = true →
  ∀ (i j : nat) (a b : Z), (i < j)%nat → l !! i = Some a → l !! j = Some b → a < b.
Proof.
  induction l as [|x l IH]; intros H i j a b Hij Hi Hj; [discriminate|].
  destruct j as [|j]; [lia|]. cbn in Hj.
  destruct i as [|i]; cbn in Hi.
  - injection Hi as ->.
    pose proof (ascending_head l a H) as Hall.
    rewrite Forall_lookup in Hall. exact (Hall j b Hj).
  - apply (IH) with (i := i) (j := j); [|lia|exact Hi|exact Hj].
    cbn [ascending] in H. destruct l; [discriminate|].
    apply andb_true_iff in H as [_ H]. exact H.
Qed.

Section SearchFacts.

Import Utf8Tools.

Variable wchar16 : bool.

Lemma upper_keys_ascending : ascending (upper_keys wchar16) = true.
Proof. destruct wchar16; vm_compute; reflexivity. Qed.

Lemma upper_keys_lt (i j : nat) (ei ej : Utf8CaseTable) :
  (i < j)%nat → upperTable_ !! i = Some ei → upperTable_ !! j = Some ej →
  to_wchar wchar16 (from ei) < to_wchar wchar16 (from ej).
Proof.
  intros Hij Hi Hj.
  apply (ascending_lookup _ upper_keys_ascending i j); [exact Hij| |];
    unfold upper_keys; rewrite list_lookup_fmap; [rewrite Hi|rewrite Hj]; reflexivity.
Qed.

(** The search keeps every row with a smaller key below [bottom] and every
    row with a larger key above [top], and so finds what reading the table
    in order finds. *)
Lemma toUpper_loop_spec (n : nat) :
  ∀ ch bottom top,
    0 <= bottom → top < Utf8MaxChars → top - bottom + 1 <= Z.of_nat n →
    (∀ i e, Z.of_nat i < bottom → upperTable_ !! i = Some e →
            to_wchar wchar16 (from e) < ch) →
    (∀ i e, top < Z.of_nat i → upperTable_ !! i = Some e →
            ch < to_wchar wchar16 (from e)) →
    toUpper_loop wchar16 n ch bottom top = Ok (upper_of wchar16 ch).
Proof.
  unfold Utf8MaxChars.
  induction n as [|n IH]; intros ch bottom top Hb Ht Hn Hlow Hhigh;
    cbn [toUpper_loop]; destruct (bottom <=? top) eqn:E; try lia.
  - f_equal. unfold upper_of.
    assert (list_find (λ e, ch = to_wchar wchar16 (from e)) upperTable_ = None) as ->;
      [|reflexivity].
    apply list_find_None, Forall_lookup. intros i e Hie Heq.
    destruct (Z_lt_le_dec (Z.of_nat i) bottom) as [Hi|Hi].
    + pose proof (Hlow i e Hi Hie). lia.
    + pose proof (Hhigh i e ltac:(lia) Hie). lia.
  - rewrite (sint32_small (bottom + top)) by lia.
    assert (Hmid : bottom <= Z.quot (bottom + top) 2 <= top).
    { rewrite Z.quot_div_nonneg by lia. split.
      - apply Z.div_le_lower_bound; lia.
      - apply Z.div_le_upper_bound; lia. }
    set (mid := Z.quot (bottom + top) 2) in *.
    rewrite (sint32_small mid) by lia.
    destruct (mid <? 0) eqn:E0; [lia|].
    destruct (lookup_lt_is_Some_2 upperTable_ (Z.to_nat mid)) as [e He].
    { rewrite upperTable_length. lia. }
    rewrite He.
    destruct (ch =? to_wchar wchar16 (from e)) eqn:Eeq.
    + f_equal. unfold upper_of.
      assert (list_find (λ e, ch = to_wchar wchar16 (from e)) upperTable_
              = Some (Z.to_nat mid, e)) as ->; [|reflexivity].
      apply list_find_Some. split; [exact He|]. split; [lia|].
      intros j y Hy Hj Heq.
      pose proof (upper_keys_lt j (Z.to_nat mid) y e Hj Hy He). lia.
    + destruct (ch >? to_wchar wchar16 (from e)) eqn:Egt.
      * rewrite (sint32_small (mid + 1)) by lia.
        apply IH; [lia|lia|lia| |exact Hhigh].
        intros i e' Hi Hie.
        destruct (decide (i = Z.to_nat mid)) as [->|Hne].
        -- rewrite He in Hie. injection Hie as <-. lia.
        -- pose proof (upper_keys_lt i (Z.to_nat mid) e' e ltac:(lia) Hie He). lia.
      * rewrite (sint32_small (mid - 1)) by lia.
        apply IH; [lia|lia|lia|exact Hlow|].
        intros i e' Hi Hie.
        destruct (decide (i = Z.to_nat mid)) as [->|Hne].
        -- rewrite He in Hie. injection Hie as <-. lia.
        -- pose proof (upper_keys_lt (Z.to_nat mid) i e e' ltac:(lia) He Hie). lia.
  - f_equal. unfold upper_of.
    assert (list_find (λ e, ch = to_wchar wchar16 (from e)) upperTable_ = None) as ->;
      [|reflexivity].
    apply list_find_None, Forall_lookup. intros i e Hie Heq.
    destruct (Z_lt_le_dec (Z.of_nat i) bottom) as [Hi|Hi].
    + pose proof (Hlow i e Hi Hie). lia.
    + pose proof (Hhigh i e ltac:(lia) Hie). lia.
Qed.

(** [toUpper] returns the mapping of the row whose key is [ch], and [ch]
    itself when no row has that key. *)
Lemma toUpper_spec (ch : Z) : toUpper wchar16 ch = Ok (upper_of wchar16 ch).
Proof.
  unfold toUpper. apply toUpper_loop_spec; unfold Utf8MaxChars; try lia.
  intros i e Hi Hie. apply lookup_lt_Some in Hie. rewrite upperTable_length in Hie. lia.
Qed.

End SearchFacts.

(** C8. [toUpper] returns a value for every code point, and applying it to
    that value returns it again: [toUpper (toUpper (c)) == toUpper (c)],
    whether [wchar_t] is 16 or 32 bits wide. *)
Theorem toUpper_idempotent (wchar16 : bool) (c : Z) :
  ∃ u, Utf8Tools.toUpper wchar16 c = Ok u ∧ Utf8Tools.toUpper wchar16 u = Ok u.
Proof.
  destruct (toUpper_result wchar16 c) as (u & Hu & [->|Hin]).
  - exists c. split; exact Hu.
  - exists u. split; [exact Hu|]. apply toUpper_fixed. exact Hin.
Qed.

(** C9. Decoding the bytes [0xE2 0x82 0xAC] yields the code point [0x20AC]
    and the length 3, whatever follows them, whatever [*wide] held, and
    whether or not [char] is signed and [wchar_t] is 16 bits wide. *)
Theorem decode_euro_sign (char_signed wchar16 : bool) (wide : Z) (rest : list Z) :
  Utf8Tools.multiByteToWideChar char_signed wchar16 wide
    (Some (0xE2 :: 0x82 :: 0xAC :: rest)) = Ok (3, 0x20AC).
Proof. destruct char_signed, wchar16; vm_compute; reflexivity. Qed.
(** ** Memory *)

Lemma rd_ok (m : list Z) (i : Z) :
  0 <= i < Z.of_nat (length m) → ∃ b, rd m i = Ok b ∧ m !! Z.to_nat i = Some b.
Proof.
  intros H. unfold rd.
  destruct (i <? 0) eqn:E; [apply Z.ltb_lt in E; lia|].
  destruct (lookup_lt_is_Some_2 m (Z.to_nat i)) as [b Hb]; [lia|].
  exists b. rewrite Hb. auto.
Qed.

Lemma wr_ok (m : list Z) (i v : Z) :
  0 <= i < Z.of_nat (length m) → wr m i v = Ok (<[Z.to_nat i := v]> m).
Proof.
  intros H. unfold wr.
  destruct (0 <=? i) eqn:E1; [|apply Z.leb_gt in E1; lia].
  destruct (i <? Z.of_nat (length m)) eqn:E2; [|apply Z.ltb_ge in E2; lia].
  reflexivity.
Qed.

Lemma memcpy_ok (dst : list Z) (off : Z) (src : cptr) (n : Z) :
  0 <= n → readable src n → 0 <= off → off + n <= Z.of_nat (length dst) →
  memcpy dst off src n
  = Ok (take (Z.to_nat off) dst ++ ptr_bytes src n ++ drop (Z.to_nat (off + n)) dst).
Proof.
  intros Hn Hr Hoff Hlen. unfold memcpy.
  destruct (n =? 0) eqn:E.
  - apply Z.eqb_eq in E. subst n.
    destruct (0 <=? off) eqn:E1; [|apply Z.leb_gt in E1; lia].
    destruct (off <=? Z.of_nat (length dst)) eqn:E2; [|apply Z.leb_gt in E2; lia].
    cbn [andb]. f_equal.
    assert (ptr_bytes src 0 = []) as -> by (destruct src; reflexivity).
    rewrite Z.add_0_r. cbn [app]. symmetry. apply take_drop.
  - apply Z.eqb_neq in E.
    destruct src as [s|]; cbn [readable] in Hr; [|lia].
    destruct (0 <? n) eqn:E0; [|apply Z.ltb_ge in E0; lia].
    destruct (n <=? Z.of_nat (length s)) eqn:E1; [|apply Z.leb_gt in E1; lia].
    destruct (0 <=? off) eqn:E2; [|apply Z.leb_gt in E2; lia].
    destruct (off + n <=? Z.of_nat (length dst)) eqn:E3; [|apply Z.leb_gt in E3; lia].
    reflexivity.
Qed.

Lemma memcpy_front (dst : list Z) (src : cptr) (n : Z) :
  0 <= n → readable src n → n <= Z.of_nat (length dst) →
  memcpy dst 0 src n = Ok (ptr_bytes src n ++ drop (Z.to_nat n) dst).
Proof.
  intros Hn Hr Hlen. rewrite memcpy_ok; [reflexivity|lia|exact Hr|lia|lia].
Qed.

Lemma ptr_bytes_length (p : cptr) (n : Z) :
  0 <= n → readable p n → Z.of_nat (length (ptr_bytes p n)) = n.
Proof.
  intros Hn Hr. destruct p as [m|]; cbn in *.
  - rewrite length_take. lia.
  - lia.
Qed.

(** [strlen] finds the first zero byte, and only reads up to it. *)
Lemma strlen_spec (m : list Z) (n : Z) :
  strlen m = Ok n →
  0 <= n < Z.of_nat (length m) ∧ m !! Z.to_nat n = Some 0 ∧
  ∀ j, (j < Z.to_nat n)%nat → m !! j ≠ Some 0.
Proof.
  revert n. induction m as [|b m IH]; intros n H; cbn in H; [discriminate|].
  destruct (b =? 0) eqn:E.
  - apply Z.eqb_eq in E. injection H as <-. subst b. cbn.
    repeat split; lia.
  - apply Z.eqb_neq in E.
    destruct (strlen m) as [k| |] eqn:Hk; cbn in H; try discriminate.
    injection H as <-.
    destruct (IH k eq_refl) as (Hr & Hz & Hf).
    replace (Z.to_nat (k + 1)) with (S (Z.to_nat k)) by lia.
    cbn [length]. repeat split; try lia.
    + exact Hz.
    + intros [|j] Hj; cbn; [congruence|]. apply Hf. lia.
Qed.

Lemma strlen_first_zero (m : list Z) (k : nat) :
  m !! k = Some 0 → (∀ j, (j < k)%nat → m !! j ≠ Some 0) →
  strlen m = Ok (Z.of_nat k).
Proof.
  revert k. induction m as [|b m IH]; intros k Hk Hf; [discriminate|].
  cbn [strlen]. destruct k as [|k].
  - cbn in Hk. injection Hk as ->. reflexivity.
  - destruct (b =? 0) eqn:E.
    + apply Z.eqb_eq in E. subst b. exfalso. apply (Hf 0%nat); [lia|reflexivity].
    + rewrite (IH k); [cbn; f_equal; lia|exact Hk|].
      intros j Hj. apply (Hf (S j)). lia.
Qed.

(** ** Loops *)

Lemma iter_up_inv {S} (P : S → Prop) (body : Z → S → res S) (n : nat) :
  ∀ i st,
    P st →
    (∀ j st, i <= j < i + Z.of_nat n → P st → ∃ st', body j st = Ok st' ∧ P st') →
    ∃ st', iter_up n i body st = Ok st' ∧ P st'.
Proof.
  induction n as [|n IH]; intros i st HP Hbody; cbn [iter_up].
  - eauto.
  - destruct (Hbody i st) as (st1 & -> & HP1); [lia|exact HP|]. cbn.
    apply IH; [exact HP1|]. intros j st2 Hj. apply Hbody. lia.
Qed.

Lemma iter_down_inv {S} (P : S → Prop) (body : Z → S → res S) (n : nat) :
  ∀ i st,
    P st →
    (∀ j st, i - Z.of_nat n < j <= i → P st → ∃ st', body j st = Ok st' ∧ P st') →
    ∃ st', iter_down n i body st = Ok st' ∧ P st'.
Proof.
  induction n as [|n IH]; intros i st HP Hbody; cbn [iter_down].
  - eauto.
  - destruct (Hbody i st) as (st1 & -> & HP1); [lia|exact HP|]. cbn.
    apply IH; [exact HP1|]. intros j st2 Hj. apply Hbody. lia.
Qed.

(** ** Growth of the buffer *)

Section GrowthFacts.

Import CrString.

(** The growth loop ends within its fuel, at a capacity that covers the
    target and is below twice the target unless it started above it. *)
Lemma grow_loop_ok (n : nat) :
  ∀ target capacity,
    2 <= capacity → target < 2 ^ 62 → target - capacity <= Z.of_nat n →
    ∃ c, grow_loop n target capacity = Ok c ∧
         capacity <= c ∧ target <= c ∧ c <= Z.max capacity (2 * target).
Proof.
  induction n as [|n IH]; intros target capacity Hc Ht Hn.
  - cbn [grow_loop]. destruct (target >? capacity) eqn:E.
    + lia.
    + exists capacity. split; [reflexivity|lia].
  - cbn [grow_loop]. destruct (target >? capacity) eqn:E.
    + assert (capacity < target) by lia.
      rewrite (wrap_small (capacity * 2)) by (rewrite size_mod_eq; lia).
      assert (1 <= capacity * 2 / 3 <= capacity).
      { split; [apply Z.div_le_lower_bound; lia|apply Z.div_le_upper_bound; lia]. }
      rewrite wrap_small by (rewrite size_mod_eq; lia).
      destruct (IH target (capacity + capacity * 2 / 3)) as (c & Hc1 & Hc2 & Hc3 & Hc4);
        [lia|lia|lia|].
      exists c. split; [exact Hc1|]. lia.
    + exists capacity. split; [reflexivity|lia].
Qed.

End GrowthFacts.

Section StringFacts.

Import CrString.

Variable junk : Z → nat → Z.

Lemma makeUnique_length (n : Z) : length (makeUnique junk n) = Z.to_nat n.
Proof. unfold makeUnique. rewrite length_map, length_seq. reflexivity. Qed.

Lemma Valid_empty : Valid empty_string.
Proof. unfold Valid. cbn. lia. Qed.

(** A string whose array is as large as its capacity says. *)
Lemma Valid_owned (b : list Z) (n : Z) :
  0 <= n < Z.of_nat (length b) → 2 <= Z.of_nat (length b) →
  Valid (mk (Some b) n (Z.of_nat (length b))).
Proof. intros H1 H2. unfold Valid. cbn. lia. Qed.

Lemma content_length (s : t) : Valid s → Z.of_nat (length (content s)) = length_ s.
Proof.
  unfold Valid, content. intros [H0 H]. destruct (chars_ s) as [b|].
  - rewrite length_take. lia.
  - cbn. lia.
Qed.

Lemma getGrowFactor_ok (s : t) (amount : Z) :
  Valid s → 0 <= amount → length_ s + amount < 2 ^ 62 →
  capacity_ s <= length_ s + amount →
  ∃ g, getGrowFactor s amount = Ok g ∧
       capacity_ s + 4 <= g ∧ length_ s + amount + 4 <= g ∧
       g + length_ s < size_mod.
Proof.
  intros [H0 HV] Ha Hb Hc. unfold getGrowFactor.
  rewrite (wrap_small (length_ s + amount)) by (rewrite size_mod_eq; lia).
  rewrite (wrap_small (amount + 1)) by (rewrite size_mod_eq; lia).
  set (cap0 := if capacity_ s =? 0 then Z.max 12 (amount + 1) else capacity_ s).
  assert (Hcap0 : 2 <= cap0 ∧ capacity_ s <= cap0 ∧
                  cap0 <= Z.max 12 (length_ s + amount + 1)).
  { subst cap0. destruct (capacity_ s =? 0) eqn:E; [lia|].
    destruct (chars_ s); lia. }
  destruct (grow_loop_ok (Z.to_nat (length_ s + amount)) (length_ s + amount) cap0)
    as (c & -> & Hc1 & Hc2 & Hc3); [lia|lia|lia|].
  cbn. eexists. split; [reflexivity|].
  rewrite wrap_small by (rewrite size_mod_eq; destruct (amount <? 4); lia).
  rewrite size_mod_eq. destruct (amount <? 4) eqn:E; lia.
Qed.

(** [resize] returns, and leaves an array that is as large as the new
    capacity, has room for [amount] more bytes and the terminator, and
    still holds the content. *)
Lemma resize_ok (s : t) (amount : Z) :
  Valid s → 0 <= amount → length_ s + amount < 2 ^ 62 →
  ∃ b, resize junk s amount = Ok (mk (Some b) (length_ s) (Z.of_nat (length b))) ∧
       length_ s + amount < Z.of_nat (length b) ∧
       capacity_ s <= Z.of_nat (length b) ∧
       2 <= Z.of_nat (length b) ∧
       take (Z.to_nat (length_ s)) b = content s.
Proof.
  intros HV Ha Hb. unfold resize.
  rewrite (wrap_small (length_ s + amount))
    by (rewrite size_mod_eq; destruct HV; lia).
  destruct (length_ s + amount <? capacity_ s) eqn:E.
  - destruct HV as [H0 HV]. destruct s as [[b|] L C]; cbn in *; [|lia].
    exists b. assert (C = Z.of_nat (length b)) as -> by lia.
    split; [reflexivity|]. repeat split; first [lia|reflexivity].
  - destruct (getGrowFactor_ok s amount) as (g & -> & Hg1 & Hg2 & Hg3);
      [exact HV|lia|lia|lia|].
    cbn. destruct HV as [H0 HV].
    rewrite (wrap_small (g + length_ s)) by lia.
    set (factor := g + length_ s).
    destruct s as [[old|] L C]; cbn in *.
    + rewrite memcpy_front; cbn [readable];
        [|lia|lia|rewrite makeUnique_length; lia].
      cbn. eexists. split; [f_equal; f_equal|].
      * rewrite !length_app, length_take, length_drop, makeUnique_length. lia.
      * rewrite !length_app, length_take, length_drop, makeUnique_length.
        repeat split; try lia.
        rewrite take_app_le by (rewrite length_take; lia).
        rewrite take_take. f_equal. lia.
    + rewrite wr_ok by (rewrite makeUnique_length; lia).
      cbn. eexists. split; [f_equal; f_equal|].
      * rewrite length_insert, makeUnique_length. lia.
      * rewrite length_insert, makeUnique_length.
        destruct HV as [-> ->]. repeat split; try lia.
Qed.

(** [assign] returns a terminated string that holds the [n] bytes it was
    given, where [n] is what [calcLength] made of the arguments. *)
Lemma assign_ok (s : t) (str : cptr) (len n : Z) :
  Valid s → calcLength str len = Ok n → 0 <= n → readable str n →
  length_ s + n < 2 ^ 62 →
  ∃ b, assign junk s str len = Ok (mk (Some b) n (Z.of_nat (length b))) ∧
       n < Z.of_nat (length b) ∧ capacity_ s <= Z.of_nat (length b) ∧
       2 <= Z.of_nat (length b) ∧
       take (Z.to_nat n) b = ptr_bytes str n ∧ b !! Z.to_nat n = Some 0.
Proof.
  intros HV Hcalc Hn Hr Hb. unfold assign. rewrite Hcalc. cbn.
  destruct (resize_ok s n HV Hn Hb) as (b1 & -> & Hb1 & Hb2 & Hb3 & Hb4). cbn.
  assert (HL : 0 <= length_ s) by (destruct HV; lia).
  destruct str as [m|].
  - rewrite memcpy_front; [|lia|exact Hr|lia]. cbn.
    unfold buf_put, at_put, set_length. cbn.
    set (b2 := take (Z.to_nat n) m ++ drop (Z.to_nat n) b1).
    pose proof (ptr_bytes_length (Some m) n Hn Hr) as Hpl. cbn in Hpl.
    assert (Hlen2 : length b2 = length b1).
    { subst b2. rewrite length_app, length_drop. lia. }
    rewrite wr_ok by lia. cbn.
    eexists. split; [f_equal; f_equal; rewrite length_insert; lia|].
    rewrite length_insert, Hlen2. repeat split; try lia.
    + rewrite take_insert_ge by lia. subst b2.
      rewrite take_app_length'; [reflexivity|lia].
    + apply list_lookup_insert_eq. lia.
  - cbn in Hr. subst n.
    unfold buf_put, at_put, set_length. cbn.
    rewrite wr_ok by lia. cbn.
    rewrite wr_ok by (rewrite length_insert; lia). cbn.
    eexists. split; [f_equal; f_equal; rewrite !length_insert; lia|].
    rewrite !length_insert. repeat split; try lia.
    apply list_lookup_insert_eq. rewrite length_insert. lia.
Qed.

(** [append] returns a terminated string: the old content followed by the
    [n] bytes it was given; the capacity has not shrunk and exceeds the
    length. *)
Lemma append_ok (s : t) (str : cptr) (len n : Z) :
  Valid s → calcLength str len = Ok n → 0 <= n → readable str n →
  length_ s + n < 2 ^ 62 →
  ∃ b, append junk s str len
       = Ok (mk (Some b) (length_ s + n) (Z.of_nat (length b))) ∧
       length_ s + n < Z.of_nat (length b) ∧ capacity_ s <= Z.of_nat (length b) ∧
       2 <= Z.of_nat (length b) ∧
       take (Z.to_nat (length_ s + n)) b = content s ++ ptr_bytes str n ∧
       b !! Z.to_nat (length_ s + n) = Some 0.
Proof.
  intros HV Hcalc Hn Hr Hb. unfold append. rewrite Hcalc. cbn.
  destruct (resize_ok s n HV Hn Hb) as (b1 & -> & Hb1 & Hb2 & Hb3 & Hb4). cbn.
  assert (HL : 0 <= length_ s) by (destruct HV; lia).
  rewrite memcpy_ok; [|lia|exact Hr|lia|lia]. cbn.
  rewrite (wrap_small (length_ s + n)) by (rewrite size_mod_eq; lia).
  unfold buf_put, at_put. cbn.
  pose proof (ptr_bytes_length str n Hn Hr) as Hpl.
  set (b2 := take (Z.to_nat (length_ s)) b1 ++ ptr_bytes str n
               ++ drop (Z.to_nat (length_ s + n)) b1).
  assert (Hlen2 : length b2 = length b1).
  { subst b2. rewrite !length_app, length_take, length_drop. lia. }
  rewrite wr_ok by lia. cbn.
  eexists. split; [f_equal; f_equal; rewrite length_insert; lia|].
  rewrite length_insert, Hlen2. repeat split; try lia.
  - rewrite take_insert_ge by lia. subst b2.
    rewrite app_assoc, take_app_length'; [rewrite Hb4; reflexivity|].
    rewrite length_app, length_take. lia.
  - apply list_lookup_insert_eq. lia.
Qed.

End StringFacts.

(** ** Searching a view *)

Lemma for_up_total {A} (body : Z → res (option A)) (n : nat) :
  ∀ i,
    (∀ j, i <= j < i + Z.of_nat n → ∃ r, body j = Ok r) →
    ∃ r, for_up n i body = Ok r ∧
         ∀ a, r = Some a → ∃ j, i <= j < i + Z.of_nat n ∧ body j = Ok (Some a).
Proof.
  induction n as [|n IH]; intros i Hbody; cbn [for_up].
  - exists None. split; [reflexivity|]. discriminate.
  - destruct (Hbody i) as ([a|] & Hr); [lia| |]; rewrite Hr; cbn.
    + exists (Some a). split; [reflexivity|]. intros a' [= <-]. exists i. split; [lia|exact Hr].
    + destruct (IH (i + 1)) as (r & Hfor & Hfound).
      { intros j Hj. apply Hbody. lia. }
      exists r. split; [exact Hfor|]. intros a Ha.
      destruct (Hfound a Ha) as (j & Hj & Hbj). exists j. split; [lia|exact Hbj].
Qed.

Section FindFacts.

Import StringRef.

Variables v pattern : t.
Variables m pm : list Z.
Hypothesis Hv : chars_ v = Some m.
Hypothesis Hvlen : 0 <= length_ v <= Z.of_nat (length m).
Hypothesis Hvmax : length_ v < 2 ^ 62.
Hypothesis Hp : chars_ pattern = Some pm.
Hypothesis Hplen : 0 <= length_ pattern < Z.of_nat (length pm).

Lemma at_ok (i : Z) : 0 <= i < length_ v → ∃ c, at_ v i = Ok c.
Proof.
  intros Hi. unfold at_. rewrite Hv. cbn.
  destruct (rd_ok m i) as (c & Hc & _); [lia|]. eauto.
Qed.

Lemma at_pattern_ok (i : Z) : 0 <= i <= length_ pattern → ∃ c, at_ pattern i = Ok c.
Proof.
  intros Hi. unfold at_. rewrite Hp. cbn.
  destruct (rd_ok pm i) as (c & Hc & _); [lia|]. eauto.
Qed.

(** The comparison loop reads inside both views and stops at or before
    the end of the pattern. *)
Lemma find_inner_ok (n : nat) :
  ∀ i index,
    0 <= i → 0 <= index → index + Z.of_nat n <= length_ pattern →
    i + length_ pattern <= length_ v →
    ∃ k, find_inner n v pattern i index = Ok k ∧ index <= k <= length_ pattern.
Proof.
  induction n as [|n IH]; intros i index Hi Hidx Hn Hfit; cbn [find_inner].
  - exists index. split; [reflexivity|lia].
  - destruct (at_ok index) as (c0 & ->); [lia|]. cbn.
    destruct (c0 =? 0); [exists index; split; [reflexivity|lia]|].
    rewrite (wrap_small (i + index)) by (rewrite size_mod_eq; lia).
    destruct (at_ok (i + index)) as (a & ->); [lia|]. cbn.
    destruct (at_pattern_ok index) as (b & ->); [lia|]. cbn.
    destruct (a =? b); [|exists index; split; [reflexivity|lia]].
    destruct (IH i (index + 1)) as (k & Hk & Hrange); [lia|lia|lia|lia|].
    exists k. split; [exact Hk|lia].
Qed.

(** [find] returns, and what it returns is the sentinel or the start of a
    span of the view that lies at or after [start]. *)
Lemma find_ok (start : Z) :
  0 <= start →
  ∃ q, find v pattern start = Ok q ∧
       (q = InvalidIndex ∨ (start <= q ∧ q + length_ pattern <= length_ v)).
Proof.
  intros Hs. unfold find.
  destruct ((length_ pattern >? length_ v) || (start >? length_ v)) eqn:E.
  - exists InvalidIndex. auto.
  - apply orb_false_iff in E. destruct E as [E1 E2].
    edestruct (for_up_total (A := Z)) as (r & -> & Hfound).
    2:{ cbn. destruct r as [q|]; cbn.
        - exists q. split; [reflexivity|]. right.
          destruct (Hfound q eq_refl) as (j & Hj & Hbody).
          destruct (find_inner _ _ _ _ _) as [k| |] in Hbody; cbn in Hbody; try discriminate.
          destruct (at_ pattern k) as [c| |] in Hbody; cbn in Hbody; try discriminate.
          destruct (c =? 0) in Hbody; [|discriminate].
          injection Hbody as <-. lia.
        - exists InvalidIndex. auto. }
    intros j Hj. cbn beta.
    destruct (find_inner_ok (Z.to_nat (length_ pattern)) j 0) as (k & -> & Hk);
      [lia|lia|lia|lia|].
    cbn. destruct (at_pattern_ok k) as (c & ->); [lia|]. cbn. eauto.
Qed.

End FindFacts.

(** ** Shifting bytes: erase, insert, replace *)

Section EditFacts.

Import CrString.

Variable junk : Z → nat → Z.

Lemma at_in_shape (b : list Z) (L C : Z) (st : t) (i : Z) :
  same_shape b L C st → 0 <= i < Z.of_nat (length b) → ∃ c, at_ st i = Ok c.
Proof.
  intros (b' & Hb' & Hlen & _) Hi. unfold at_, chars. rewrite Hb'. cbn.
  destruct (rd_ok b' i) as (c & Hc & _); [lia|]. eauto.
Qed.

Lemma at_put_in_shape (b : list Z) (L C : Z) (st : t) (i c : Z) :
  same_shape b L C st → 0 <= i < Z.of_nat (length b) →
  ∃ st', at_put st i c = Ok st' ∧ same_shape b L C st'.
Proof.
  intros (b' & Hb' & Hlen & HL & HC) Hi. unfold at_put. rewrite Hb'.
  rewrite wr_ok by lia. cbn. eexists. split; [reflexivity|].
  exists (<[Z.to_nat i := c]> b'). cbn. rewrite length_insert. auto.
Qed.

(** [erase] accepts a span inside the string, and then shortens the string
    by [count] without touching the capacity. *)
Lemma erase_ok (s : t) (index count : Z) :
  Valid s → length_ s < 2 ^ 62 → 0 <= index → 0 <= count →
  index + count <= length_ s →
  ∃ s', erase s index count = Ok (true, s') ∧ Valid s' ∧
        length_ s' = length_ s - count ∧ capacity_ s' = capacity_ s.
Proof.
  intros HV Hmax Hi Hc Hfit. unfold erase.
  rewrite (wrap_small (index + count)) by (rewrite size_mod_eq; lia).
  destruct (index + count >? length_ s) eqn:E; [lia|].
  rewrite (wrap_small (length_ s - count)) by (rewrite size_mod_eq; lia).
  destruct s as [[b|] L C]; cbn [length_ set_length chars_ capacity_] in *.
  - edestruct (iter_up_inv (same_shape b (L - count) C)) as (s' & -> & Hs').
    3:{ cbn. eexists. split; [reflexivity|].
        destruct Hs' as (b' & Hb' & Hlen & HL & HC).
        destruct HV as [H0 HV]. cbn in HV.
        destruct s' as [cs Ls Cs]. cbn in *. subst.
        unfold Valid. cbn. rewrite Hlen. repeat split; lia. }
    + exists b. cbn. auto.
    + intros j st Hj Hst. cbn beta.
      destruct HV as [H0 HV]. cbn in HV.
      rewrite (wrap_small (j + count)) by (rewrite size_mod_eq; lia).
      destruct (at_in_shape _ _ _ st (j + count) Hst) as (c & ->); [lia|]. cbn.
      apply at_put_in_shape; [exact Hst|lia].
  - destruct HV as [H0 [HL HC]]. cbn in *. subst L C.
    assert (index = 0 ∧ count = 0) as [-> ->] by lia.
    cbn. eexists. split; [reflexivity|]. unfold Valid. cbn. lia.
Qed.

(** [insert] of a non-empty view returns, and lengthens the string by the
    length of the view; the capacity does not shrink. *)
Lemma insert_ok (s : t) (index : Z) (v : StringRef.t) :
  Valid s → 0 <= index → 0 < StringRef.length_ v →
  readable (StringRef.chars_ v) (StringRef.length_ v) →
  2 * length_ s + StringRef.length_ v < 2 ^ 62 →
  ∃ s', insert junk s index v = Ok (true, s') ∧ Valid s' ∧
        length_ s' = length_ s + StringRef.length_ v ∧
        capacity_ s <= capacity_ s'.
Proof.
  intros HV Hi Hn Hr Hmax. unfold insert.
  assert (H0 : 0 <= length_ s) by (destruct HV; lia).
  set (n := StringRef.length_ v) in *.
  unfold StringRef.empty. fold n.
  destruct (n =? 0) eqn:E0; [lia|].
  destruct (index >=? length_ s) eqn:E.
  - destruct (append_ok junk s (StringRef.chars_ v) n n) as (b & -> & Hb);
      [exact HV| |lia|exact Hr|lia|].
    { unfold calcLength. destruct (n >? 0) eqn:E1; [reflexivity|lia]. }
    cbn. eexists. split; [reflexivity|]. cbn.
    split; [apply Valid_owned; lia|]. lia.
  - rewrite (wrap_small (length_ s + n)) by (rewrite size_mod_eq; lia).
    destruct (resize_ok junk s (length_ s + n)) as (b & -> & Hb1 & Hb2 & Hb3 & Hb4);
      [exact HV|lia|lia|].
    cbn [mbind res_bind length_].
    set (L := length_ s) in *. set (C := Z.of_nat (length b)).
    edestruct (iter_down_inv (same_shape b L C)) as (s1 & -> & Hs1).
    3:{ cbn [mbind res_bind].
        edestruct (iter_up_inv (same_shape b L C)) as (s2 & -> & Hs2).
        3:{ cbn. eexists. split; [reflexivity|].
            destruct Hs2 as (b' & Hb' & Hlen & HL & HC).
            rewrite HL. rewrite (wrap_small (L + n)) by (rewrite size_mod_eq; lia).
            destruct s2 as [cs Ls Cs]. cbn in *. subst cs Ls Cs.
            unfold Valid. cbn. rewrite Hlen. subst C. repeat split; lia. }
        - exact Hs1.
        - intros j st Hj Hst. cbn beta.
          destruct v as [[vm|] vn]; cbn in *; [|lia].
          unfold StringRef.at_. cbn.
          destruct (rd_ok vm j) as (c & -> & _); [subst n; lia|]. cbn.
          rewrite (wrap_small (j + index)) by (rewrite size_mod_eq; lia).
          apply at_put_in_shape; [exact Hst|lia]. }
    + exists b. cbn. auto.
    + intros j st Hj Hst. cbn beta.
      rewrite (wrap_small (j - 1)) by (rewrite size_mod_eq; lia).
      destruct (at_in_shape _ _ _ st (j - 1) Hst) as (c & ->); [lia|]. cbn.
      rewrite (wrap_small (j + n)) by (rewrite size_mod_eq; lia).
      rewrite (wrap_small (j + n - 1)) by (rewrite size_mod_eq; lia).
      apply at_put_in_shape; [exact Hst|lia].
Qed.

(** The loop of [replace] ends within a fuel that bounds the bytes left
    to scan: each round moves the scan position past the inserted text. *)
Lemma replace_loop_ok (needle to : StringRef.t) (pm : list Z) (M : Z) :
  StringRef.chars_ needle = Some pm →
  0 < StringRef.length_ needle < Z.of_nat (length pm) →
  0 < StringRef.length_ to →
  readable (StringRef.chars_ to) (StringRef.length_ to) →
  2 * M + StringRef.length_ to < 2 ^ 62 →
  ∀ (n : nat) (s : t) (pos replaced : Z),
    Valid s → 0 <= pos → length_ s - pos <= Z.of_nat n →
    length_ s + Z.of_nat n * StringRef.length_ to <= M →
    ∃ r s', replace_loop junk n s needle to pos replaced = Ok (r, s') ∧ Valid s'.
Proof.
  intros Hpm Hnl Htl Hto HM.
  induction n as [|n IH]; intros s pos replaced HV Hpos Hfuel Hbound.
  - cbn [replace_loop]. destruct (pos <? length_ s) eqn:E; [lia|]. eauto.
  - cbn [replace_loop]. destruct (pos <? length_ s) eqn:E; [|eauto].
    assert (HL : 0 <= length_ s) by (destruct HV; lia).
    assert (Hchars : ∃ b, chars_ s = Some b ∧ length_ s <= Z.of_nat (length b)).
    { destruct HV as [_ HV]. destruct (chars_ s) as [b|]; [exists b; split; [reflexivity|lia]|lia]. }
    destruct Hchars as (b & Hb & Hlen).
    destruct (find_ok (str s) needle b pm) with (start := pos) as (q & Hq & Hrange);
      [exact Hb|cbn; lia|cbn; nia|exact Hpm|lia|lia|].
    unfold find. rewrite Hq. cbn [mbind res_bind].
    destruct (q =? InvalidIndex) eqn:Einv; [eauto|].
    destruct Hrange as [Hrange|[Hq1 Hq2]]; [lia|]. cbn in Hq2.
    destruct (erase_ok s q (StringRef.length_ needle)) as (s1 & -> & HV1 & HL1 & HC1);
      [exact HV|nia|lia|lia|lia|].
    cbn [mbind res_bind snd].
    destruct (insert_ok s1 q to) as (s2 & -> & HV2 & HL2 & HC2);
      [exact HV1|lia|exact Htl|exact Hto|nia|].
    cbn [mbind res_bind snd].
    rewrite (wrap_small (q + StringRef.length_ to)) by (rewrite size_mod_eq; nia).
    apply IH; [exact HV2|lia|lia|nia].
Qed.

End EditFacts.

(** ** What [erase] does to the content *)

(** One round of the shifting loop of [erase], on the array. *)
Lemma shift_left_step (b : list Z) (J K n : nat) (c : Z) :
  b !! (J + K)%nat = Some c → (J < length b)%nat →
  take (S J) (<[J := c]> b) ++ take n (drop (S J + K) (<[J := c]> b))
    ++ drop (S J + n) (<[J := c]> b)
  = take J b ++ take (S n) (drop (J + K) b) ++ drop (J + S n) b.
Proof.
  intros Hc HJ.
  rewrite (take_S_r _ J c) by (apply list_lookup_insert_eq; exact HJ).
  rewrite take_insert_ge by lia.
  rewrite !drop_insert_lt by lia.
  rewrite (drop_S b c (J + K)) by exact Hc.
  rewrite firstn_cons, <- app_assoc. cbn [app].
  replace (J + S n)%nat with (S J + n)%nat by lia.
  reflexivity.
Qed.

Section EraseContent.

Import CrString.

Lemma at_mk (b : list Z) (L C i : Z) : at_ (mk (Some b) L C) i = rd b i.
Proof. reflexivity. Qed.

Lemma at_put_mk (b : list Z) (L C i c : Z) :
  at_put (mk (Some b) L C) i c = (b' ← wr b i c; Ok (mk (Some b') L C)).
Proof. reflexivity. Qed.

(** The shifting loop of [erase] moves [n] bytes down by [count]. *)
Lemma erase_loop_buf (count : Z) (n : nat) :
  ∀ (j : Z) (b : list Z) (L C : Z),
    0 <= j → 0 <= count →
    j + count + Z.of_nat n <= Z.of_nat (length b) →
    j + count + Z.of_nat n < 2 ^ 62 →
    iter_up n j (fun i s => c ← at_ s (wrap (i + count)); at_put s i c)
      (mk (Some b) L C)
    = Ok (mk (Some (take (Z.to_nat j) b
                      ++ take n (drop (Z.to_nat (j + count)) b)
                      ++ drop (Z.to_nat j + n) b)) L C).
Proof.
  induction n as [|n IH]; intros j b L C Hj Hc Hfit Hmax; cbn [iter_up].
  - rewrite take_0, Nat.add_0_r. cbn [app]. rewrite take_drop. reflexivity.
  - rewrite (wrap_small (j + count)) by (rewrite size_mod_eq; lia).
    rewrite at_mk.
    destruct (rd_ok b (j + count)) as (c & -> & Hlook); [lia|].
    cbn [mbind res_bind]. rewrite at_put_mk, wr_ok by lia. cbn [mbind res_bind].
    rewrite IH by (rewrite ?length_insert; lia).
    do 3 f_equal.
    replace (Z.to_nat (j + 1)) with (S (Z.to_nat j)) by lia.
    replace (Z.to_nat (j + 1 + count)) with (S (Z.to_nat j) + Z.to_nat count)%nat by lia.
    replace (Z.to_nat (j + count)) with (Z.to_nat j + Z.to_nat count)%nat in * by lia.
    apply shift_left_step; [exact Hlook|lia].
Qed.

(** Inside the string, and when [index + count] does not wrap, [erase]
    returns true and removes exactly the [count] bytes at [index]; the
    capacity stays as it is. *)
Lemma erase_content (s : t) (index count : Z) :
  Valid s → length_ s < 2 ^ 62 → 0 <= index → 0 <= count →
  index + count <= length_ s →
  ∃ s', erase s index count = Ok (true, s') ∧
        content s' = take (Z.to_nat index) (content s)
                       ++ drop (Z.to_nat (index + count)) (content s) ∧
        length_ s' = length_ s - count ∧ capacity_ s' = capacity_ s.
Proof.
  intros HV Hmax Hi Hc Hfit. unfold erase.
  rewrite (wrap_small (index + count)) by (rewrite size_mod_eq; lia).
  destruct (index + count >? length_ s) eqn:E; [lia|].
  rewrite (wrap_small (length_ s - count)) by (rewrite size_mod_eq; lia).
  destruct s as [[b|] L C]; destruct HV as [H0 HV];
    cbn [length_ set_length chars_ capacity_] in *.
  - destruct HV as [Hlen _].
    change (set_length (mk (Some b) L C) (L - count)) with (mk (Some b) (L - count) C).
    rewrite erase_loop_buf by lia. cbn [mbind res_bind].
    eexists. split; [reflexivity|]. unfold content. cbn [chars_ length_ capacity_].
    split; [|auto].
    replace (Z.to_nat index + Z.to_nat (L - count - index))%nat
      with (Z.to_nat (L - count)) by lia.
    rewrite app_assoc, take_app_length'
      by (rewrite length_app, !length_take, length_drop; lia).
    rewrite take_take, skipn_firstn_comm.
    f_equal; f_equal; lia.
  - destruct HV as [-> ->].
    assert (index = 0 ∧ count = 0) as [-> ->] by lia.
    cbn. eexists. split; [reflexivity|]. auto.
Qed.

(** A span that ends beyond the string, without wrapping, is rejected and
    the string is returned as it was. *)
Lemma erase_rejects (s : t) (index count : Z) :
  0 <= index + count < size_mod → length_ s < index + count →
  erase s index count = Ok (false, s).
Proof.
  intros Hsum Hout. unfold erase. rewrite wrap_small by exact Hsum.
  destruct (index + count >? length_ s) eqn:E; [reflexivity|lia].
Qed.

End EraseContent.

(** ** Terminator, growth, replacement and copies of the owned string *)

Section StringClaims.

Import CrString.

Variable junk : Z → nat → Z.

Lemma assign_terminated (s : t) (str : cptr) (len n : Z) :
  Valid s → calcLength str len = Ok n → 0 <= n → readable str n →
  length_ s + n < 2 ^ 62 →
  ∃ s', assign junk s str len = Ok s' ∧ Valid s' ∧ terminated s' ∧
        content s' = ptr_bytes str n.
Proof.
  intros HV Hc Hn Hr Hb.
  destruct (assign_ok junk s str len n HV Hc Hn Hr Hb) as (b & -> & H1 & H2 & H3 & H4 & H5).
  eexists. split; [reflexivity|]. split; [apply Valid_owned; lia|].
  split; [|exact H4].
  unfold terminated, at_, chars, rdp, rd. cbn.
  destruct (n <? 0) eqn:E; [lia|]. rewrite H5. reflexivity.
Qed.

Lemma append_terminated (s : t) (str : cptr) (len n : Z) :
  Valid s → calcLength str len = Ok n → 0 <= n → readable str n →
  length_ s + n < 2 ^ 62 →
  ∃ s', append junk s str len = Ok s' ∧ Valid s' ∧ terminated s' ∧
        length_ s' = length_ s + n ∧ content s' = content s ++ ptr_bytes str n.
Proof.
  intros HV Hc Hn Hr Hb.
  assert (H0 : 0 <= length_ s) by (destruct HV; lia).
  destruct (append_ok junk s str len n HV Hc Hn Hr Hb) as (b & -> & H1 & H2 & H3 & H4 & H5).
  eexists. split; [reflexivity|]. split; [apply Valid_owned; lia|].
  split; [|split; [reflexivity|exact H4]].
  unfold terminated, at_, chars, rdp, rd. cbn.
  destruct (length_ s + n <? 0) eqn:E; [lia|]. rewrite H5. reflexivity.
Qed.

End StringClaims.

(** C2. Along any sequence of [append] calls whose arguments can be read and
    whose bytes total less than [2^62] with the initial length, every call
    returns, the capacity never decreases from one string to the next, and
    after each call it is strictly greater than the length. *)
Theorem appends_capacity (junk : Z → nat → Z) (ops : list (cptr * Z)) (ns : list Z) :
  Forall2 CrString.append_arg ops ns →
  ∀ s : CrString.t,
    CrString.Valid s →
    CrString.length_ s + foldr Z.add 0 ns < 2 ^ 62 →
    ∃ states,
      CrString.appends junk s ops = Ok states ∧
      length states = length ops ∧
      CrString.capacity_chain (CrString.capacity_ s) states.
Proof.
  induction 1 as [|op n ops ns (Hcalc & Hn & Hr) Hrest IH]; intros s HV Hsum.
  - exists []. cbn. auto.
  - cbn [foldr] in Hsum. cbn [CrString.appends].
    assert (Hpos : 0 <= foldr Z.add 0 ns).
    { clear -Hrest. induction Hrest as [|? ? ? ? (_ & ? & _) _ IH']; cbn; lia. }
    destruct (append_ok junk s op.1 op.2 n HV Hcalc Hn Hr) as (b & -> & H1 & H2 & H3 & _);
      [lia|].
    cbn [mbind res_bind].
    destruct (IH (CrString.mk (Some b) (CrString.length_ s + n) (Z.of_nat (length b))))
      as (states & -> & Hlen & Hchain).
    { apply Valid_owned; [|lia]. destruct HV. lia. }
    { cbn. lia. }
    cbn. eexists. split; [reflexivity|]. cbn. rewrite Hlen.
    repeat split; try lia. exact Hchain.
Qed.

Lemma appends_capacity_witness :
  ∃ states,
    CrString.appends (fun _ _ => 0) CrString.empty_string
      [(Some (cstr "hello"), 0); (Some (cstr " world, again"), 6); (None, 0)]
    = Ok states ∧
    length states = 3%nat ∧
    CrString.capacity_chain 0 states.
Proof.
  apply (appends_capacity (fun _ _ => 0)
           [(Some (cstr "hello"), 0); (Some (cstr " world, again"), 6); (None, 0)]
           [5; 6; 0]).
  - repeat constructor; cbn; lia.
  - apply Valid_empty.
  - cbn. lia.
Defined.

(** C6. [replace] with a non-empty needle and a non-empty replacement
    returns, and leaves a valid string, whatever the replacement contains:
    the needle must be readable up to the byte after its end, the
    replacement up to its end, and the sizes must stay below [2^60]. *)
Theorem replace_terminates (junk : Z → nat → Z) (s : CrString.t)
    (needle to : StringRef.t) :
  CrString.Valid s →
  0 < StringRef.length_ needle →
  readable (StringRef.chars_ needle) (StringRef.length_ needle + 1) →
  0 < StringRef.length_ to →
  readable (StringRef.chars_ to) (StringRef.length_ to) →
  (CrString.length_ s + 1) * (StringRef.length_ to + 1) < 2 ^ 60 →
  ∃ replaced s', CrString.replace junk s needle to = Ok (replaced, s') ∧
                 CrString.Valid s'.
Proof.
  intros HV Hnl Hnr Htl Htr Hsize. unfold CrString.replace, StringRef.empty.
  destruct (StringRef.length_ needle =? 0) eqn:E1; [lia|].
  destruct (StringRef.length_ to =? 0) eqn:E2; [lia|]. cbn [orb].
  assert (H0 : 0 <= CrString.length_ s) by (destruct HV; lia).
  destruct (StringRef.chars_ needle) as [pm|] eqn:Hpm; cbn in Hnr; [|lia].
  eapply (replace_loop_ok junk needle to pm
            (CrString.length_ s * (StringRef.length_ to + 1)));
    [exact Hpm|lia|exact Htl|exact Htr|nia|exact HV|lia|lia|nia].
Qed.

Lemma replace_terminates_witness :
  ∃ replaced s',
    CrString.replace (fun _ _ => 0)
      (CrString.mk (Some (cstr "banana")) 6 7) (StringRef.lit "a") (StringRef.lit "aa")
    = Ok (replaced, s') ∧ CrString.Valid s'.
Proof.
  apply replace_terminates.
  - unfold CrString.Valid. cbn. lia.
  - cbn. lia.
  - cbn. lia.
  - cbn. lia.
  - cbn. lia.
  - cbn. lia.
Defined.

(** C10. The copy constructor and copy assignment measure their source with
    [strlen]: when the first zero byte of a valid string [s] is at position
    [k] before [length_], the copy holds exactly the [k] bytes before it. *)
Theorem copy_stops_at_zero (junk : Z → nat → Z) (s d : CrString.t) (k : nat) :
  CrString.Valid s → CrString.Valid d →
  CrString.length_ d + CrString.length_ s < 2 ^ 62 →
  Z.of_nat k < CrString.length_ s →
  CrString.content s !! k = Some 0 →
  (∀ j, (j < k)%nat → CrString.content s !! j ≠ Some 0) →
  (∃ c, CrString.copy junk s = Ok c ∧
        CrString.content c = take k (CrString.content s) ∧
        CrString.length_ c = Z.of_nat k) ∧
  (∃ c, CrString.copy_assign junk d s = Ok c ∧
        CrString.content c = take k (CrString.content s) ∧
        CrString.length_ c = Z.of_nat k).
Proof.
  intros HVs HVd Hsize Hk Hzero Hfirst.
  assert (H0d : 0 <= CrString.length_ d) by (destruct HVd; lia).
  destruct s as [[b|] L C]; unfold CrString.content in *;
    cbn [CrString.chars_ CrString.length_] in *; [|discriminate].
  assert (Hlen : L <= Z.of_nat (length b)) by (destruct HVs as [_ [? _]]; cbn in *; lia).
  assert (Hstr : strlen b = Ok (Z.of_nat k)).
  { apply strlen_first_zero.
    - rewrite lookup_take in Hzero. destruct (decide (k < Z.to_nat L)%nat); [exact Hzero|discriminate].
    - intros j Hj Hbj. apply (Hfirst j Hj). rewrite lookup_take.
      destruct (decide (j < Z.to_nat L)%nat); [exact Hbj|lia]. }
  assert (Hpre : take k (take (Z.to_nat L) b) = take k b).
  { rewrite take_take. f_equal. lia. }
  rewrite Hpre.
  split.
  - destruct (assign_ok junk CrString.empty_string (Some b) 0 (Z.of_nat k))
      as (b' & Hc & H1 & H2 & H3 & H4 & H5);
      [apply Valid_empty|exact Hstr|lia|cbn; lia|cbn; lia|].
    change (CrString.copy junk (CrString.mk (Some b) L C))
      with (CrString.assign junk CrString.empty_string (Some b) 0).
    rewrite Hc.
    eexists. split; [reflexivity|]. cbn. split; [|reflexivity].
    rewrite H4. cbn. rewrite Nat2Z.id. reflexivity.
  - destruct (assign_ok junk d (Some b) 0 (Z.of_nat k))
      as (b' & Hc & H1 & H2 & H3 & H4 & H5);
      [exact HVd|exact Hstr|lia|cbn; lia|lia|].
    change (CrString.copy_assign junk d (CrString.mk (Some b) L C))
      with (CrString.assign junk d (Some b) 0).
    rewrite Hc.
    eexists. split; [reflexivity|]. cbn. split; [|reflexivity].
    rewrite H4. cbn. rewrite Nat2Z.id. reflexivity.
Qed.

Lemma copy_stops_at_zero_witness :
  (∃ c, CrString.copy (fun _ _ => 0) (CrString.mk (Some [97; 0; 98; 0]) 3 4) = Ok c ∧
        CrString.content c = [97] ∧ CrString.length_ c = 1) ∧
  (∃ c, CrString.copy_assign (fun _ _ => 0) CrString.empty_string
          (CrString.mk (Some [97; 0; 98; 0]) 3 4) = Ok c ∧
        CrString.content c = [97] ∧ CrString.length_ c = 1).
Proof.
  apply (copy_stops_at_zero (fun _ _ => 0)
           (CrString.mk (Some [97; 0; 98; 0]) 3 4) CrString.empty_string 1).
  - unfold CrString.Valid. cbn. lia.
  - apply Valid_empty.
  - cbn. lia.
  - cbn. lia.
  - reflexivity.
  - intros j Hj. assert (j = 0%nat) as -> by lia. cbn. discriminate.
Defined.

(** C1. [erase] does not restore the terminator: after
    [String ("hello").erase (0, 2)] the string holds ["llo"], and the byte
    at position [length] is the ['l'] of the old content, not zero. *)
Theorem erase_leaves_no_terminator (junk : Z → nat → Z) :
  ∃ s s',
    CrString.lit junk "hello" = Ok s ∧ CrString.terminated s ∧
    CrString.erase s 0 2 = Ok (true, s') ∧
    CrString.content s' = bytes "llo" ∧
    CrString.at_ s' (CrString.length_ s') = Ok 108 ∧
    ¬ CrString.terminated s'.
Proof.
  eexists. eexists.
  split; [vm_compute; reflexivity|].
  split; [vm_compute; reflexivity|].
  split; [vm_compute; reflexivity|].
  split; [vm_compute; reflexivity|].
  split; [vm_compute; reflexivity|].
  unfold CrString.terminated. vm_compute. discriminate.
Qed.

(** The path of [insert] that shifts in place does not write a terminator
    either: a buffer that held a longer text shows through. *)
Lemma insert_leaves_no_terminator (junk : Z → nat → Z) :
  ∃ s0 s s',
    CrString.lit junk "hello world" = Ok s0 ∧
    CrString.assign junk s0 (Some (cstr "ab")) 0 = Ok s ∧ CrString.terminated s ∧
    CrString.insert junk s 0 (StringRef.lit "X") = Ok (true, s') ∧
    CrString.content s' = bytes "Xab" ∧
    CrString.at_ s' (CrString.length_ s') = Ok 108.
Proof.
  eexists. eexists. eexists.
  split; [vm_compute; reflexivity|].
  split; [vm_compute; reflexivity|].
  split; [vm_compute; reflexivity|].
  split; [vm_compute; reflexivity|].
  split; vm_compute; reflexivity.
Qed.

(** C3. Splitting ["a,,b"] at [","] and joining the tokens with [","] gives
    ["a,,b,b"]: the empty token is built by [String (StringRef)] with length
    zero, which [calcLength] takes as a request to measure the rest of the
    buffer, so the second token is [",b"]. *)
Theorem split_join_differs (junk : Z → nat → Z) :
  (s ← CrString.lit junk "a,,b";
   tokens ← CrString.split junk s (StringRef.lit ",");
   r ← CrString.join junk tokens (StringRef.lit ",") 0;
   Ok (map CrString.content tokens, CrString.content r))
  = Ok ([bytes "a"; bytes ",b"; bytes "b"], bytes "a,,b,b").
Proof. vm_compute. reflexivity. Qed.

(** A delimiter of two bytes is not reconstructed either. *)
Lemma split_join_two_bytes (junk : Z → nat → Z) :
  (s ← CrString.lit junk "a--b";
   tokens ← CrString.split junk s (StringRef.lit "--");
   r ← CrString.join junk tokens (StringRef.lit "--") 0;
   Ok (map CrString.content tokens, CrString.content r))
  = Ok ([bytes "a"; bytes "-b"], bytes "a---b").
Proof. vm_compute. reflexivity. Qed.

(** The scenario on an owned string: the empty segment comes out as the
    rest of the buffer. *)
Lemma split_string_scenario (junk : Z → nat → Z) :
  (s ← CrString.lit junk "a,b,,c";
   tokens ← CrString.split junk s (StringRef.lit ",");
   Ok (map CrString.content tokens))
  = Ok [bytes "a"; bytes "b"; bytes ",c"; bytes "c"].
Proof. vm_compute. reflexivity. Qed.

(** C4. After a match [split] steps over one byte, not over the delimiter:
    ["a--b"] split at ["--"] yields ["a"] and ["-b"], while the scenario with
    the one-byte delimiter yields its four segments. *)
Theorem split_two_byte_delimiter :
  (l ← StringRef.split (StringRef.lit "a--b") (StringRef.lit "--");
   Ok (map StringRef.content l)) = Ok [bytes "a"; bytes "-b"] ∧
  (l ← StringRef.split (StringRef.lit "a,b,,c") (StringRef.lit ",");
   Ok (map StringRef.content l)) = Ok [bytes "a"; bytes "b"; bytes ""; bytes "c"].
Proof. split; vm_compute; reflexivity. Qed.

(** C5. On ["abc"] the pattern ["a"] matches at index 0 only, yet
    [rfind (StringRef)] returns 2 and [rfind (char)] the sentinel; with the
    pattern ["ab"] on ["abab"] the doubled index reads outside the array. *)
Theorem rfind_is_not_rightmost_match :
  StringRef.rfind (StringRef.lit "abc") (StringRef.lit "a") = Ok 2 ∧
  StringRef.rfind_char (StringRef.lit "abc") 97 = Ok InvalidIndex ∧
  StringRef.find (StringRef.lit "abc") (StringRef.lit "a") 0 = Ok 0 ∧
  StringRef.at_ (StringRef.lit "abc") 2 = Ok 99 ∧
  StringRef.rfind (StringRef.lit "abab") (StringRef.lit "ab") = UB.
Proof. repeat split; vm_compute; reflexivity. Qed.

(** C7. The bounds check of [erase] adds in [size_t]:
    [String ("abc").erase (InvalidIndex, 1)] is accepted, because the sum
    wraps to zero, and drops the last byte. *)
Theorem erase_accepts_wrapped_span (junk : Z → nat → Z) :
  (s ← CrString.lit junk "abc";
   r ← CrString.erase s InvalidIndex 1;
   Ok (CrString.length_ s, r.1, CrString.length_ r.2, CrString.content r.2))
  = Ok (3, true, 2, bytes "ab").
Proof. vm_compute. reflexivity. Qed.

(** On the empty string the same call wraps the length as well. *)
Lemma erase_wraps_length_of_empty :
  CrString.erase CrString.empty_string InvalidIndex 1
  = Ok (true, CrString.mk None InvalidIndex 0).
Proof. vm_compute. reflexivity. Qed.


(** ** Searches of a view, against its content *)

(** A counted search returns the first index its test accepts. *)
Lemma for_up_search (body : Z → res (option Z)) (f : Z → bool) (n : nat) :
  ∀ i,
    (∀ j, i <= j < i + Z.of_nat n → body j = Ok (if f j then Some j else None)) →
    ∃ r, for_up n i body = Ok r ∧
         match r with
         | Some q => i <= q < i + Z.of_nat n ∧ f q = true ∧ ∀ j, i <= j < q → f j = false
         | None => ∀ j, i <= j < i + Z.of_nat n → f j = false
         end.
Proof.
  induction n as [|n IH]; intros i Hbody; cbn [for_up].
  - exists None. split; [reflexivity|]. intros j Hj. lia.
  - rewrite (Hbody i) by lia. cbn.
    destruct (f i) eqn:Ei.
    + exists (Some i). split; [reflexivity|]. repeat split; try lia. exact Ei.
    + destruct (IH (i + 1)) as (r & -> & Hr).
      { intros j Hj. apply Hbody. lia. }
      exists r. split; [reflexivity|]. destruct r as [q|].
      * destruct Hr as (Hq & Hfq & Hbefore). repeat split; try lia; [exact Hfq|].
        intros j Hj. destruct (Z.eq_dec j i) as [->|]; [exact Ei|apply Hbefore; lia].
      * intros j Hj. destruct (Z.eq_dec j i) as [->|]; [exact Ei|apply Hr; lia].
Qed.

(** A counted search downwards returns the last index its test accepts. *)
Lemma for_down_search (body : Z → res (option Z)) (f : Z → bool) (n : nat) :
  ∀ i,
    (∀ j, i - Z.of_nat n < j <= i → body j = Ok (if f j then Some j else None)) →
    ∃ r, for_down n i body = Ok r ∧
         match r with
         | Some q => i - Z.of_nat n < q <= i ∧ f q = true ∧ ∀ j, q < j <= i → f j = false
         | None => ∀ j, i - Z.of_nat n < j <= i → f j = false
         end.
Proof.
  induction n as [|n IH]; intros i Hbody; cbn [for_down].
  - exists None. split; [reflexivity|]. intros j Hj. lia.
  - rewrite (Hbody i) by lia. cbn.
    destruct (f i) eqn:Ei.
    + exists (Some i). split; [reflexivity|]. repeat split; try lia. exact Ei.
    + destruct (IH (i - 1)) as (r & -> & Hr).
      { intros j Hj. apply Hbody. lia. }
      exists r. split; [reflexivity|]. destruct r as [q|].
      * destruct Hr as (Hq & Hfq & Hafter). repeat split; try lia; [exact Hfq|].
        intros j Hj. destruct (Z.eq_dec j i) as [->|]; [exact Ei|apply Hafter; lia].
      * intros j Hj. destruct (Z.eq_dec j i) as [->|]; [exact Ei|apply Hr; lia].
Qed.

Lemma InvalidIndex_big : 2 ^ 62 < InvalidIndex.
Proof. reflexivity. Qed.

Section ViewFacts.

Import StringRef.

Lemma view_content_length (v : t) : Valid v → Z.of_nat (length (content v)) = length_ v.
Proof.
  intros [Hl Hr]. unfold content. destruct (chars_ v) as [m|]; cbn in *.
  - rewrite length_take. lia.
  - lia.
Qed.

(** Inside a valid view [operator []] reads the content. *)
Lemma at_content (v : t) (i : Z) :
  Valid v → 0 <= i < length_ v →
  at_ v i = Ok (byte_at v i) ∧ content v !! Z.to_nat i = Some (byte_at v i).
Proof.
  intros [Hl Hr] Hi. unfold at_, byte_at, content, rdp.
  destruct (chars_ v) as [m|]; cbn in Hr; [|lia].
  destruct (rd_ok m i) as (c & -> & Hc); [lia|].
  rewrite lookup_take. destruct (decide (Z.to_nat i < Z.to_nat (length_ v))%nat); [|lia].
  rewrite Hc. cbn. auto.
Qed.

Lemma find_char_search (v : t) (pattern start : Z) :
  Valid v → 0 <= start →
  ∃ q, find_char v pattern start = Ok q ∧
       ((q = InvalidIndex ∧
         ∀ j, start <= j < length_ v → byte_at v j ≠ pattern) ∨
        (start <= q < length_ v ∧ byte_at v q = pattern ∧
         ∀ j, start <= j < q → byte_at v j ≠ pattern)).
Proof.
  intros HV Hs. unfold find_char.
  destruct (for_up_search
              (fun i => c ← at_ v i; Ok (if c =? pattern then Some i else None))
              (fun i => byte_at v i =? pattern)
              (Z.to_nat (length_ v - start)) start) as (r & -> & Hr).
  { intros j Hj. destruct (at_content v j HV) as [-> _]; [lia|]. reflexivity. }
  cbn. destruct r as [q|]; cbn.
  - exists q. split; [reflexivity|]. right. destruct Hr as (Hq & Hfq & Hbefore).
    repeat split; try lia. intros j Hj. specialize (Hbefore j Hj). lia.
  - exists InvalidIndex. split; [reflexivity|]. left. split; [reflexivity|].
    intros j Hj. specialize (Hr j ltac:(lia)). lia.
Qed.

(** Searching a set of characters for one byte decides membership. *)
Lemma find_char_member (cs : t) (c : Z) :
  Valid cs →
  ∃ q, find_char cs c 0 = Ok q ∧ (q = InvalidIndex ↔ c ∉ content cs).
Proof.
  intros HV.
  destruct (find_char_search cs c 0 HV) as (q & Hq & Hcase); [lia|].
  exists q. split; [exact Hq|].
  pose proof InvalidIndex_big as Hbig. pose proof HV as [Hl _].
  destruct Hcase as [[-> Hnone]|(Hrange & Hbyte & _)].
  - split; [|reflexivity]. intros _ Hin.
    apply list_elem_of_lookup in Hin as [k Hk].
    pose proof (lookup_lt_Some _ _ _ Hk) as Hlt.
    pose proof (view_content_length cs HV).
    apply (Hnone (Z.of_nat k)); [lia|].
    unfold byte_at. rewrite Nat2Z.id, Hk. reflexivity.
  - split; [lia|]. intros Hnot. exfalso. apply Hnot.
    destruct (at_content cs q HV Hrange) as [_ Hlook].
    rewrite Hbyte in Hlook. eapply list_elem_of_lookup_2. exact Hlook.
Qed.

End ViewFacts.

(** X1. [find (char, start)] on a readable view returns the first index at
    or after [start] that holds the byte, and the sentinel when no index
    from [start] on holds it. *)
Theorem find_char_first (v : StringRef.t) (pattern start : Z) :
  StringRef.Valid v → 0 <= start →
  ∃ q, StringRef.find_char v pattern start = Ok q ∧
       ((q = InvalidIndex ∧
         ∀ j, start <= j < StringRef.length_ v → StringRef.byte_at v j ≠ pattern) ∨
        (start <= q < StringRef.length_ v ∧ StringRef.byte_at v q = pattern ∧
         ∀ j, start <= j < q → StringRef.byte_at v j ≠ pattern)).
Proof. apply find_char_search. Qed.

Lemma find_char_first_witness :
  ∃ q, StringRef.find_char (StringRef.lit "banana") 110 3 = Ok q ∧
       ((q = InvalidIndex ∧
         ∀ j, 3 <= j < 6 → StringRef.byte_at (StringRef.lit "banana") j ≠ 110) ∨
        (3 <= q < 6 ∧ StringRef.byte_at (StringRef.lit "banana") q = 110 ∧
         ∀ j, 3 <= j < q → StringRef.byte_at (StringRef.lit "banana") j ≠ 110)).
Proof.
  apply (find_char_first (StringRef.lit "banana") 110 3).
  - unfold StringRef.Valid. cbn. lia.
  - lia.
Defined.

Lemma occurs_at_pointwise (l p : list Z) (i : nat) :
  (i + length p <= length l)%nat →
  StringRef.occurs_at l p i ↔ ∀ k, (k < length p)%nat → l !! (i + k)%nat = p !! k.
Proof.
  intros Hfit. unfold StringRef.occurs_at. split.
  - intros H k Hk. pose proof (f_equal (fun x => x !! k) H) as Hk'. cbn beta in Hk'.
    rewrite lookup_take, lookup_drop in Hk'.
    destruct (decide (k < length p)%nat); [exact Hk'|lia].
  - intros H. apply list_eq. intros k.
    rewrite lookup_take, lookup_drop.
    destruct (decide (k < length p)%nat) as [Hk|Hk]; [apply H; exact Hk|].
    symmetry. apply lookup_ge_None. lia.
Qed.

Section FindExact.

Import StringRef.

Variables v pattern : t.
Variable pm : list Z.
Hypothesis HV : Valid v.
Hypothesis Hp : chars_ pattern = Some pm.
Hypothesis Hplen : 0 <= length_ pattern < Z.of_nat (length pm).
Hypothesis Hpmax : length_ pattern < 2 ^ 62.

Lemma at_pattern_byte (k : Z) :
  0 <= k <= length_ pattern →
  ∃ c, at_ pattern k = Ok c ∧ pm !! Z.to_nat k = Some c.
Proof.
  intros Hk. unfold at_. rewrite Hp. cbn. apply rd_ok. lia.
Qed.

Lemma byte_at_pattern (k : Z) :
  0 <= k < length_ pattern → pm !! Z.to_nat k = Some (byte_at pattern k).
Proof.
  intros Hk. unfold byte_at, content. rewrite Hp.
  rewrite lookup_take. destruct (decide (Z.to_nat k < Z.to_nat (length_ pattern))%nat); [|lia].
  destruct (lookup_lt_is_Some_2 pm (Z.to_nat k)) as [c Hc]; [lia|].
  rewrite Hc. reflexivity.
Qed.

(** The comparison loop stops at the first byte that differs, provided the
    first bytes of the view itself are not zero. *)
Lemma find_inner_exact (i : Z) (n : nat) :
  (∀ k, 0 <= k < length_ pattern → byte_at v k ≠ 0) →
  0 <= i → i + length_ pattern <= length_ v →
  ∀ index,
    0 <= index → index + Z.of_nat n = length_ pattern →
    ∃ k, find_inner n v pattern i index = Ok k ∧ index <= k <= length_ pattern ∧
         (∀ j, index <= j < k → byte_at v (i + j) = byte_at pattern j) ∧
         (k < length_ pattern → byte_at v (i + k) ≠ byte_at pattern k).
Proof.
  intros Hnz Hi Hfit. pose proof HV as [Hl _].
  induction n as [|n IH]; intros index Hidx Hn; cbn [find_inner].
  - exists index. split; [reflexivity|]. repeat split; lia.
  - destruct (at_content v index HV) as [-> _]; [lia|]. cbn.
    destruct (byte_at v index =? 0) eqn:E0; [specialize (Hnz index ltac:(lia)); lia|].
    rewrite (wrap_small (i + index)) by (rewrite size_mod_eq; lia).
    destruct (at_content v (i + index) HV) as [-> _]; [lia|]. cbn.
    destruct (at_pattern_byte index) as (b & -> & Hb); [lia|]. cbn.
    rewrite byte_at_pattern in Hb by lia. injection Hb as <-.
    destruct (byte_at v (i + index) =? byte_at pattern index) eqn:E.
    + destruct (IH (index + 1)) as (k & -> & Hk & Hmatch & Hstop); [lia|lia|].
      exists k. split; [reflexivity|]. repeat split; try lia.
      intros j Hj. destruct (Z.eq_dec j index) as [->|]; [lia|apply Hmatch; lia].
    + exists index. split; [reflexivity|]. repeat split; try lia.
  Qed.

Lemma occurs_bytes (i : Z) :
  0 <= i → i + length_ pattern <= length_ v →
  occurs_at (content v) (content pattern) (Z.to_nat i) ↔
  ∀ j, 0 <= j < length_ pattern → byte_at v (i + j) = byte_at pattern j.
Proof.
  intros Hi Hfit. pose proof (view_content_length v HV) as Hlv.
  assert (Hlp : Z.of_nat (length (content pattern)) = length_ pattern).
  { unfold content. rewrite Hp, length_take. lia. }
  rewrite occurs_at_pointwise by lia. split.
  - intros H j Hj. specialize (H (Z.to_nat j) ltac:(lia)).
    unfold byte_at. replace (Z.to_nat (i + j)) with (Z.to_nat i + Z.to_nat j)%nat by lia.
    rewrite H. reflexivity.
  - intros H k Hk. specialize (H (Z.of_nat k) ltac:(lia)).
    unfold byte_at in H.
    replace (Z.to_nat (i + Z.of_nat k)) with (Z.to_nat i + k)%nat in H by lia.
    rewrite Nat2Z.id in H.
    destruct (lookup_lt_is_Some_2 (content v) (Z.to_nat i + k)) as [a Ha]; [lia|].
    destruct (lookup_lt_is_Some_2 (content pattern) k) as [b Hb]; [lia|].
    rewrite Ha, Hb in *. cbn in H. congruence.
Qed.

End FindExact.

(** X2. On a readable view without zero bytes, [find] with a pattern that
    is a C string (its length is its [strlen]) returns the first position at
    or after [start] where the pattern occurs, and the sentinel when it
    occurs nowhere from [start] on. *)
Theorem find_first_occurrence (v pattern : StringRef.t) (start : Z) :
  StringRef.Valid v → 0 ∉ StringRef.content v → StringRef.CString pattern →
  0 <= start →
  ∃ q, StringRef.find v pattern start = Ok q ∧
       ((q = InvalidIndex ∧
         ∀ j, start <= j <= StringRef.length_ v - StringRef.length_ pattern →
              ¬ StringRef.occurs_at (StringRef.content v) (StringRef.content pattern)
                  (Z.to_nat j)) ∨
        (start <= q <= StringRef.length_ v - StringRef.length_ pattern ∧
         StringRef.occurs_at (StringRef.content v) (StringRef.content pattern)
           (Z.to_nat q) ∧
         ∀ j, start <= j < q →
              ¬ StringRef.occurs_at (StringRef.content v) (StringRef.content pattern)
                  (Z.to_nat j))).
Proof.
  intros HV Hnz HC Hs. unfold StringRef.CString in HC.
  destruct (StringRef.chars_ pattern) as [pm|] eqn:Hp; [|contradiction].
  destruct HC as [Hpmax Hstr]. apply strlen_spec in Hstr as (Hplen & Hterm & Hnozero).
  pose proof HV as [Hl _].
  assert (Hvnz : ∀ k, 0 <= k < StringRef.length_ v → StringRef.byte_at v k ≠ 0).
  { intros k Hk Hz. apply Hnz. destruct (at_content v k HV Hk) as [_ Hlook].
    rewrite Hz in Hlook. eapply list_elem_of_lookup_2. exact Hlook. }
  unfold StringRef.find.
  destruct ((StringRef.length_ pattern >? StringRef.length_ v)
            || (start >? StringRef.length_ v)) eqn:E.
  { exists InvalidIndex. split; [reflexivity|]. left. split; [reflexivity|]. intros j Hj. lia. }
  apply orb_false_iff in E as [E1 E2].
  destruct (for_up_search
    (fun i =>
       index ← StringRef.find_inner (Z.to_nat (StringRef.length_ pattern)) v pattern i 0;
       p ← StringRef.at_ pattern index;
       Ok (if p =? 0 then Some i else None))
    (fun i => bool_decide (StringRef.occurs_at (StringRef.content v)
                             (StringRef.content pattern) (Z.to_nat i)))
    (Z.to_nat (StringRef.length_ v - StringRef.length_ pattern - start + 1)) start)
    as (r & -> & Hr).
  { intros j Hj.
    destruct (find_inner_exact v pattern pm HV Hp Hplen j
                (Z.to_nat (StringRef.length_ pattern)))
      with (index := 0) as (k & -> & Hk & Hmatch & Hstop);
      [intros; apply Hvnz; lia|lia|lia|lia|lia|].
    cbn. destruct (at_pattern_byte pattern pm Hp Hplen k) as (c & -> & Hc); [lia|]. cbn.
    pose proof (occurs_bytes v pattern pm HV Hp Hplen j ltac:(lia) ltac:(lia)) as Hocc.
    destruct (Z.eq_dec k (StringRef.length_ pattern)) as [->|Hne].
    - rewrite Hterm in Hc. injection Hc as <-. cbn.
      rewrite bool_decide_eq_true_2; [reflexivity|]. apply Hocc. exact Hmatch.
    - assert (c ≠ 0).
      { intros ->. apply (Hnozero (Z.to_nat k)); [lia|exact Hc]. }
      destruct (c =? 0) eqn:Ec; [lia|].
      rewrite bool_decide_eq_false_2; [reflexivity|].
      intros Hoc. apply Hstop; [lia|]. apply Hocc; [exact Hoc|lia]. }
  cbn. destruct r as [q|]; cbn.
  - exists q. split; [reflexivity|]. right. destruct Hr as (Hq & Hfq & Hbefore).
    apply bool_decide_eq_true in Hfq. repeat split; try lia; [exact Hfq|].
    intros j Hj. specialize (Hbefore j Hj). apply bool_decide_eq_false in Hbefore. exact Hbefore.
  - exists InvalidIndex. split; [reflexivity|]. left. split; [reflexivity|].
    intros j Hj. specialize (Hr j ltac:(lia)). apply bool_decide_eq_false in Hr. exact Hr.
Qed.

Lemma find_first_occurrence_witness :
  ∃ q, StringRef.find (StringRef.lit "banana") (StringRef.lit "ana") 2 = Ok q ∧
       ((q = InvalidIndex ∧
         ∀ j, 2 <= j <= 6 - 3 →
              ¬ StringRef.occurs_at (bytes "banana") (bytes "ana") (Z.to_nat j)) ∨
        (2 <= q <= 6 - 3 ∧
         StringRef.occurs_at (bytes "banana") (bytes "ana") (Z.to_nat q) ∧
         ∀ j, 2 <= j < q →
              ¬ StringRef.occurs_at (bytes "banana") (bytes "ana") (Z.to_nat j))).
Proof.
  apply (find_first_occurrence (StringRef.lit "banana") (StringRef.lit "ana") 2).
  - unfold StringRef.Valid. cbn. lia.
  - cbn. intros H. repeat (apply elem_of_cons in H as [H|H]; [discriminate|]).
    apply elem_of_nil in H. exact H.
  - unfold StringRef.CString. cbn. split; [lia|reflexivity].
  - lia.
Defined.

(** X3. [find] decides a match by reading the byte after the pattern: a
    pattern whose bytes up to and including that one are all non-zero (a
    view cut out of a longer text) is never found, whatever the view holds. *)
Theorem find_unterminated_pattern (v pattern : StringRef.t) (pm : list Z) (start : Z) :
  StringRef.Valid v → StringRef.chars_ pattern = Some pm →
  0 <= StringRef.length_ pattern < Z.of_nat (length pm) →
  (∀ k c, (k <= Z.to_nat (StringRef.length_ pattern))%nat → pm !! k = Some c → c ≠ 0) →
  0 <= start →
  StringRef.find v pattern start = Ok InvalidIndex.
Proof.
  intros HV Hp Hplen Hnz Hs. pose proof HV as [Hl Hr]. unfold StringRef.find.
  destruct ((StringRef.length_ pattern >? StringRef.length_ v)
            || (start >? StringRef.length_ v)) eqn:E; [reflexivity|].
  apply orb_false_iff in E as [E1 E2].
  destruct (for_up_search
    (fun i =>
       index ← StringRef.find_inner (Z.to_nat (StringRef.length_ pattern)) v pattern i 0;
       p ← StringRef.at_ pattern index;
       Ok (if p =? 0 then Some i else None))
    (fun _ => false)
    (Z.to_nat (StringRef.length_ v - StringRef.length_ pattern - start + 1)) start)
    as (r & -> & Hres).
  { intros j Hj.
    assert (Hinner : ∃ k, StringRef.find_inner (Z.to_nat (StringRef.length_ pattern))
                            v pattern j 0 = Ok k ∧ 0 <= k <= StringRef.length_ pattern).
    { destruct (StringRef.chars_ v) as [m|] eqn:Hv.
      - cbn in Hr. apply (find_inner_ok v pattern m pm Hv ltac:(lia) ltac:(lia) Hp Hplen); lia.
      - cbn in Hr. assert (StringRef.length_ pattern = 0) as -> by lia.
        exists 0. split; [reflexivity|lia]. }
    destruct Hinner as (k & -> & Hk). cbn.
    destruct (at_pattern_byte pattern pm Hp Hplen k) as (c & -> & Hc); [lia|]. cbn.
    pose proof (Hnz (Z.to_nat k) c ltac:(lia) Hc).
    destruct (c =? 0) eqn:Ec; [lia|reflexivity]. }
  cbn. destruct r as [q|]; [|reflexivity].
  destruct Hres as (_ & Hf & _). discriminate.
Qed.

Lemma find_unterminated_pattern_witness :
  StringRef.find (StringRef.lit "a,b") (StringRef.mk (Some (bytes ",b")) 1) 0 = Ok InvalidIndex.
Proof.
  apply (find_unterminated_pattern _ _ (bytes ",b")).
  - unfold StringRef.Valid. cbn. lia.
  - reflexivity.
  - cbn. lia.
  - intros k c Hk Hc. cbn in Hk.
    destruct k as [|[|k]]; cbn in Hc; [injection Hc as <-; lia|injection Hc as <-; lia|lia].
  - lia.
Defined.

Section SetSearch.

Import StringRef.

Variables v pattern : t.
Hypothesis HV : Valid v.
Hypothesis HP : Valid pattern.

(** The inner loop of the [find...Of] family decides whether the byte at
    [i] is one of the bytes of the pattern. *)
Lemma is_any_of_spec (i : Z) :
  0 <= i < length_ v →
  is_any_of v pattern i = Ok (bool_decide (byte_at v i ∈ content pattern)).
Proof.
  intros Hi. unfold is_any_of.
  destruct (for_up_search
    (fun j => a ← at_ v i; b ← at_ pattern j; Ok (if a =? b then Some j else None))
    (fun j => byte_at v i =? byte_at pattern j)
    (Z.to_nat (length_ pattern)) 0) as (r & -> & Hr).
  { intros j Hj. pose proof HP as [Hl _].
    destruct (at_content v i HV Hi) as [-> _]. cbn.
    destruct (at_content pattern j HP) as [-> _]; [lia|]. reflexivity. }
  cbn. f_equal. pose proof HP as [Hl _]. destruct r as [q|].
  - destruct Hr as (Hq & Hfq & _). symmetry. apply bool_decide_eq_true.
    destruct (at_content pattern q HP) as [_ Hlook]; [lia|].
    apply Z.eqb_eq in Hfq. rewrite Hfq. eapply list_elem_of_lookup_2. exact Hlook.
  - symmetry. apply bool_decide_eq_false. intros Hin.
    apply list_elem_of_lookup in Hin as [k Hk].
    pose proof (lookup_lt_Some _ _ _ Hk) as Hlt.
    pose proof (view_content_length pattern HP).
    specialize (Hr (Z.of_nat k) ltac:(lia)).
    unfold byte_at in Hr at 2. rewrite Nat2Z.id, Hk in Hr. cbn in Hr. lia.
Qed.

End SetSearch.

(** X4. [findFirstOf] returns the first index at or after [start] whose
    byte is one of the bytes of the pattern, and the sentinel when there is
    none. *)
Theorem findFirstOf_first (v pattern : StringRef.t) (start : Z) :
  StringRef.Valid v → StringRef.Valid pattern → 0 <= start →
  ∃ q, StringRef.findFirstOf v pattern start = Ok q ∧
       ((q = InvalidIndex ∧
         ∀ j, start <= j < StringRef.length_ v →
              (StringRef.byte_at v j ∉ StringRef.content pattern)) ∨
        (start <= q < StringRef.length_ v ∧
         (StringRef.byte_at v q ∈ StringRef.content pattern) ∧
         ∀ j, start <= j < q → (StringRef.byte_at v j ∉ StringRef.content pattern))).
Proof.
  intros HV HP Hs. unfold StringRef.findFirstOf.
  destruct (for_up_search
    (fun i => m ← StringRef.is_any_of v pattern i; Ok (if m : bool then Some i else None))
    (fun i => bool_decide ((StringRef.byte_at v i ∈ StringRef.content pattern)))
    (Z.to_nat (StringRef.length_ v - start)) start) as (r & -> & Hr).
  { intros j Hj. rewrite (is_any_of_spec v pattern HV HP) by lia. reflexivity. }
  cbn. destruct r as [q|]; cbn.
  - exists q. split; [reflexivity|]. right. destruct Hr as (Hq & Hfq & Hbefore).
    apply bool_decide_eq_true in Hfq. repeat split; try lia; [exact Hfq|].
    intros j Hj. specialize (Hbefore j Hj). apply bool_decide_eq_false in Hbefore. exact Hbefore.
  - exists InvalidIndex. split; [reflexivity|]. left. split; [reflexivity|].
    intros j Hj. specialize (Hr j ltac:(lia)). apply bool_decide_eq_false in Hr. exact Hr.
Qed.

Lemma findFirstOf_first_witness :
  ∃ q, StringRef.findFirstOf (StringRef.lit "key = value") (StringRef.lit "=:") 0 = Ok q ∧
       ((q = InvalidIndex ∧
         ∀ j, 0 <= j < 11 →
              (StringRef.byte_at (StringRef.lit "key = value") j ∉ bytes "=:")) ∨
        (0 <= q < 11 ∧
         (StringRef.byte_at (StringRef.lit "key = value") q ∈ bytes "=:") ∧
         ∀ j, 0 <= j < q → (StringRef.byte_at (StringRef.lit "key = value") j ∉ bytes "=:"))).
Proof.
  apply (findFirstOf_first (StringRef.lit "key = value") (StringRef.lit "=:") 0).
  - unfold StringRef.Valid. cbn. lia.
  - unfold StringRef.Valid. cbn. lia.
  - lia.
Defined.

(** X5. [findFirstNotOf] returns the first index at or after [start] whose
    byte is none of the bytes of the pattern, and the sentinel when every
    byte from [start] on is one of them. *)
Theorem findFirstNotOf_first (v pattern : StringRef.t) (start : Z) :
  StringRef.Valid v → StringRef.Valid pattern → 0 <= start →
  ∃ q, StringRef.findFirstNotOf v pattern start = Ok q ∧
       ((q = InvalidIndex ∧
         ∀ j, start <= j < StringRef.length_ v →
              (StringRef.byte_at v j ∈ StringRef.content pattern)) ∨
        (start <= q < StringRef.length_ v ∧
         (StringRef.byte_at v q ∉ StringRef.content pattern) ∧
         ∀ j, start <= j < q → (StringRef.byte_at v j ∈ StringRef.content pattern))).
Proof.
  intros HV HP Hs. unfold StringRef.findFirstNotOf.
  destruct (for_up_search
    (fun i => m ← StringRef.is_any_of v pattern i; Ok (if m : bool then None else Some i))
    (fun i => negb (bool_decide ((StringRef.byte_at v i ∈ StringRef.content pattern))))
    (Z.to_nat (StringRef.length_ v - start)) start) as (r & -> & Hr).
  { intros j Hj. rewrite (is_any_of_spec v pattern HV HP) by lia. cbn.
    destruct (bool_decide _); reflexivity. }
  cbn. destruct r as [q|]; cbn.
  - exists q. split; [reflexivity|]. right. destruct Hr as (Hq & Hfq & Hbefore).
    apply negb_true_iff, bool_decide_eq_false in Hfq. repeat split; try lia; [exact Hfq|].
    intros j Hj. specialize (Hbefore j Hj).
    apply negb_false_iff, bool_decide_eq_true in Hbefore. exact Hbefore.
  - exists InvalidIndex. split; [reflexivity|]. left. split; [reflexivity|].
    intros j Hj. specialize (Hr j ltac:(lia)).
    apply negb_false_iff, bool_decide_eq_true in Hr. exact Hr.
Qed.

Lemma findFirstNotOf_first_witness :
  ∃ q, StringRef.findFirstNotOf (StringRef.lit "  x") (StringRef.lit " ") 0 = Ok q ∧
       ((q = InvalidIndex ∧
         ∀ j, 0 <= j < 3 → (StringRef.byte_at (StringRef.lit "  x") j ∈ bytes " ")) ∨
        (0 <= q < 3 ∧
         (StringRef.byte_at (StringRef.lit "  x") q ∉ bytes " ") ∧
         ∀ j, 0 <= j < q → (StringRef.byte_at (StringRef.lit "  x") j ∈ bytes " "))).
Proof.
  apply (findFirstNotOf_first (StringRef.lit "  x") (StringRef.lit " ") 0).
  - unfold StringRef.Valid. cbn. lia.
  - unfold StringRef.Valid. cbn. lia.
  - lia.
Defined.

(** X6. [findLastOf] and [findLastNotOf] scan from the last byte down to
    index 1 and never look at index 0: on a non-empty view they return the
    last index from 1 on whose byte is (is not) one of the bytes of the
    pattern, and the sentinel when there is none, whatever byte 0 is. *)
Theorem findLast_skips_index_zero (v pattern : StringRef.t) :
  StringRef.Valid v → StringRef.Valid pattern → 1 <= StringRef.length_ v →
  (∃ q, StringRef.findLastOf v pattern = Ok q ∧
        ((q = InvalidIndex ∧
          ∀ j, 1 <= j < StringRef.length_ v →
               (StringRef.byte_at v j ∉ StringRef.content pattern)) ∨
         (1 <= q < StringRef.length_ v ∧
          (StringRef.byte_at v q ∈ StringRef.content pattern) ∧
          ∀ j, q < j < StringRef.length_ v →
               (StringRef.byte_at v j ∉ StringRef.content pattern)))) ∧
  (∃ q, StringRef.findLastNotOf v pattern = Ok q ∧
        ((q = InvalidIndex ∧
          ∀ j, 1 <= j < StringRef.length_ v →
               (StringRef.byte_at v j ∈ StringRef.content pattern)) ∨
         (1 <= q < StringRef.length_ v ∧
          (StringRef.byte_at v q ∉ StringRef.content pattern) ∧
          ∀ j, q < j < StringRef.length_ v →
               (StringRef.byte_at v j ∈ StringRef.content pattern)))).
Proof.
  intros HV HP HL. pose proof HV as [Hl _].
  unfold StringRef.findLastOf, StringRef.findLastNotOf.
  rewrite (wrap_small (StringRef.length_ v - 1)) by (rewrite size_mod_eq; lia).
  split.
  - destruct (for_down_search
      (fun i => m ← StringRef.is_any_of v pattern i; Ok (if m : bool then Some i else None))
      (fun i => bool_decide ((StringRef.byte_at v i ∈ StringRef.content pattern)))
      (Z.to_nat (StringRef.length_ v - 1)) (StringRef.length_ v - 1)) as (r & -> & Hr).
    { intros j Hj. rewrite (is_any_of_spec v pattern HV HP) by lia. reflexivity. }
    cbn. destruct r as [q|]; cbn.
    + exists q. split; [reflexivity|]. right. destruct Hr as (Hq & Hfq & Hafter).
      apply bool_decide_eq_true in Hfq. repeat split; try lia; [exact Hfq|].
      intros j Hj. specialize (Hafter j ltac:(lia)).
      apply bool_decide_eq_false in Hafter. exact Hafter.
    + exists InvalidIndex. split; [reflexivity|]. left. split; [reflexivity|].
      intros j Hj. specialize (Hr j ltac:(lia)). apply bool_decide_eq_false in Hr. exact Hr.
  - destruct (for_down_search
      (fun i => m ← StringRef.is_any_of v pattern i; Ok (if m : bool then None else Some i))
      (fun i => negb (bool_decide ((StringRef.byte_at v i ∈ StringRef.content pattern))))
      (Z.to_nat (StringRef.length_ v - 1)) (StringRef.length_ v - 1)) as (r & -> & Hr).
    { intros j Hj. rewrite (is_any_of_spec v pattern HV HP) by lia. cbn.
      destruct (bool_decide _); reflexivity. }
    cbn. destruct r as [q|]; cbn.
    + exists q. split; [reflexivity|]. right. destruct Hr as (Hq & Hfq & Hafter).
      apply negb_true_iff, bool_decide_eq_false in Hfq. repeat split; try lia; [exact Hfq|].
      intros j Hj. specialize (Hafter j ltac:(lia)).
      apply negb_false_iff, bool_decide_eq_true in Hafter. exact Hafter.
    + exists InvalidIndex. split; [reflexivity|]. left. split; [reflexivity|].
      intros j Hj. specialize (Hr j ltac:(lia)).
      apply negb_false_iff, bool_decide_eq_true in Hr. exact Hr.
Qed.

Lemma findLast_skips_index_zero_witness :
  (∃ q, StringRef.findLastOf (StringRef.lit "/usr") (StringRef.lit "/") = Ok q ∧
        ((q = InvalidIndex ∧
          ∀ j, 1 <= j < 4 → (StringRef.byte_at (StringRef.lit "/usr") j ∉ bytes "/")) ∨
         (1 <= q < 4 ∧
          (StringRef.byte_at (StringRef.lit "/usr") q ∈ bytes "/") ∧
          ∀ j, q < j < 4 → (StringRef.byte_at (StringRef.lit "/usr") j ∉ bytes "/")))) ∧
  (∃ q, StringRef.findLastNotOf (StringRef.lit "/usr") (StringRef.lit "/") = Ok q ∧
        ((q = InvalidIndex ∧
          ∀ j, 1 <= j < 4 → (StringRef.byte_at (StringRef.lit "/usr") j ∈ bytes "/")) ∨
         (1 <= q < 4 ∧
          (StringRef.byte_at (StringRef.lit "/usr") q ∉ bytes "/") ∧
          ∀ j, q < j < 4 → (StringRef.byte_at (StringRef.lit "/usr") j ∈ bytes "/")))).
Proof.
  apply (findLast_skips_index_zero (StringRef.lit "/usr") (StringRef.lit "/")).
  - unfold StringRef.Valid. cbn. lia.
  - unfold StringRef.Valid. cbn. lia.
  - cbn. lia.
Defined.

(** ** Slices, comparison and counting *)

(** A counted loop whose invariant follows the index. *)
Lemma iter_up_ind {St} (P : Z → St → Prop) (body : Z → St → res St) (n : nat) :
  ∀ i st,
    P i st →
    (∀ j st, i <= j < i + Z.of_nat n → P j st → ∃ st', body j st = Ok st' ∧ P (j + 1) st') →
    ∃ st', iter_up n i body st = Ok st' ∧ P (i + Z.of_nat n) st'.
Proof.
  induction n as [|n IH]; intros i st HP Hbody; cbn [iter_up].
  - exists st. split; [reflexivity|]. replace (i + Z.of_nat 0) with i by lia. exact HP.
  - destruct (Hbody i st) as (st1 & -> & HP1); [lia|exact HP|]. cbn.
    destruct (IH (i + 1) st1 HP1) as (st' & Hst' & HP').
    { intros j st2 Hj. apply Hbody. lia. }
    exists st'. split; [exact Hst'|].
    replace (i + Z.of_nat (S n)) with (i + 1 + Z.of_nat n) by lia. exact HP'.
Qed.

Lemma memcmp_bytes_eq (a b : list Z) :
  length a = length b → (memcmp_bytes a b = 0 ↔ a = b).
Proof.
  revert b. induction a as [|x a IH]; intros [|y b] Hlen; try discriminate.
  - split; reflexivity.
  - cbn [memcmp_bytes]. destruct (x =? y) eqn:E.
    + apply Z.eqb_eq in E. subst y. rewrite IH by (cbn in Hlen; lia).
      split; [intros ->; reflexivity|intros [= ->]; reflexivity].
    + split; [destruct (x <? y); discriminate|intros [= -> _]; lia].
Qed.

Section SliceFacts.

Import StringRef.

Lemma content_bytes (v : t) : content v = ptr_bytes (chars_ v) (length_ v).
Proof. reflexivity. Qed.

(** [substr] clamps its arguments into the view and returns a view of the
    slice. *)
Lemma substr_slice (v : t) (start count : Z) :
  Valid v → 0 <= start → 0 <= count →
  ∃ s, substr v start count = Ok s ∧ Valid s ∧
       length_ s = Z.min (if count =? InvalidIndex then length_ v else count)
                     (length_ v - Z.min start (length_ v)) ∧
       content s = take (Z.to_nat count) (drop (Z.to_nat start) (content v)).
Proof.
  intros [Hl Hr] Hs Hc. unfold substr.
  set (s' := Z.min start (length_ v)).
  set (c' := if count =? InvalidIndex then length_ v else count).
  rewrite (wrap_small (length_ v - s')) by (rewrite size_mod_eq; lia).
  pose proof InvalidIndex_big as Hbig.
  assert (Hc' : 0 <= c') by (subst c'; destruct (count =? InvalidIndex); lia).
  assert (Hmin : Z.to_nat (Z.min c' (length_ v - s'))
                 = (Z.to_nat count `min` (Z.to_nat (length_ v) - Z.to_nat start))%nat).
  { subst c' s'. destruct (count =? InvalidIndex) eqn:E; lia. }
  unfold content, Valid. destruct (chars_ v) as [m|] eqn:Hm; cbn in Hr; cbn [ptr_add].
  - destruct ((0 <=? s') && (s' <=? Z.of_nat (length m))) eqn:E; [|lia].
    cbn. eexists. split; [reflexivity|]. cbn.
    split; [|split; [reflexivity|]].
    + split; [lia|]. rewrite length_drop. lia.
    + rewrite Hmin, skipn_firstn_comm, take_take.
      destruct (Z_le_gt_dec start (length_ v)) as [Hle|Hgt].
      * replace s' with start by lia. reflexivity.
      * replace (Z.to_nat (length_ v) - Z.to_nat start)%nat with 0%nat by lia.
        rewrite Nat.min_0_r, !take_0. reflexivity.
  - assert (s' = 0) as -> by lia. cbn.
    eexists. split; [reflexivity|]. cbn.
    split; [|split; [reflexivity|]].
    + lia.
    + rewrite drop_nil, take_nil. reflexivity.
Qed.

(** [operator ==] compares the contents. *)
Lemma equals_content (v w : t) :
  Valid v → Valid w → equals v w = Ok (bool_decide (content v = content w)).
Proof.
  intros HV HW. pose proof (view_content_length v HV) as Hlv.
  pose proof (view_content_length w HW) as Hlw.
  destruct HV as [Hl Hr], HW as [Hl' Hr']. unfold equals.
  destruct (length_ v =? length_ w) eqn:E.
  - apply Z.eqb_eq in E. unfold memcmp.
    destruct (length_ v =? 0) eqn:E0.
    + cbn. f_equal. symmetry. apply bool_decide_eq_true.
      assert (content v = []) as -> by (apply length_zero_iff_nil; lia).
      symmetry. apply length_zero_iff_nil. lia.
    + unfold content in *.
      destruct (chars_ v) as [x|], (chars_ w) as [y|]; cbn in Hr, Hr'; try lia.
      destruct ((0 <? length_ v) && (length_ v <=? Z.of_nat (length x))
                && (length_ v <=? Z.of_nat (length y))) eqn:Eb; [|lia].
      cbn. f_equal. rewrite <- E.
      apply Bool.eq_true_iff_eq. rewrite Z.eqb_eq, bool_decide_eq_true.
      apply memcmp_bytes_eq. rewrite !length_take. lia.
  - cbn. f_equal. symmetry. apply bool_decide_eq_false. intros Heq.
    rewrite Heq in Hlv. lia.
Qed.

End SliceFacts.

(** X7. [substr] never reads outside the view: whatever [start] and
    [count] are, it returns a readable view that holds at most [count]
    bytes of the content from [start] on (none when [start] is beyond the
    end, all of them when [count] is the sentinel). *)
Theorem substr_is_clamped_slice (v : StringRef.t) (start count : Z) :
  StringRef.Valid v → 0 <= start → 0 <= count →
  ∃ s, StringRef.substr v start count = Ok s ∧ StringRef.Valid s ∧
       StringRef.content s
       = take (Z.to_nat count) (drop (Z.to_nat start) (StringRef.content v)).
Proof.
  intros HV Hs Hc.
  destruct (substr_slice v start count HV Hs Hc) as (s & H1 & H2 & _ & H3). eauto.
Qed.

Lemma substr_is_clamped_slice_witness :
  ∃ s, StringRef.substr (StringRef.lit "banana") 4 InvalidIndex = Ok s ∧
       StringRef.Valid s ∧
       StringRef.content s = take (Z.to_nat InvalidIndex) (drop (Z.to_nat 4) (bytes "banana")).
Proof.
  apply (substr_is_clamped_slice (StringRef.lit "banana") 4 InvalidIndex).
  - unfold StringRef.Valid. cbn. lia.
  - lia.
  - rewrite InvalidIndex_eq. lia.
Defined.

(** X8. [operator ==] of two readable views is true exactly when their
    contents are the same bytes. *)
Theorem equals_iff_same_content (v w : StringRef.t) :
  StringRef.Valid v → StringRef.Valid w →
  StringRef.equals v w = Ok (bool_decide (StringRef.content v = StringRef.content w)).
Proof. apply equals_content. Qed.

Lemma equals_iff_same_content_witness :
  StringRef.equals (StringRef.lit "abc") (StringRef.mk (Some (bytes "abcdef")) 3)
  = Ok (bool_decide (bytes "abc" = bytes "abc")).
Proof.
  apply (equals_iff_same_content (StringRef.lit "abc") (StringRef.mk (Some (bytes "abcdef")) 3)).
  - unfold StringRef.Valid. cbn. lia.
  - unfold StringRef.Valid. cbn. lia.
Defined.

(** X9. [countChar] returns the number of bytes of the content equal to
    [ch]. *)
Theorem countChar_counts (v : StringRef.t) (ch : Z) :
  StringRef.Valid v →
  StringRef.countChar v ch
  = Ok (Z.of_nat (length (filter (fun b => b = ch) (StringRef.content v)))).
Proof.
  intros HV. pose proof HV as [Hl _]. pose proof (view_content_length v HV) as Hlen.
  unfold StringRef.countChar.
  destruct (iter_up_ind
    (fun j count => count = Z.of_nat (length (filter (fun b => b = ch)
                                                (take (Z.to_nat j) (StringRef.content v)))))
    (fun i count => c ← StringRef.at_ v i; Ok (if c =? ch then wrap (count + 1) else count))
    (Z.to_nat (StringRef.length_ v)) 0 0) as (r & -> & Hr).
  - reflexivity.
  - intros j count Hj ->.
    destruct (at_content v j HV) as [-> Hlook]; [lia|]. cbn.
    eexists. split; [reflexivity|].
    replace (Z.to_nat (j + 1)) with (S (Z.to_nat j)) by lia.
    rewrite (take_S_r _ _ _ Hlook), filter_app, length_app.
    pose proof (length_filter (fun b => b = ch) (take (Z.to_nat j) (StringRef.content v))) as Hf.
    rewrite length_take in Hf.
    destruct (StringRef.byte_at v j =? ch) eqn:E.
    + rewrite wrap_small by (rewrite size_mod_eq; lia).
      rewrite filter_cons_True by lia. cbn. lia.
    + rewrite filter_cons_False by lia. cbn. lia.
  - f_equal. rewrite Hr. rewrite take_ge by lia. reflexivity.
Qed.

Lemma countChar_counts_witness :
  StringRef.countChar (StringRef.lit "banana") 97
  = Ok (Z.of_nat (length (filter (fun b => b = 97) (bytes "banana")))).
Proof.
  apply (countChar_counts (StringRef.lit "banana") 97).
  unfold StringRef.Valid. cbn. lia.
Defined.

(** X10. [countStr] counts every position at which the pattern occurs,
    overlapping occurrences included; a pattern longer than the view counts
    zero. *)
Theorem countStr_counts_positions (v pattern : StringRef.t) :
  StringRef.Valid v → StringRef.Valid pattern →
  StringRef.countStr v pattern
  = Ok (Z.of_nat (length (filter
          (StringRef.occurs_at (StringRef.content v) (StringRef.content pattern))
          (seq 0 (Z.to_nat (StringRef.length_ v - StringRef.length_ pattern + 1)))))).
Proof.
  intros HV HP. pose proof HV as [Hl _]. pose proof HP as [Hlp _].
  pose proof (view_content_length v HV) as Hlen.
  pose proof (view_content_length pattern HP) as Hplen.
  unfold StringRef.countStr.
  destruct (StringRef.length_ pattern >? StringRef.length_ v) eqn:E.
  { replace (Z.to_nat (StringRef.length_ v - StringRef.length_ pattern + 1)) with 0%nat by lia.
    reflexivity. }
  rewrite (wrap_small (StringRef.length_ v - StringRef.length_ pattern))
    by (rewrite size_mod_eq; lia).
  rewrite wrap_small by (rewrite size_mod_eq; lia).
  set (occ := StringRef.occurs_at (StringRef.content v) (StringRef.content pattern)).
  destruct (iter_up_ind
    (fun j count => count = Z.of_nat (length (filter occ (seq 0 (Z.to_nat j)))))
    (fun i count =>
       s ← StringRef.substr v i (StringRef.length_ pattern);
       m ← StringRef.equals s pattern;
       Ok (if m : bool then wrap (count + 1) else count))
    (Z.to_nat (StringRef.length_ v - StringRef.length_ pattern + 1)) 0 0) as (r & -> & Hr).
  - reflexivity.
  - intros j count Hj ->.
    destruct (substr_slice v j (StringRef.length_ pattern) HV) as (s & -> & HVs & _ & Hs);
      [lia|lia|]. cbn.
    rewrite (equals_content s pattern HVs HP). cbn.
    eexists. split; [reflexivity|].
    replace (Z.to_nat (j + 1)) with (S (Z.to_nat j)) by lia.
    rewrite seq_S, filter_app, length_app. cbn [Nat.add].
    pose proof (length_filter occ (seq 0 (Z.to_nat j))) as Hf. rewrite length_seq in Hf.
    assert (Hiff : StringRef.content s = StringRef.content pattern ↔ occ (Z.to_nat j)).
    { subst occ. unfold StringRef.occurs_at. rewrite Hs.
      replace (Z.to_nat (StringRef.length_ pattern))
        with (length (StringRef.content pattern)) by lia. reflexivity. }
    destruct (bool_decide (StringRef.content s = StringRef.content pattern)) eqn:Eb.
    + apply bool_decide_eq_true in Eb.
      rewrite wrap_small by (rewrite size_mod_eq; lia).
      rewrite filter_cons_True by (apply Hiff; exact Eb). cbn. lia.
    + apply bool_decide_eq_false in Eb.
      rewrite filter_cons_False by (intros H; apply Eb, Hiff; exact H). cbn. lia.
  - f_equal. rewrite Hr, Z.add_0_l, Nat2Z.id. reflexivity.
Qed.

Lemma countStr_counts_positions_witness :
  StringRef.countStr (StringRef.lit "aaa") (StringRef.lit "aa")
  = Ok (Z.of_nat (length (filter (StringRef.occurs_at (bytes "aaa") (bytes "aa"))
                            (seq 0 (Z.to_nat (3 - 2 + 1)))))).
Proof.
  apply (countStr_counts_positions (StringRef.lit "aaa") (StringRef.lit "aa")).
  - unfold StringRef.Valid. cbn. lia.
  - unfold StringRef.Valid. cbn. lia.
Defined.

(** ** Prefixes, hashing and chunks *)

(** [strncmp] over [n] readable bytes, none of them zero on the right,
    is zero exactly when the bytes agree. *)
Lemma strncmp_bytes_eq (n : nat) :
  ∀ a b,
    (n <= length a)%nat → (n <= length b)%nat → 0 ∉ take n b →
    ∃ r, strncmp_bytes n a b = Ok r ∧ (r = 0 ↔ take n a = take n b).
Proof.
  induction n as [|n IH]; intros a b Ha Hb Hnz; cbn [strncmp_bytes].
  - exists 0. rewrite !take_0. split; [reflexivity|]. split; reflexivity.
  - destruct a as [|x a]; [cbn in Ha; lia|]. destruct b as [|y b]; [cbn in Hb; lia|].
    cbn in Ha, Hb, Hnz. rewrite !firstn_cons.
    destruct (x =? y) eqn:E.
    + apply Z.eqb_eq in E. subst y.
      destruct (x =? 0) eqn:E0.
      { exfalso. apply Hnz. apply Z.eqb_eq in E0. subst x. apply elem_of_cons. auto. }
      destruct (IH a b) as (r & -> & Hr); [lia|lia| |].
      { intros H. apply Hnz. apply elem_of_cons. auto. }
      exists r. split; [reflexivity|]. rewrite Hr.
      split; [intros ->; reflexivity|intros [= ->]; reflexivity].
    + eexists. split; [reflexivity|].
      split; [destruct (x <? y); discriminate|intros [= -> _]; lia].
Qed.

(** X11. With a pattern that holds no zero byte, [startsWith] is true
    exactly when the content begins with the pattern, and [endsWith] exactly
    when it ends with it; a pattern longer than the view gives false. *)
Theorem startsWith_endsWith_decide (v p : StringRef.t) :
  StringRef.Valid v → StringRef.Valid p → 0 ∉ StringRef.content p →
  StringRef.startsWith v p
  = Ok (bool_decide (take (Z.to_nat (StringRef.length_ p)) (StringRef.content v)
                     = StringRef.content p)) ∧
  StringRef.endsWith v p
  = Ok (bool_decide (drop (Z.to_nat (StringRef.length_ v - StringRef.length_ p))
                       (StringRef.content v)
                     = StringRef.content p)).
Proof.
  intros HV HP Hnz.
  pose proof (view_content_length v HV) as Hlv. pose proof (view_content_length p HP) as Hlp.
  destruct HV as [Hl Hr], HP as [Hl' Hr'].
  unfold StringRef.startsWith, StringRef.endsWith.
  destruct (StringRef.length_ p <=? StringRef.length_ v) eqn:E.
  2:{ split; f_equal; symmetry; apply bool_decide_eq_false; intros Heq;
        apply (f_equal length) in Heq; rewrite ?length_take, ?length_drop in Heq; lia. }
  unfold strncmp. destruct (StringRef.length_ p =? 0) eqn:E0.
  { assert (StringRef.content p = []) as Hnil by (apply length_zero_iff_nil; lia).
    rewrite Hnil. replace (Z.to_nat (StringRef.length_ p)) with 0%nat by lia. split.
    - cbn. rewrite take_0. reflexivity.
    - rewrite (wrap_small (StringRef.length_ v - StringRef.length_ p))
        by (rewrite size_mod_eq; lia).
      unfold StringRef.content in *.
      destruct (StringRef.chars_ v) as [x|]; cbn in Hr |- *.
      + destruct ((0 <=? StringRef.length_ v)
                  && (StringRef.length_ v <=? Z.of_nat (length x))) eqn:Eb; [|lia]. cbn.
        destruct ((0 <=? StringRef.length_ v - StringRef.length_ p)
                  && (StringRef.length_ v - StringRef.length_ p <=? Z.of_nat (length x)))
          eqn:Eb'; [|lia]. cbn.
        f_equal. symmetry. apply bool_decide_eq_true. apply length_zero_iff_nil.
        rewrite length_drop, length_take. lia.
      + destruct (StringRef.length_ v =? 0) eqn:Ev; [|lia]. cbn.
        destruct (StringRef.length_ v - StringRef.length_ p =? 0) eqn:Ev'; [|lia].
        cbn. f_equal. symmetry. apply bool_decide_eq_true. apply drop_nil. }
  unfold StringRef.content in *.
  destruct (StringRef.chars_ v) as [x|], (StringRef.chars_ p) as [y|];
    cbn in Hr, Hr', Hnz, Hlv, Hlp; try lia.
  cbn [ptr_bytes ptr_add].
  split.
  - destruct (strncmp_bytes_eq (Z.to_nat (StringRef.length_ p)) x y)
      as (r & -> & Hiff); [lia|lia|exact Hnz|].
    cbn. f_equal. apply Bool.eq_true_iff_eq.
    rewrite Z.eqb_eq, bool_decide_eq_true, Hiff, take_take.
    replace (Z.to_nat (StringRef.length_ p) `min` Z.to_nat (StringRef.length_ v))%nat
      with (Z.to_nat (StringRef.length_ p)) by lia. reflexivity.
  - rewrite (wrap_small (StringRef.length_ v - StringRef.length_ p))
      by (rewrite size_mod_eq; lia).
    destruct ((0 <=? StringRef.length_ v)
              && (StringRef.length_ v <=? Z.of_nat (length x))) eqn:Eb; [|lia]. cbn.
    destruct ((0 <=? StringRef.length_ v - StringRef.length_ p)
              && (StringRef.length_ v - StringRef.length_ p <=? Z.of_nat (length x)))
      eqn:Eb'; [|lia]. cbn.
    destruct (strncmp_bytes_eq (Z.to_nat (StringRef.length_ p))
                (drop (Z.to_nat (StringRef.length_ v - StringRef.length_ p)) x) y)
      as (r & -> & Hiff); [rewrite length_drop; lia|lia|exact Hnz|].
    cbn. f_equal. apply Bool.eq_true_iff_eq.
    rewrite Z.eqb_eq, bool_decide_eq_true, Hiff, skipn_firstn_comm.
    replace (Z.to_nat (StringRef.length_ v)
             - Z.to_nat (StringRef.length_ v - StringRef.length_ p))%nat
      with (Z.to_nat (StringRef.length_ p)) by lia. reflexivity.
Qed.

Lemma startsWith_endsWith_decide_witness :
  StringRef.startsWith (StringRef.lit "banana") (StringRef.lit "ban")
  = Ok (bool_decide (take (Z.to_nat 3) (bytes "banana") = bytes "ban")) ∧
  StringRef.endsWith (StringRef.lit "banana") (StringRef.lit "ban")
  = Ok (bool_decide (drop (Z.to_nat (6 - 3)) (bytes "banana") = bytes "ban")).
Proof.
  apply (startsWith_endsWith_decide (StringRef.lit "banana") (StringRef.lit "ban")).
  - unfold StringRef.Valid. cbn. lia.
  - unfold StringRef.Valid. cbn. lia.
  - cbn. intros H. repeat (apply elem_of_cons in H as [H|H]; [discriminate|]).
    apply elem_of_nil in H. exact H.
Defined.

(** X12. [hash] folds FNV-1a over the bytes before the first zero byte and
    over nothing else: it depends neither on [length_] nor on what follows
    that zero, and it stays below [2^32]. *)
Theorem hash_reads_to_first_zero (v : StringRef.t) (pre rest : list Z) :
  StringRef.chars_ v = Some (pre ++ 0 :: rest) → 0 ∉ pre →
  ∃ h, StringRef.hash v = Ok h ∧
       h = foldl (fun h b => (Z.lxor h b * 0x1000193) mod 2 ^ 32) 0x811c9dc5 pre ∧
       0 <= h < 2 ^ 32.
Proof.
  intros Hc Hnz. unfold StringRef.hash, StringRef.fnv1a32. rewrite Hc.
  assert (Hgen : ∀ h0, 0 <= h0 < 2 ^ 32 →
            ∃ h, StringRef.fnv1a32_loop (pre ++ 0 :: rest) h0 = Ok h ∧
                 h = foldl (fun h b => (Z.lxor h b * 0x1000193) mod 2 ^ 32) h0 pre ∧
                 0 <= h < 2 ^ 32).
  { clear Hc. induction pre as [|b pre IH]; intros h0 Hh0.
    - cbn. exists h0. auto.
    - cbn [app StringRef.fnv1a32_loop foldl].
      destruct (b =? kNullChar) eqn:E.
      + exfalso. apply Hnz. apply Z.eqb_eq in E. rewrite E. apply elem_of_cons. auto.
      + apply IH.
        * intros H. apply Hnz. apply elem_of_cons. auto.
        * apply Z.mod_pos_bound. reflexivity. }
  apply Hgen. lia.
Qed.

Lemma hash_reads_to_first_zero_witness :
  ∃ h, StringRef.hash (StringRef.mk (Some [97; 0; 98; 0]) 3) = Ok h ∧
       h = foldl (fun h b => (Z.lxor h b * 0x1000193) mod 2 ^ 32) 0x811c9dc5 [97] ∧
       0 <= h < 2 ^ 32.
Proof.
  apply (hash_reads_to_first_zero (StringRef.mk (Some [97; 0; 98; 0]) 3) [97] [98; 0]).
  - reflexivity.
  - intros H. apply elem_of_cons in H as [H|H]; [discriminate|].
    apply elem_of_nil in H. exact H.
Defined.

Section ChunkFacts.

Import StringRef.

Variable v : t.
Variable maxLength : Z.
Hypothesis HV : Valid v.
Hypothesis Hmax : 1 <= maxLength < 2 ^ 62.

Lemma split_chunks_loop_spec (n : nat) :
  ∀ i tokens,
    0 <= i < 2 ^ 63 → length_ v - i <= Z.of_nat n →
    ∃ l, split_chunks_loop Ok n v maxLength i tokens = Ok (tokens ++ l) ∧
         concat (map content l) = drop (Z.to_nat i) (content v) ∧
         chunked maxLength (map content l) ∧
         (l = [] ↔ length_ v <= i).
Proof.
  pose proof HV as [Hl _]. pose proof (view_content_length v HV) as Hlen.
  induction n as [|n IH]; intros i tokens Hi Hn; cbn [split_chunks_loop].
  - destruct (i <? length_ v) eqn:E; [lia|].
    exists []. rewrite app_nil_r. split; [reflexivity|]. cbn.
    split; [symmetry; apply drop_ge; lia|]. split; [exact I|]. split; [lia|reflexivity].
  - destruct (i <? length_ v) eqn:E.
    + destruct (substr_slice v i maxLength HV) as (s & -> & HVs & Hls & Hs); [lia|lia|].
      cbn. rewrite (wrap_small (i + maxLength)) by (rewrite size_mod_eq; lia).
      destruct (IH (i + maxLength) (tokens ++ [s])) as (l & -> & Hcat & Hch & Hnil); [lia|lia|].
      exists (s :: l). rewrite <- app_assoc. split; [reflexivity|]. cbn [map concat].
      pose proof InvalidIndex_big as Hbig.
      destruct (maxLength =? InvalidIndex) eqn:Einv; [lia|].
      pose proof (view_content_length s HVs) as Hslen.
      split; [|split].
      * rewrite Hcat, Hs.
        replace (Z.to_nat (i + maxLength)) with (Z.to_nat i + Z.to_nat maxLength)%nat by lia.
        rewrite <- drop_drop. apply take_drop.
      * cbn [chunked]. destruct l as [|s' l]; cbn [map].
        -- lia.
        -- split; [|exact Hch].
           assert (¬ length_ v <= i + maxLength) by (intros H; apply Hnil in H; discriminate).
           lia.
      * split; [discriminate|lia].
    + exists []. rewrite app_nil_r. split; [reflexivity|]. cbn.
      split; [symmetry; apply drop_ge; lia|]. split; [exact I|]. split; [lia|reflexivity].
Qed.

End ChunkFacts.

(** X13. [split (maxLength)] with a positive chunk length cuts the content
    into consecutive pieces: joined in order they give the content back,
    every piece but the last has exactly [maxLength] bytes and the last one
    has between 1 and [maxLength]. *)
Theorem split_chunks_partition (v : StringRef.t) (maxLength : Z) :
  StringRef.Valid v → 1 <= maxLength < 2 ^ 62 →
  ∃ l, StringRef.split_chunks v maxLength = Ok l ∧
       concat (map StringRef.content l) = StringRef.content v ∧
       StringRef.chunked maxLength (map StringRef.content l).
Proof.
  intros HV Hmax. pose proof HV as [Hl _].
  unfold StringRef.split_chunks, StringRef.split_chunks_as.
  destruct (split_chunks_loop_spec v maxLength HV Hmax (Z.to_nat (StringRef.length_ v)) 0 [])
    as (l & Hl' & Hcat & Hch & _); [lia|lia|].
  exists l. rewrite Hl'. split; [reflexivity|]. split; [|exact Hch].
  rewrite Hcat. reflexivity.
Qed.

Lemma split_chunks_partition_witness :
  ∃ l, StringRef.split_chunks (StringRef.lit "abcdefg") 3 = Ok l ∧
       concat (map StringRef.content l) = bytes "abcdefg" ∧
       StringRef.chunked 3 (map StringRef.content l).
Proof.
  apply (split_chunks_partition (StringRef.lit "abcdefg") 3).
  - unfold StringRef.Valid. cbn. lia.
  - lia.
Defined.

(** ** Assignment, growth and clearing *)

(** X14. [assign] replaces whatever a valid string held: it returns, the
    new content is the [n] bytes read from the argument ([n] as
    [calcLength] measures it), the length is [n], a zero byte follows the
    content and the capacity exceeds the length and never shrinks. *)
Theorem assign_replaces_content (junk : Z → nat → Z) (s : CrString.t) (str : cptr)
    (len n : Z) :
  CrString.Valid s → CrString.calcLength str len = Ok n → 0 <= n → readable str n →
  CrString.length_ s + n < 2 ^ 62 →
  ∃ s', CrString.assign junk s str len = Ok s' ∧ CrString.Valid s' ∧
        CrString.terminated s' ∧ CrString.length_ s' = n ∧
        CrString.content s' = ptr_bytes str n ∧
        n < CrString.capacity_ s' ∧ CrString.capacity_ s <= CrString.capacity_ s'.
Proof.
  intros HV Hc Hn Hr Hb.
  destruct (assign_ok junk s str len n HV Hc Hn Hr Hb) as (b & E & H1 & H2 & H3 & H4 & H5).
  destruct (assign_terminated junk s str len n HV Hc Hn Hr Hb) as (s' & E' & HV' & Ht & Hct).
  exists s'. do 3 (split; [assumption|]).
  rewrite E in E'. injection E' as <-. cbn. auto.
Qed.

Lemma assign_replaces_content_witness :
  ∃ s', CrString.assign (fun _ _ => 0) (CrString.mk (Some (cstr "hello world")) 11 12)
          (Some (cstr "abc")) 2 = Ok s' ∧
        CrString.Valid s' ∧ CrString.terminated s' ∧ CrString.length_ s' = 2 ∧
        CrString.content s' = ptr_bytes (Some (cstr "abc")) 2 ∧
        2 < CrString.capacity_ s' ∧
        CrString.capacity_ (CrString.mk (Some (cstr "hello world")) 11 12)
        <= CrString.capacity_ s'.
Proof.
  apply (assign_replaces_content (fun _ _ => 0)
           (CrString.mk (Some (cstr "hello world")) 11 12) (Some (cstr "abc")) 2 2).
  - unfold CrString.Valid. cbn. lia.
  - reflexivity.
  - lia.
  - cbn. lia.
  - cbn. lia.
Defined.

(** X15. [append] keeps the content of a valid string and adds the [n]
    bytes read from the argument after it; the length grows by [n], a zero
    byte follows the content and the capacity exceeds the new length and
    never shrinks. *)
Theorem append_extends_content (junk : Z → nat → Z) (s : CrString.t) (str : cptr)
    (len n : Z) :
  CrString.Valid s → CrString.calcLength str len = Ok n → 0 <= n → readable str n →
  CrString.length_ s + n < 2 ^ 62 →
  ∃ s', CrString.append junk s str len = Ok s' ∧ CrString.Valid s' ∧
        CrString.terminated s' ∧ CrString.length_ s' = CrString.length_ s + n ∧
        CrString.content s' = CrString.content s ++ ptr_bytes str n ∧
        CrString.length_ s + n < CrString.capacity_ s' ∧
        CrString.capacity_ s <= CrString.capacity_ s'.
Proof.
  intros HV Hc Hn Hr Hb.
  destruct (append_ok junk s str len n HV Hc Hn Hr Hb) as (b & E & H1 & H2 & H3 & H4 & H5).
  destruct (append_terminated junk s str len n HV Hc Hn Hr Hb)
    as (s' & E' & HV' & Ht & Hl & Hct).
  exists s'. do 4 (split; [assumption|]). split; [assumption|].
  rewrite E in E'. injection E' as <-. cbn. auto.
Qed.

Lemma append_extends_content_witness :
  ∃ s', CrString.append (fun _ _ => 0)
          (CrString.mk (Some (cstr "hello")) 5 6) (Some (cstr " world")) 0 = Ok s' ∧
        CrString.Valid s' ∧ CrString.terminated s' ∧
        CrString.length_ s' = 5 + 6 ∧
        CrString.content s'
        = CrString.content (CrString.mk (Some (cstr "hello")) 5 6)
            ++ ptr_bytes (Some (cstr " world")) 6 ∧
        5 + 6 < CrString.capacity_ s' ∧
        CrString.capacity_ (CrString.mk (Some (cstr "hello")) 5 6) <= CrString.capacity_ s'.
Proof.
  apply (append_extends_content (fun _ _ => 0)
           (CrString.mk (Some (cstr "hello")) 5 6) (Some (cstr " world")) 0 6).
  - unfold CrString.Valid. cbn. lia.
  - reflexivity.
  - lia.
  - cbn. lia.
  - cbn. lia.
Defined.

Section GrowthPolicy.

Import CrString.

Variable junk : Z → nat → Z.

Lemma grow_loop_done (n : nat) (target capacity : Z) :
  target <= capacity → grow_loop n target capacity = Ok capacity.
Proof.
  intros H. destruct n; cbn [grow_loop];
    destruct (target >? capacity) eqn:E; try lia; reflexivity.
Qed.

(** What [assign] returns has the capacity [resize] chose. *)
Lemma assign_capacity (s s1 s' : t) (str : cptr) (len n : Z) :
  calcLength str len = Ok n → resize junk s n = Ok s1 →
  assign junk s str len = Ok s' → capacity_ s' = capacity_ s1.
Proof.
  intros Hcalc Hres. unfold assign. rewrite Hcalc. cbn. rewrite Hres. cbn.
  unfold buf_put, at_put, set_length.
  destruct str as [m|]; destruct (chars_ s1) as [b|]; cbn; try discriminate.
  - destruct (memcpy b 0 (Some m) n) as [b'| |]; cbn; try discriminate.
    destruct (wr b' n kNullChar); cbn; try discriminate. intros [= <-]. reflexivity.
  - destruct (wr b 0 kNullChar) as [b'| |]; cbn; try discriminate.
    destruct (wr b' n kNullChar); cbn; try discriminate. intros [= <-]. reflexivity.
Qed.

End GrowthPolicy.

(** X16. The first allocation of a string follows a closed form: assigning
    [n] bytes to a string that owns no buffer gives the capacity
    [max (12, n + 1)] plus a padding of 8 when [n < 4] and of [n]
    otherwise. *)
Theorem first_allocation_capacity (junk : Z → nat → Z) (str : cptr) (len n : Z) :
  CrString.calcLength str len = Ok n → 0 <= n < 2 ^ 62 → readable str n →
  ∃ s', CrString.assign junk CrString.empty_string str len = Ok s' ∧
        CrString.length_ s' = n ∧
        CrString.capacity_ s' = Z.max 12 (n + 1) + (if n <? 4 then 8 else n).
Proof.
  intros Hcalc Hn Hr.
  destruct (assign_ok junk CrString.empty_string str len n)
    as (b & Hassign & _); [apply Valid_empty|exact Hcalc|lia|exact Hr|cbn; lia|].
  eexists. split; [exact Hassign|]. split; [reflexivity|].
  assert (Hres : ∃ b1, CrString.resize junk CrString.empty_string n
                 = Ok (CrString.mk (Some b1) 0
                         (Z.max 12 (n + 1) + (if n <? 4 then 8 else n)))).
  { unfold CrString.resize, CrString.getGrowFactor, CrString.empty_string.
    cbn [CrString.length_ CrString.capacity_ CrString.chars_].
    rewrite Z.add_0_l, (wrap_small n) by (rewrite size_mod_eq; lia).
    destruct (n <? 0) eqn:E; [lia|].
    rewrite (wrap_small (n + 1)) by (rewrite size_mod_eq; lia).
    change (0 =? 0) with true. cbv iota.
    rewrite grow_loop_done by lia. cbn [mbind res_bind].
    rewrite (wrap_small (Z.max 12 (n + 1) + _))
      by (rewrite size_mod_eq; destruct (n <? 4); lia).
    rewrite Z.add_0_r.
    rewrite (wrap_small (Z.max 12 (n + 1) + _))
      by (rewrite size_mod_eq; destruct (n <? 4); lia).
    rewrite wr_ok; [cbn [mbind res_bind]; eauto|].
    rewrite makeUnique_length. destruct (n <? 4); lia. }
  destruct Hres as (b1 & Hres).
  apply (assign_capacity junk _ _ _ _ _ _ Hcalc Hres Hassign).
Qed.

Lemma first_allocation_capacity_witness :
  ∃ s', CrString.assign (fun _ _ => 0) CrString.empty_string (Some (cstr "hello")) 0 = Ok s' ∧
        CrString.length_ s' = 5 ∧
        CrString.capacity_ s' = Z.max 12 (5 + 1) + (if 5 <? 4 then 8 else 5).
Proof.
  apply (first_allocation_capacity (fun _ _ => 0) (Some (cstr "hello")) 0 5).
  - reflexivity.
  - lia.
  - cbn. lia.
Defined.

(** X17. [resize] keeps the length and the content, never lowers the
    capacity, and leaves room for [amount] more bytes and a terminator;
    when they already fit it changes nothing. *)
Theorem resize_keeps_content (junk : Z → nat → Z) (s : CrString.t) (amount : Z) :
  CrString.Valid s → 0 <= amount → CrString.length_ s + amount < 2 ^ 62 →
  ∃ s', CrString.resize junk s amount = Ok s' ∧ CrString.Valid s' ∧
        CrString.length_ s' = CrString.length_ s ∧
        CrString.content s' = CrString.content s ∧
        CrString.capacity_ s <= CrString.capacity_ s' ∧
        CrString.length_ s + amount < CrString.capacity_ s' ∧
        (CrString.length_ s + amount < CrString.capacity_ s → s' = s).
Proof.
  intros HV Ha Hb.
  destruct (resize_ok junk s amount HV Ha Hb) as (b & Hres & H1 & H2 & H3 & H4).
  assert (H0 : 0 <= CrString.length_ s) by (destruct HV; lia).
  eexists. split; [exact Hres|]. cbn.
  split; [apply Valid_owned; lia|]. split; [reflexivity|].
  split; [unfold CrString.content at 1; cbn; exact H4|].
  split; [lia|]. split; [lia|].
  intros Hfit. unfold CrString.resize in Hres.
  rewrite wrap_small in Hres by (rewrite size_mod_eq; lia).
  destruct (CrString.length_ s + amount <? CrString.capacity_ s) eqn:E; [|lia].
  injection Hres as <-. reflexivity.
Qed.

Lemma resize_keeps_content_witness :
  ∃ s', CrString.resize (fun _ _ => 0) (CrString.mk (Some (cstr "hello")) 5 6) 10 = Ok s' ∧
        CrString.Valid s' ∧
        CrString.length_ s' = 5 ∧
        CrString.content s' = CrString.content (CrString.mk (Some (cstr "hello")) 5 6) ∧
        6 <= CrString.capacity_ s' ∧
        5 + 10 < CrString.capacity_ s' ∧
        (5 + 10 < 6 → s' = CrString.mk (Some (cstr "hello")) 5 6).
Proof.
  apply (resize_keeps_content (fun _ _ => 0) (CrString.mk (Some (cstr "hello")) 5 6) 10).
  - unfold CrString.Valid. cbn. lia.
  - lia.
  - cbn. lia.
Defined.

(** X18. [clear] empties the string: the result holds no bytes, is
    terminated, and has at least the capacity the string had. *)
Theorem clear_empties (junk : Z → nat → Z) (s : CrString.t) :
  CrString.Valid s → CrString.length_ s < 2 ^ 62 →
  ∃ s', CrString.clear junk s = Ok s' ∧ CrString.Valid s' ∧
        CrString.length_ s' = 0 ∧ CrString.content s' = [] ∧
        CrString.terminated s' ∧ CrString.capacity_ s <= CrString.capacity_ s'.
Proof.
  intros HV Hb. unfold CrString.clear.
  destruct (assign_ok junk s (Some [0; 0]) 0 0) as (b & -> & H1 & H2 & H3 & H4 & H5);
    [exact HV|reflexivity|lia|cbn; lia|lia|].
  eexists. split; [reflexivity|]. cbn.
  split; [apply Valid_owned; lia|]. split; [reflexivity|].
  split; [unfold CrString.content; cbn; apply take_0|].
  split; [|lia].
  unfold CrString.terminated, CrString.at_, CrString.chars, rdp, rd. cbn.
  cbn in H5. rewrite H5. reflexivity.
Qed.

Lemma clear_empties_witness :
  ∃ s', CrString.clear (fun _ _ => 0) (CrString.mk (Some (cstr "hello")) 5 6) = Ok s' ∧
        CrString.Valid s' ∧
        CrString.length_ s' = 0 ∧ CrString.content s' = [] ∧
        CrString.terminated s' ∧ 6 <= CrString.capacity_ s'.
Proof.
  apply (clear_empties (fun _ _ => 0) (CrString.mk (Some (cstr "hello")) 5 6)).
  - unfold CrString.Valid. cbn. lia.
  - cbn. lia.
Defined.

(** ** What [insert] does to the content *)

(** One round of the loop of [insert] that moves the tail up, on the array:
    the byte at [K + m] goes to [K + m + n]. *)
Lemma shift_right_step (b : list Z) (K m n : nat) (c : Z) :
  b !! (K + m)%nat = Some c → (1 <= n)%nat → (K + m + n < length b)%nat →
  (take (K + n) (<[K + m + n := c]> b)
     ++ take m (drop K (<[K + m + n := c]> b))
     ++ drop (K + m + n) (<[K + m + n := c]> b)
   = take (K + n) b ++ take (S m) (drop K b) ++ drop (S (K + m + n)) b)%nat.
Proof.
  intros Hc Hn Hlen.
  rewrite take_insert_ge by lia.
  rewrite drop_insert_ge by lia.
  rewrite take_insert_ge by lia.
  rewrite (drop_S (<[(K + m + n)%nat := c]> b) c (K + m + n))
    by (apply list_lookup_insert_eq; lia).
  rewrite drop_insert_lt by lia.
  rewrite (take_S_r (drop K b) m c) by (rewrite lookup_drop; exact Hc).
  rewrite <- !app_assoc. reflexivity.
Qed.

(** One round of the loop of [insert] that writes the new bytes. *)
Lemma write_step (b vc : list Z) (I j n : nat) (c : Z) :
  vc !! j = Some c → (I + j < length b)%nat →
  (take (S (I + j)) (<[I + j := c]> b) ++ take n (drop (S j) vc)
     ++ drop (S (I + j) + n) (<[I + j := c]> b)
   = take (I + j) b ++ take (S n) (drop j vc) ++ drop (I + j + S n) b)%nat.
Proof.
  intros Hc Hlen.
  rewrite (take_S_r _ (I + j) c) by (apply list_lookup_insert_eq; exact Hlen).
  rewrite take_insert_ge by lia.
  rewrite drop_insert_lt by lia.
  rewrite (drop_S vc c j) by exact Hc.
  rewrite firstn_cons, <- app_assoc. cbn [app].
  replace (I + j + S n)%nat with (S (I + j) + n)%nat by lia.
  reflexivity.
Qed.

Section InsertContent.

Import CrString.

Variable junk : Z → nat → Z.

(** The first loop of [insert] moves [m] bytes up by [n], from the top. *)
Lemma insert_shift_buf (n : Z) (m : nat) :
  ∀ (i : Z) (b : list Z) (L C : Z),
    1 <= n → Z.of_nat m <= i → i + n <= Z.of_nat (length b) → i + n < 2 ^ 62 →
    iter_down m i
      (fun i s => c ← at_ s (wrap (i - 1)); at_put s (wrap (wrap (i + n) - 1)) c)
      (mk (Some b) L C)
    = Ok (mk (Some (take (Z.to_nat (i - Z.of_nat m + n)) b
                      ++ take m (drop (Z.to_nat (i - Z.of_nat m)) b)
                      ++ drop (Z.to_nat (i + n)) b)) L C).
Proof.
  induction m as [|m IH]; intros i b L C Hn Hm Hfit Hmax; cbn [iter_down].
  - rewrite take_0. cbn [app]. rewrite Z.sub_0_r, take_drop. reflexivity.
  - rewrite (wrap_small (i - 1)) by (rewrite size_mod_eq; lia).
    rewrite (wrap_small (i + n)) by (rewrite size_mod_eq; lia).
    rewrite (wrap_small (i + n - 1)) by (rewrite size_mod_eq; lia).
    rewrite at_mk.
    destruct (rd_ok b (i - 1)) as (c & -> & Hlook); [lia|].
    cbn [mbind res_bind]. rewrite at_put_mk, wr_ok by lia. cbn [mbind res_bind].
    rewrite IH by (rewrite ?length_insert; lia).
    do 3 f_equal.
    set (K := Z.to_nat (i - Z.of_nat (S m))).
    replace (Z.to_nat (i - 1 - Z.of_nat m + n)) with (K + Z.to_nat n)%nat by lia.
    replace (Z.to_nat (i - 1 - Z.of_nat m)) with K by lia.
    replace (Z.to_nat (i + n - 1)) with (K + m + Z.to_nat n)%nat by lia.
    replace (Z.to_nat (i - 1 + n)) with (K + m + Z.to_nat n)%nat by lia.
    replace (Z.to_nat (i - Z.of_nat (S m) + n)) with (K + Z.to_nat n)%nat by lia.
    replace (Z.to_nat (i + n)) with (S (K + m + Z.to_nat n)) by lia.
    replace (Z.to_nat (i - 1)) with (K + m)%nat in Hlook by lia.
    apply shift_right_step; [exact Hlook|lia|lia].
Qed.

(** The second loop of [insert] writes [m] bytes of the view at [index]. *)
Lemma insert_write_buf (v : StringRef.t) (vm : list Z) (index : Z) (m : nat) :
  StringRef.chars_ v = Some vm →
  ∀ (j : Z) (b : list Z) (L C : Z),
    0 <= index → 0 <= j → j + Z.of_nat m <= Z.of_nat (length vm) →
    index + j + Z.of_nat m <= Z.of_nat (length b) → index + j + Z.of_nat m < 2 ^ 62 →
    iter_up m j
      (fun i s => c ← StringRef.at_ v i; at_put s (wrap (i + index)) c)
      (mk (Some b) L C)
    = Ok (mk (Some (take (Z.to_nat (index + j)) b
                      ++ take m (drop (Z.to_nat j) vm)
                      ++ drop (Z.to_nat (index + j) + m) b)) L C).
Proof.
  intros Hv. induction m as [|m IH]; intros j b L C Hi Hj Hvm Hfit Hmax; cbn [iter_up].
  - rewrite take_0, Nat.add_0_r. cbn [app]. rewrite take_drop. reflexivity.
  - assert (Hat : StringRef.at_ v j = rd vm j)
      by (unfold StringRef.at_; rewrite Hv; reflexivity).
    rewrite Hat.
    destruct (rd_ok vm j) as (c & -> & Hlook); [lia|].
    cbn [mbind res_bind].
    rewrite (wrap_small (j + index)) by (rewrite size_mod_eq; lia).
    rewrite at_put_mk, wr_ok by lia. cbn [mbind res_bind].
    rewrite IH by (rewrite ?length_insert; lia).
    do 3 f_equal.
    replace (Z.to_nat (index + (j + 1))) with (S (Z.to_nat index + Z.to_nat j)) by lia.
    replace (Z.to_nat (j + 1)) with (S (Z.to_nat j)) by lia.
    replace (Z.to_nat (j + index)) with (Z.to_nat index + Z.to_nat j)%nat by lia.
    replace (Z.to_nat (index + j)) with (Z.to_nat index + Z.to_nat j)%nat by lia.
    apply write_step; [exact Hlook|lia].
Qed.

(** [insert] of a non-empty view puts its bytes at [index], or at the end
    when [index] is beyond it. *)
Lemma insert_content (s : t) (index : Z) (v : StringRef.t) :
  Valid s → StringRef.Valid v → 0 < StringRef.length_ v → 0 <= index →
  2 * length_ s + StringRef.length_ v < 2 ^ 62 →
  ∃ s', insert junk s index v = Ok (true, s') ∧ Valid s' ∧
        length_ s' = length_ s + StringRef.length_ v ∧
        content s' = take (Z.to_nat index) (content s) ++ StringRef.content v
                       ++ drop (Z.to_nat index) (content s).
Proof.
  intros HV [Hvl Hvr] Hn Hi Hmax.
  assert (H0 : 0 <= length_ s) by (destruct HV; lia).
  pose proof (content_length s HV) as Hclen.
  unfold insert. set (n := StringRef.length_ v) in *.
  unfold StringRef.empty. fold n. destruct (n =? 0) eqn:E0; [lia|].
  destruct (index >=? length_ s) eqn:E.
  - destruct (append_ok junk s (StringRef.chars_ v) n n)
      as (b & -> & Hb1 & Hb2 & Hb3 & Hb4 & Hb5); [exact HV| |lia|exact Hvr|lia|].
    { unfold calcLength. destruct (n >? 0) eqn:E1; [reflexivity|lia]. }
    cbn [mbind res_bind]. eexists. split; [reflexivity|]. cbn [length_].
    split; [apply Valid_owned; lia|]. split; [reflexivity|].
    unfold content at 1. cbn [chars_ length_]. rewrite Hb4.
    rewrite take_ge by lia. rewrite drop_ge by lia. rewrite app_nil_r. reflexivity.
  - rewrite (wrap_small (length_ s + n)) by (rewrite size_mod_eq; lia).
    destruct (resize_ok junk s (length_ s + n)) as (b & -> & Hb1 & Hb2 & Hb3 & Hb4);
      [exact HV|lia|lia|].
    cbn [mbind res_bind length_].
    rewrite insert_shift_buf by lia. cbn [mbind res_bind].
    destruct (StringRef.chars_ v) as [vm|] eqn:Hvm; cbn in Hvr; [|lia].
    rewrite (insert_write_buf v vm index (Z.to_nat n) Hvm)
      by (rewrite ?length_app, ?length_take, ?length_drop; lia).
    cbn [mbind res_bind]. eexists. split; [reflexivity|].
    unfold set_length. cbn [chars_ length_ capacity_].
    rewrite (wrap_small (length_ s + n)) by (rewrite size_mod_eq; lia).
    set (L := length_ s) in *.
    set (X := take (Z.to_nat (L - Z.of_nat (Z.to_nat (L - index)) + n)) b
                ++ take (Z.to_nat (L - index))
                     (drop (Z.to_nat (L - Z.of_nat (Z.to_nat (L - index)))) b)
                ++ drop (Z.to_nat (L + n)) b).
    assert (HX : length X = length b).
    { subst X. rewrite !length_app, !length_take, !length_drop. lia. }
    split; [|split; [reflexivity|]].
    + unfold Valid. cbn.
      rewrite !length_app, !length_take, !length_drop, HX.
      assert (Z.to_nat n <= length vm)%nat by lia.
      split; [lia|]. split; [lia|]. right. lia.
    + unfold content at 1. cbn [chars_ length_].
      unfold StringRef.content. rewrite Hvm. fold n.
      rewrite Z.add_0_r. change (Z.to_nat 0) with 0%nat. rewrite drop_0.
      replace (Z.to_nat (L + n)) with (Z.to_nat index + (Z.to_nat n + Z.to_nat (L - index)))%nat
        by lia.
      assert (Htk : length (take (Z.to_nat index) X) = Z.to_nat index)
        by (rewrite length_take; lia).
      assert (Htv : length (take (Z.to_nat n) vm) = Z.to_nat n)
        by (rewrite length_take; lia).
      rewrite <- Htk at 1. rewrite take_app_add.
      rewrite <- Htv at 1. rewrite take_app_add.
      f_equal; [|f_equal].
      * subst X. rewrite take_app_le by (rewrite length_take; lia).
        rewrite take_take, <- Hb4, take_take. f_equal. lia.
      * subst X.
        replace (Z.to_nat (L - Z.of_nat (Z.to_nat (L - index)) + n))
          with (Z.to_nat index + Z.to_nat n)%nat by lia.
        replace (Z.to_nat (L - Z.of_nat (Z.to_nat (L - index)))) with (Z.to_nat index) by lia.
        rewrite drop_app_length' by (rewrite length_take; lia).
        rewrite take_app_length' by (rewrite length_take, length_drop; lia).
        rewrite <- Hb4, skipn_firstn_comm. f_equal. lia.
Qed.

End InsertContent.

(** X19. [insert] of a non-empty readable view returns true and puts the
    bytes of the view at [index], the old bytes from [index] on following
    them; an [index] beyond the end appends. The length grows by the length
    of the view. *)
Theorem insert_places_bytes (junk : Z → nat → Z) (s : CrString.t) (index : Z)
    (v : StringRef.t) :
  CrString.Valid s → StringRef.Valid v → 0 < StringRef.length_ v → 0 <= index →
  2 * CrString.length_ s + StringRef.length_ v < 2 ^ 62 →
  ∃ s', CrString.insert junk s index v = Ok (true, s') ∧ CrString.Valid s' ∧
        CrString.length_ s' = CrString.length_ s + StringRef.length_ v ∧
        CrString.content s'
        = take (Z.to_nat index) (CrString.content s) ++ StringRef.content v
            ++ drop (Z.to_nat index) (CrString.content s).
Proof. apply insert_content. Qed.

Lemma insert_places_bytes_witness :
  ∃ s', CrString.insert (fun _ _ => 0) (CrString.mk (Some (cstr "held")) 4 5) 3
          (StringRef.lit "lo wor") = Ok (true, s') ∧
        CrString.Valid s' ∧
        CrString.length_ s' = 4 + 6 ∧
        CrString.content s'
        = take (Z.to_nat 3) (bytes "held") ++ bytes "lo wor" ++ drop (Z.to_nat 3) (bytes "held").
Proof.
  apply (insert_places_bytes (fun _ _ => 0) (CrString.mk (Some (cstr "held")) 4 5) 3
           (StringRef.lit "lo wor")).
  - unfold CrString.Valid. cbn. lia.
  - unfold StringRef.Valid. cbn. lia.
  - cbn. lia.
  - lia.
  - cbn. lia.
Defined.

(** X20. When [index + count] does not wrap, [erase] either rejects the
    span, returning false and the string as it was, or removes exactly the
    [count] bytes at [index], lowers the length by [count] and keeps the
    capacity. *)
Theorem erase_span (s : CrString.t) (index count : Z) :
  CrString.Valid s → CrString.length_ s < 2 ^ 62 → 0 <= index → 0 <= count →
  index + count < 2 ^ 64 →
  (CrString.length_ s < index + count → CrString.erase s index count = Ok (false, s)) ∧
  (index + count <= CrString.length_ s →
   ∃ s', CrString.erase s index count = Ok (true, s') ∧
         CrString.content s'
         = take (Z.to_nat index) (CrString.content s)
             ++ drop (Z.to_nat (index + count)) (CrString.content s) ∧
         CrString.length_ s' = CrString.length_ s - count ∧
         CrString.capacity_ s' = CrString.capacity_ s).
Proof.
  intros HV Hmax Hi Hc Hsum. split.
  - intros Hout. unfold CrString.erase.
    rewrite wrap_small by (rewrite size_mod_eq; lia).
    destruct (index + count >? CrString.length_ s) eqn:E; [reflexivity|lia].
  - intros Hfit. apply erase_content; assumption.
Qed.

Lemma erase_span_witness :
  (5 < 1 + 3 → CrString.erase (CrString.mk (Some (cstr "hello")) 5 6) 1 3
               = Ok (false, CrString.mk (Some (cstr "hello")) 5 6)) ∧
  (1 + 3 <= 5 →
   ∃ s', CrString.erase (CrString.mk (Some (cstr "hello")) 5 6) 1 3 = Ok (true, s') ∧
         CrString.content s'
         = take (Z.to_nat 1) (bytes "hello") ++ drop (Z.to_nat (1 + 3)) (bytes "hello") ∧
         CrString.length_ s' = 5 - 3 ∧
         CrString.capacity_ s' = 6).
Proof.
  apply (erase_span (CrString.mk (Some (cstr "hello")) 5 6) 1 3).
  - unfold CrString.Valid. cbn. lia.
  - cbn. lia.
  - lia.
  - lia.
  - lia.
Defined.

(** X21. [insert] at an index inside the string followed by [erase] of the
    same span gives back the content and the length; after an [insert]
    beyond the end, which appends, the same [erase] is rejected. *)
Theorem insert_then_erase (junk : Z → nat → Z) (s : CrString.t) (index : Z)
    (v : StringRef.t) :
  CrString.Valid s → StringRef.Valid v → 0 < StringRef.length_ v →
  0 <= index < 2 ^ 62 →
  2 * CrString.length_ s + StringRef.length_ v < 2 ^ 62 →
  ∃ s1, CrString.insert junk s index v = Ok (true, s1) ∧
        (index <= CrString.length_ s →
         ∃ s2, CrString.erase s1 index (StringRef.length_ v) = Ok (true, s2) ∧
               CrString.content s2 = CrString.content s ∧
               CrString.length_ s2 = CrString.length_ s) ∧
        (CrString.length_ s < index →
         CrString.erase s1 index (StringRef.length_ v) = Ok (false, s1)).
Proof.
  intros HV HVv Hn Hi Hmax. pose proof HVv as [Hvl _].
  assert (H0 : 0 <= CrString.length_ s) by (destruct HV; lia).
  pose proof (content_length s HV) as Hclen.
  pose proof (view_content_length v HVv) as Hvlen.
  destruct (insert_content junk s index v HV HVv Hn) as (s1 & Hins & HV1 & HL1 & HC1);
    [lia|lia|].
  exists s1. split; [exact Hins|]. split.
  - intros Hle.
    destruct (erase_content s1 index (StringRef.length_ v)) as (s2 & Her & HC2 & HL2 & _);
      [exact HV1|lia|lia|lia|lia|].
    exists s2. split; [exact Her|]. split; [|lia].
    rewrite HC2, HC1.
    rewrite take_app_le by (rewrite length_take; lia).
    rewrite take_take.
    replace (Z.to_nat (index + StringRef.length_ v))
      with (length (take (Z.to_nat index) (CrString.content s))
            + length (StringRef.content v))%nat
      by (rewrite length_take; lia).
    rewrite app_assoc, <- length_app, drop_app_length.
    replace (Z.to_nat index `min` Z.to_nat index)%nat with (Z.to_nat index) by lia.
    apply take_drop.
  - intros Hgt. unfold CrString.erase.
    rewrite wrap_small by (rewrite size_mod_eq; lia).
    destruct (index + StringRef.length_ v >? CrString.length_ s1) eqn:E; [reflexivity|lia].
Qed.

Lemma insert_then_erase_witness :
  ∃ s1, CrString.insert (fun _ _ => 0) (CrString.mk (Some (cstr "held")) 4 5) 3
          (StringRef.lit "lo wor") = Ok (true, s1) ∧
        (3 <= 4 →
         ∃ s2, CrString.erase s1 3 6 = Ok (true, s2) ∧
               CrString.content s2 = bytes "held" ∧
               CrString.length_ s2 = 4) ∧
        (4 < 3 → CrString.erase s1 3 6 = Ok (false, s1)).
Proof.
  apply (insert_then_erase (fun _ _ => 0) (CrString.mk (Some (cstr "held")) 4 5) 3
           (StringRef.lit "lo wor")).
  - unfold CrString.Valid. cbn. lia.
  - unfold StringRef.Valid. cbn. lia.
  - cbn. lia.
  - lia.
  - cbn. lia.
Defined.

(** ** Case conversion and trimming *)

Lemma map_step (f : Z → Z) (b : list Z) (j m : nat) (c : Z) :
  b !! j = Some c →
  (take (S j) (<[j := f c]> b) ++ map f (take m (drop (S j) (<[j := f c]> b)))
     ++ drop (S j + m) (<[j := f c]> b)
   = take j b ++ map f (take (S m) (drop j b)) ++ drop (j + S m) b)%nat.
Proof.
  intros Hc. pose proof (lookup_lt_Some _ _ _ Hc) as Hlt.
  rewrite (take_S_r _ j (f c)) by (apply list_lookup_insert_eq; exact Hlt).
  rewrite take_insert_ge by lia.
  rewrite !drop_insert_lt by lia.
  rewrite (drop_S b c j) by exact Hc.
  rewrite firstn_cons, <- app_assoc. cbn [map app].
  replace (j + S m)%nat with (S j + m)%nat by lia.
  reflexivity.
Qed.

Section CaseFacts.

Import CrString.

Lemma map_chars_buf (f : Z → Z) (m : nat) :
  ∀ (j : Z) (b : list Z) (L C : Z),
    0 <= j → j + Z.of_nat m <= Z.of_nat (length b) →
    iter_up m j (fun i s => c ← at_ s i; at_put s i (f c)) (mk (Some b) L C)
    = Ok (mk (Some (take (Z.to_nat j) b
                      ++ map f (take m (drop (Z.to_nat j) b))
                      ++ drop (Z.to_nat j + m) b)) L C).
Proof.
  induction m as [|m IH]; intros j b L C Hj Hfit; cbn [iter_up].
  - rewrite take_0, Nat.add_0_r. cbn [map app]. rewrite take_drop. reflexivity.
  - rewrite at_mk.
    destruct (rd_ok b j) as (c & -> & Hlook); [lia|].
    cbn [mbind res_bind]. rewrite at_put_mk, wr_ok by lia. cbn [mbind res_bind].
    rewrite IH by (rewrite ?length_insert; lia).
    do 3 f_equal.
    replace (Z.to_nat (j + 1)) with (S (Z.to_nat j)) by lia.
    apply map_step. exact Hlook.
Qed.

(** The loop over the bytes of a string applies [f] to each byte of the
    content and touches nothing else. *)
Lemma map_chars_content (f : Z → Z) (s : t) :
  Valid s →
  ∃ s', map_chars f s = Ok s' ∧ Valid s' ∧
        content s' = map f (content s) ∧
        length_ s' = length_ s ∧ capacity_ s' = capacity_ s ∧
        at_ s' (length_ s') = at_ s (length_ s).
Proof.
  intros HV. unfold map_chars.
  destruct s as [[b|] L C]; destruct HV as [H0 HV]; cbn [chars_ length_ capacity_] in *.
  - destruct HV as [Hlen Hcap].
    rewrite map_chars_buf by lia. eexists. split; [reflexivity|].
    change (Z.to_nat 0) with 0%nat. rewrite take_0, drop_0. cbn [app Nat.add].
    assert (Hl : length (map f (take (Z.to_nat L) b)) = Z.to_nat L)
      by (rewrite length_map, length_take; lia).
    split; [|split; [|split; [reflexivity|split; [reflexivity|]]]].
    + unfold Valid. cbn. rewrite length_app, Hl, length_drop. lia.
    + unfold content. cbn. rewrite take_app_length' by (symmetry; exact Hl). reflexivity.
    + unfold at_, chars, rdp, rd. cbn.
      destruct (L <? 0) eqn:E; [reflexivity|].
      rewrite lookup_app_r by lia. rewrite Hl, Nat.sub_diag, lookup_drop, Nat.add_0_r.
      reflexivity.
  - destruct HV as [-> ->]. cbn. eexists. split; [reflexivity|].
    split; [unfold Valid; cbn; lia|]. auto.
Qed.

End CaseFacts.

(** X22. [lowercase] and [uppercase] apply the C library's conversion to
    each byte of the content and to nothing else: the length, the capacity
    and the byte at position [length] stay as they are, so a terminated
    string stays terminated. *)
Theorem case_conversion_maps_content (lower upper : Z → Z) (s : CrString.t) :
  CrString.Valid s →
  (∃ s', CrString.lowercase lower s = Ok s' ∧ CrString.Valid s' ∧
         CrString.content s' = map lower (CrString.content s) ∧
         CrString.length_ s' = CrString.length_ s ∧
         CrString.capacity_ s' = CrString.capacity_ s ∧
         (CrString.terminated s → CrString.terminated s')) ∧
  (∃ s', CrString.uppercase upper s = Ok s' ∧ CrString.Valid s' ∧
         CrString.content s' = map upper (CrString.content s) ∧
         CrString.length_ s' = CrString.length_ s ∧
         CrString.capacity_ s' = CrString.capacity_ s ∧
         (CrString.terminated s → CrString.terminated s')).
Proof.
  intros HV. unfold CrString.lowercase, CrString.uppercase. split.
  - destruct (map_chars_content lower s HV) as (s' & H1 & H2 & H3 & H4 & H5 & H6).
    exists s'. do 5 (split; [assumption|]).
    unfold CrString.terminated. intros Ht. rewrite H6. exact Ht.
  - destruct (map_chars_content upper s HV) as (s' & H1 & H2 & H3 & H4 & H5 & H6).
    exists s'. do 5 (split; [assumption|]).
    unfold CrString.terminated. intros Ht. rewrite H6. exact Ht.
Qed.

Lemma case_conversion_maps_content_witness :
  (∃ s', CrString.lowercase (fun b => if (65 <=? b) && (b <=? 90) then b + 32 else b)
           (CrString.mk (Some (cstr "Hi")) 2 3) = Ok s' ∧ CrString.Valid s' ∧
         CrString.content s'
         = map (fun b => if (65 <=? b) && (b <=? 90) then b + 32 else b) (bytes "Hi") ∧
         CrString.length_ s' = 2 ∧
         CrString.capacity_ s' = 3 ∧
         (CrString.terminated (CrString.mk (Some (cstr "Hi")) 2 3) → CrString.terminated s')) ∧
  (∃ s', CrString.uppercase (fun b => if (97 <=? b) && (b <=? 122) then b - 32 else b)
           (CrString.mk (Some (cstr "Hi")) 2 3) = Ok s' ∧ CrString.Valid s' ∧
         CrString.content s'
         = map (fun b => if (97 <=? b) && (b <=? 122) then b - 32 else b) (bytes "Hi") ∧
         CrString.length_ s' = 2 ∧
         CrString.capacity_ s' = 3 ∧
         (CrString.terminated (CrString.mk (Some (cstr "Hi")) 2 3) → CrString.terminated s')).
Proof.
  apply (case_conversion_maps_content
           (fun b => if (65 <=? b) && (b <=? 90) then b + 32 else b)
           (fun b => if (97 <=? b) && (b <=? 122) then b - 32 else b)
           (CrString.mk (Some (cstr "Hi")) 2 3)).
  unfold CrString.Valid. cbn. lia.
Defined.

Section TrimFacts.

Import CrString.

Variable junk : Z → nat → Z.

Lemma str_valid (s : t) : Valid s → length_ s < 2 ^ 62 → StringRef.Valid (str s).
Proof.
  intros [H0 HV] Hmax. unfold StringRef.Valid, str. cbn.
  split; [lia|]. destruct (chars_ s); cbn; lia.
Qed.

Lemma at_str (s : t) (i : Z) :
  Valid s → 0 <= i < length_ s → at_ s i = StringRef.at_ (str s) i.
Proof.
  intros [H0 HV] Hi. unfold at_, StringRef.at_, chars, str. cbn.
  destruct (chars_ s); [reflexivity|lia].
Qed.

Lemma substr_chars (v sv : StringRef.t) (start count : Z) :
  StringRef.substr v start count = Ok sv →
  ptr_add (StringRef.chars_ v) (Z.min start (StringRef.length_ v))
  = Ok (StringRef.chars_ sv).
Proof.
  unfold StringRef.substr.
  destruct (ptr_add _ _) as [p| |]; cbn; try discriminate.
  intros [= <-]. reflexivity.
Qed.

(** [String (StringRef)] copies a view of at least one byte; an empty view
    is copied as empty when it points at nothing or at a zero byte. *)
Lemma of_ref_content (sv : StringRef.t) :
  StringRef.Valid sv →
  (0 < StringRef.length_ sv ∨ StringRef.chars_ sv = None
   ∨ ∃ m, StringRef.chars_ sv = Some (0 :: m)) →
  ∃ s', of_ref junk sv = Ok s' ∧ Valid s' ∧ terminated s' ∧
        content s' = StringRef.content sv.
Proof.
  intros [Hl Hr] Hcase. unfold of_ref.
  set (n := StringRef.length_ sv) in *.
  assert (Hcalc : calcLength (StringRef.chars_ sv) n = Ok n).
  { unfold calcLength. destruct (n >? 0) eqn:E; [reflexivity|].
    destruct Hcase as [H|[->|[m ->]]]; [lia|f_equal; lia|].
    cbn. f_equal. lia. }
  destruct (assign_terminated junk empty_string (StringRef.chars_ sv) n n)
    as (s' & Hs' & HV' & Ht & Hc); [apply Valid_empty|exact Hcalc|lia|exact Hr|cbn; lia|].
  exists s'. repeat split; try assumption; apply HV'.
Qed.

(** A terminated string shows a zero byte, or nothing, at its end. *)
Lemma end_of_terminated (s : t) (p : cptr) :
  Valid s → terminated s → ptr_add (chars_ s) (length_ s) = Ok p →
  p = None ∨ ∃ m, p = Some (0 :: m).
Proof.
  intros [H0 HV] Ht Hp. unfold terminated, at_, chars in Ht.
  destruct (chars_ s) as [b|]; cbn in Hp.
  - destruct ((0 <=? length_ s) && (length_ s <=? Z.of_nat (length b))); [|discriminate].
    injection Hp as <-. right. cbn in Ht. unfold rd in Ht.
    destruct (length_ s <? 0); [discriminate|].
    destruct (b !! Z.to_nat (length_ s)) as [c|] eqn:Hc; [|discriminate].
    injection Ht as ->. exists (drop (S (Z.to_nat (length_ s))) b).
    f_equal. apply drop_S. exact Hc.
  - destruct (length_ s =? 0); [|discriminate]. injection Hp as <-. auto.
Qed.

End TrimFacts.

(** X23. [ltrim] of a terminated string removes exactly its leading bytes
    that belong to the set: the result is the content from the first byte
    outside the set on, and empty when every byte belongs to it. *)
Theorem ltrim_drops_leading (junk : Z → nat → Z) (s : CrString.t) (cs : StringRef.t) :
  CrString.Valid s → CrString.length_ s < 2 ^ 62 → CrString.terminated s →
  StringRef.Valid cs →
  ∃ s' k, CrString.ltrim junk s cs = Ok s' ∧ CrString.Valid s' ∧
          CrString.terminated s' ∧
          0 <= k <= CrString.length_ s ∧
          (∀ j, 0 <= j < k → (StringRef.byte_at (CrString.str s) j ∈ StringRef.content cs)) ∧
          (k < CrString.length_ s →
           (StringRef.byte_at (CrString.str s) k ∉ StringRef.content cs)) ∧
          CrString.content s' = drop (Z.to_nat k) (CrString.content s).
Proof.
  intros HV Hmax Ht HC.
  assert (H0 : 0 <= CrString.length_ s) by (destruct HV; lia).
  pose proof (str_valid s HV Hmax) as HVs.
  unfold CrString.ltrim.
  destruct (for_up_search
    (fun i =>
       c ← CrString.at_ s i;
       q ← StringRef.find_char cs c 0;
       Ok (if q =? InvalidIndex then Some i else None))
    (fun i => bool_decide (StringRef.byte_at (CrString.str s) i ∉ StringRef.content cs))
    (Z.to_nat (CrString.length_ s)) 0) as (r & -> & Hr).
  { intros j Hj. rewrite (at_str s j HV) by lia.
    destruct (at_content (CrString.str s) j HVs) as [-> _]; [cbn; lia|]. cbn.
    destruct (find_char_member cs (StringRef.byte_at (CrString.str s) j) HC)
      as (q & -> & Hq). cbn.
    destruct (q =? InvalidIndex) eqn:E.
    - rewrite bool_decide_eq_true_2; [reflexivity|]. apply Hq. lia.
    - rewrite bool_decide_eq_false_2; [reflexivity|]. intros Hn. apply Hq in Hn. lia. }
  cbn [mbind res_bind].
  set (k := default (CrString.length_ s) r).
  assert (Hk : 0 <= k <= CrString.length_ s ∧
               (∀ j, 0 <= j < k →
                     (StringRef.byte_at (CrString.str s) j ∈ StringRef.content cs)) ∧
               (k < CrString.length_ s →
                (StringRef.byte_at (CrString.str s) k ∉ StringRef.content cs))).
  { subst k. destruct r as [q|]; cbn.
    - destruct Hr as (Hq & Hfq & Hbefore). apply bool_decide_eq_true in Hfq.
      split; [lia|]. split; [|intros _; exact Hfq].
      intros j Hj. specialize (Hbefore j Hj). apply bool_decide_eq_false in Hbefore.
      destruct (decide (StringRef.byte_at (CrString.str s) j ∈ StringRef.content cs));
        [assumption|contradiction].
    - split; [lia|]. split; [|lia].
      intros j Hj. specialize (Hr j ltac:(lia)). apply bool_decide_eq_false in Hr.
      destruct (decide (StringRef.byte_at (CrString.str s) j ∈ StringRef.content cs));
        [assumption|contradiction]. }
  destruct Hk as (Hk & Hin & Hout).
  rewrite (wrap_small (CrString.length_ s - k)) by (rewrite size_mod_eq; lia).
  unfold CrString.substr.
  destruct (substr_slice (CrString.str s) k (CrString.length_ s - k) HVs)
    as (sv & Hsub & HVsv & Hlsv & Hcsv); [lia|lia|].
  rewrite Hsub. cbn [mbind res_bind].
  pose proof (substr_chars _ _ _ _ Hsub) as Hp. cbn in Hlsv, Hp.
  pose proof InvalidIndex_big as Hbig.
  destruct (CrString.length_ s - k =? InvalidIndex) eqn:Einv; [lia|].
  destruct (of_ref_content junk sv HVsv) as (s' & -> & HV' & Ht' & Hc').
  { destruct (Z.eq_dec k (CrString.length_ s)) as [->|Hne]; [right|left; lia].
    rewrite Z.min_id in Hp. apply (end_of_terminated s _ HV Ht Hp). }
  exists s', k. split; [reflexivity|]. do 2 (split; [assumption|]). split; [lia|].
  do 2 (split; [assumption|]).
  rewrite Hc', Hcsv. apply take_ge.
  pose proof (content_length s HV) as Hclen.
  change (StringRef.content (CrString.str s)) with (CrString.content s).
  rewrite length_drop. lia.
Qed.

Lemma ltrim_drops_leading_witness :
  ∃ s' k, CrString.ltrim (fun _ _ => 0) (CrString.mk (Some (cstr "  hi ")) 5 6)
            (StringRef.lit " ") = Ok s' ∧ CrString.Valid s' ∧
          CrString.terminated s' ∧
          0 <= k <= 5 ∧
          (∀ j, 0 <= j < k →
                (StringRef.byte_at (CrString.str (CrString.mk (Some (cstr "  hi ")) 5 6)) j
                 ∈ bytes " ")) ∧
          (k < 5 →
           (StringRef.byte_at (CrString.str (CrString.mk (Some (cstr "  hi ")) 5 6)) k
            ∉ bytes " ")) ∧
          CrString.content s' = drop (Z.to_nat k) (bytes "  hi ").
Proof.
  apply (ltrim_drops_leading (fun _ _ => 0) (CrString.mk (Some (cstr "  hi ")) 5 6)
           (StringRef.lit " ")).
  - unfold CrString.Valid. cbn. lia.
  - cbn. lia.
  - reflexivity.
  - unfold StringRef.Valid. cbn. lia.
Defined.

(** X24. [rtrim] of a terminated string without zero bytes cuts the content
    after its last byte outside the set; when every byte belongs to the set
    (or the string is empty) the whole content is kept, because the empty
    slice is built with length zero and measured again with [strlen]. *)
Theorem rtrim_cuts_after_last (junk : Z → nat → Z) (s : CrString.t) (cs : StringRef.t) :
  CrString.Valid s → CrString.length_ s < 2 ^ 62 → CrString.terminated s →
  0 ∉ CrString.content s → StringRef.Valid cs →
  ∃ s', CrString.rtrim junk s cs = Ok s' ∧ CrString.Valid s' ∧ CrString.terminated s' ∧
        ((∃ e, 1 <= e <= CrString.length_ s ∧
               (StringRef.byte_at (CrString.str s) (e - 1) ∉ StringRef.content cs) ∧
               (∀ j, e <= j < CrString.length_ s →
                     (StringRef.byte_at (CrString.str s) j ∈ StringRef.content cs)) ∧
               CrString.content s' = take (Z.to_nat e) (CrString.content s)) ∨
         ((∀ j, 0 <= j < CrString.length_ s →
                (StringRef.byte_at (CrString.str s) j ∈ StringRef.content cs)) ∧
          CrString.content s' = CrString.content s)).
Proof.
  intros HV Hmax Ht Hnz HC.
  assert (H0 : 0 <= CrString.length_ s) by (destruct HV; lia).
  pose proof (str_valid s HV Hmax) as HVs.
  pose proof (content_length s HV) as Hclen.
  unfold CrString.rtrim.
  destruct (for_down_search
    (fun i =>
       c ← CrString.at_ s (wrap (i - 1));
       q ← StringRef.find_char cs c 0;
       Ok (if q =? InvalidIndex then Some i else None))
    (fun i => bool_decide (StringRef.byte_at (CrString.str s) (i - 1) ∉ StringRef.content cs))
    (Z.to_nat (CrString.length_ s)) (CrString.length_ s)) as (r & -> & Hr).
  { intros j Hj. rewrite (wrap_small (j - 1)) by (rewrite size_mod_eq; lia).
    rewrite (at_str s (j - 1) HV) by lia.
    destruct (at_content (CrString.str s) (j - 1) HVs) as [-> _]; [cbn; lia|]. cbn.
    destruct (find_char_member cs (StringRef.byte_at (CrString.str s) (j - 1)) HC)
      as (q & -> & Hq). cbn.
    destruct (q =? InvalidIndex) eqn:E.
    - rewrite bool_decide_eq_true_2; [reflexivity|]. apply Hq. lia.
    - rewrite bool_decide_eq_false_2; [reflexivity|]. intros Hn. apply Hq in Hn. lia. }
  cbn [mbind res_bind]. unfold CrString.substr.
  pose proof InvalidIndex_big as Hbig.
  destruct r as [e|]; cbn [from_option]; unfold id.
  - destruct Hr as (He & Hfe & Hafter). apply bool_decide_eq_true in Hfe.
    destruct (substr_slice (CrString.str s) 0 e HVs) as (sv & Hsub & HVsv & Hlsv & Hcsv);
      [lia|lia|].
    rewrite Hsub. cbn [mbind res_bind]. cbn in Hlsv.
    destruct (e =? InvalidIndex) eqn:Einv; [lia|].
    destruct (of_ref_content junk sv HVsv) as (s' & -> & HV' & Ht' & Hc'); [left; lia|].
    exists s'. split; [reflexivity|]. do 2 (split; [assumption|]). left. exists e.
    split; [lia|]. split; [assumption|]. split.
    + intros j Hj. specialize (Hafter (j + 1) ltac:(lia)).
      apply bool_decide_eq_false in Hafter.
      replace (j + 1 - 1) with j in Hafter by lia.
      destruct (decide (StringRef.byte_at (CrString.str s) j ∈ StringRef.content cs));
        [assumption|contradiction].
    + rewrite Hc', Hcsv. change (Z.to_nat 0) with 0%nat. rewrite drop_0. reflexivity.
  - destruct (substr_slice (CrString.str s) 0 0 HVs) as (sv & Hsub & HVsv & Hlsv & Hcsv);
      [lia|lia|].
    rewrite Hsub. cbn [mbind res_bind].
    pose proof (substr_chars _ _ _ _ Hsub) as Hp.
    assert (E0 : (0 =? InvalidIndex) = false) by lia.
    rewrite E0 in Hlsv. cbn [StringRef.length_ StringRef.chars_ CrString.str] in Hlsv, Hp.
    assert (Hall : ∀ j, 0 <= j < CrString.length_ s →
                (StringRef.byte_at (CrString.str s) j ∈ StringRef.content cs)).
    { intros j Hj. specialize (Hr (j + 1) ltac:(lia)). apply bool_decide_eq_false in Hr.
      replace (j + 1 - 1) with j in Hr by lia.
      destruct (decide (StringRef.byte_at (CrString.str s) j ∈ StringRef.content cs));
        [assumption|contradiction]. }
    unfold CrString.of_ref.
    assert (Hls : StringRef.length_ sv = 0) by (clear -Hlsv; lia). rewrite Hls.
    assert (Hch : StringRef.chars_ sv = CrString.chars_ s).
    { replace (Z.min 0 (CrString.length_ s)) with 0 in Hp by lia.
      destruct (CrString.chars_ s) as [b|]; cbn in Hp.
      - destruct (0 <=? Z.of_nat (length b)) eqn:E; [|discriminate Hp].
        change (Z.to_nat 0) with 0%nat in Hp. rewrite drop_0 in Hp. congruence.
      - congruence. }
    rewrite Hch.
    assert (Hcalc : CrString.calcLength (CrString.chars_ s) 0 = Ok (CrString.length_ s)).
    { unfold CrString.calcLength. cbn. destruct HV as [_ HV].
      unfold CrString.content in Hnz.
      unfold CrString.terminated, CrString.at_, CrString.chars in Ht.
      destruct (CrString.chars_ s) as [b|]; [|f_equal; lia].
      cbn in Ht. unfold rd in Ht. destruct (CrString.length_ s <? 0); [discriminate|].
      destruct (b !! Z.to_nat (CrString.length_ s)) as [c|] eqn:Hc; [|discriminate].
      injection Ht as ->.
      rewrite (strlen_first_zero b (Z.to_nat (CrString.length_ s)) Hc); [f_equal; lia|].
      intros j Hj Hbj. apply Hnz. apply list_elem_of_lookup. exists j.
      rewrite lookup_take. destruct (decide (j < Z.to_nat (CrString.length_ s))%nat); [exact Hbj|lia]. }
    destruct (assign_terminated junk CrString.empty_string (CrString.chars_ s) 0
                (CrString.length_ s)) as (s' & -> & HV' & Ht' & Hc');
      [apply Valid_empty|exact Hcalc|lia| |cbn; lia|].
    { destruct HV as [_ HV]. destruct (CrString.chars_ s); cbn; lia. }
    exists s'. split; [reflexivity|]. do 2 (split; [assumption|]). right. split; [exact Hall|exact Hc'].
Qed.

Lemma rtrim_cuts_after_last_witness :
  ∃ s', CrString.rtrim (fun _ _ => 0) (CrString.mk (Some (cstr "    ")) 4 5)
          (StringRef.lit " ") = Ok s' ∧ CrString.Valid s' ∧ CrString.terminated s' ∧
        ((∃ e, 1 <= e <= 4 ∧
               (StringRef.byte_at (CrString.str (CrString.mk (Some (cstr "    ")) 4 5)) (e - 1)
                ∉ bytes " ") ∧
               (∀ j, e <= j < 4 →
                     (StringRef.byte_at (CrString.str (CrString.mk (Some (cstr "    ")) 4 5)) j
                      ∈ bytes " ")) ∧
               CrString.content s' = take (Z.to_nat e) (bytes "    ")) ∨
         ((∀ j, 0 <= j < 4 →
                (StringRef.byte_at (CrString.str (CrString.mk (Some (cstr "    ")) 4 5)) j
                 ∈ bytes " ")) ∧
          CrString.content s' = bytes "    ")).
Proof.
  apply (rtrim_cuts_after_last (fun _ _ => 0) (CrString.mk (Some (cstr "    ")) 4 5)
           (StringRef.lit " ")).
  - unfold CrString.Valid. cbn. lia.
  - cbn. lia.
  - reflexivity.
  - cbn. intros H. repeat (apply elem_of_cons in H as [H|H]; [discriminate|]).
    apply elem_of_nil in H. exact H.
  - unfold StringRef.Valid. cbn. lia.
Defined.

(** ** The rotating pool *)

Section PoolFacts.

Import StringBuffer.

Variable clamp : Z → Z → Z → Z.
Hypothesis clamp_inside : ∀ x a b, a <= x <= b → clamp x a b = x.

(** One call hands out the array after the cursor, wrapping from 15 to 0,
    with its first byte cleared; every other array is left as it was. *)
Lemma chars_step (sb : t) :
  Valid sb →
  let i := (rotate_ sb + 1) mod RotationCount in
  ∃ row, data_ sb !! Z.to_nat i = Some row ∧
         chars clamp sb
         = Ok (i, mk (<[Z.to_nat i := <[0%nat := 0]> row]> (data_ sb)) i) ∧
         Valid (mk (<[Z.to_nat i := <[0%nat := 0]> row]> (data_ sb)) i).
Proof.
  intros (Hlen & Hrows & Hrot). cbv zeta. unfold RotationCount in *.
  set (i := (rotate_ sb + 1) mod 16).
  assert (Hi : 0 <= i < 16) by (apply Z.mod_pos_bound; lia).
  destruct (lookup_lt_is_Some_2 (data_ sb) (Z.to_nat i)) as [row Hrow]; [lia|].
  exists row. split; [exact Hrow|].
  assert (Hne : row ≠ []).
  { rewrite Forall_forall in Hrows. apply Hrows.
    apply list_elem_of_lookup. eauto. }
  assert (Hchars : chars clamp sb
                   = Ok (i, mk (<[Z.to_nat i := <[0%nat := 0]> row]> (data_ sb)) i)).
  { unfold chars, RotationCount.
    rewrite (wrap_small (rotate_ sb + 1)) by (rewrite size_mod_eq; lia).
    assert (Hr : (if rotate_ sb + 1 >=? 16 then 0 else rotate_ sb + 1) = i).
    { subst i. destruct (rotate_ sb + 1 >=? 16) eqn:E.
      - replace (rotate_ sb + 1) with 16 by lia. reflexivity.
      - rewrite Z.mod_small; lia. }
    rewrite Hr, clamp_inside by lia.
    destruct (i <? 0) eqn:E; [lia|]. rewrite Hrow.
    rewrite wr_ok by (destruct row; [congruence|cbn; lia]).
    reflexivity. }
  split; [exact Hchars|].
  unfold Valid. cbn [data_ rotate_]. rewrite length_insert.
  split; [exact Hlen|]. split; [|exact Hi].
  apply Forall_insert; [exact Hrows|].
  destruct row; [congruence|discriminate].
Qed.

End PoolFacts.

(** X25. [StringBuffer::chars] hands the arrays out in a ring of sixteen:
    from a cursor inside the ring, [n] calls in a row return the arrays
    [rotate_ + 1], [rotate_ + 2], ... taken modulo 16, so the seventeenth
    array (index 16) is never returned and the array of a call is handed out
    again by the sixteenth call after it. *)
Theorem chars_ring_of_sixteen (clamp : Z → Z → Z → Z) (n : nat) (sb : StringBuffer.t) :
  (∀ x a b, a <= x <= b → clamp x a b = x) →
  StringBuffer.Valid sb →
  ∃ sb', StringBuffer.chars_n clamp n sb
         = Ok (map (fun k => (StringBuffer.rotate_ sb + 1 + Z.of_nat k) mod 16) (seq 0 n),
               sb') ∧
         StringBuffer.Valid sb' ∧
         StringBuffer.rotate_ sb' = (StringBuffer.rotate_ sb + Z.of_nat n) mod 16.
Proof.
  intros Hclamp. revert sb. induction n as [|n IH]; intros sb HV.
  - exists sb. cbn [StringBuffer.chars_n seq map]. split; [reflexivity|].
    split; [exact HV|]. destruct HV as (_ & _ & Hrot).
    unfold StringBuffer.RotationCount in Hrot.
    rewrite Z.add_0_r, Z.mod_small; lia.
  - destruct (chars_step clamp Hclamp sb HV) as (row & _ & Hc & HV1).
    cbv zeta in Hc, HV1. unfold StringBuffer.RotationCount in Hc, HV1.
    set (sb1 := StringBuffer.mk _ _) in Hc, HV1.
    destruct (IH sb1 HV1) as (sb' & Hn & HV' & Hrot').
    exists sb'. cbn [StringBuffer.chars_n]. rewrite Hc. cbn [mbind res_bind fst snd].
    rewrite Hn. cbn [mbind res_bind fst snd].
    change (StringBuffer.rotate_ sb1) with ((StringBuffer.rotate_ sb + 1) mod 16) in *.
    split; [|split; [exact HV'|]].
    + f_equal. f_equal. cbn [seq map]. f_equal; [f_equal; lia|].
      rewrite <- seq_shift, map_map. apply map_ext. intros k.
      rewrite <- Z.add_assoc, Zplus_mod_idemp_l. f_equal. lia.
    + rewrite Hrot', Zplus_mod_idemp_l. f_equal. lia.
Qed.

Lemma chars_ring_of_sixteen_witness :
  ∃ sb', StringBuffer.chars_n (fun x a b => Z.max a (Z.min x b)) 3
           (StringBuffer.mk (replicate 17 [7; 7]) 14)
         = Ok (map (fun k => (14 + 1 + Z.of_nat k) mod 16) (seq 0 3), sb') ∧
         StringBuffer.Valid sb' ∧
         StringBuffer.rotate_ sb' = (14 + Z.of_nat 3) mod 16.
Proof.
  apply (chars_ring_of_sixteen (fun x a b => Z.max a (Z.min x b)) 3
           (StringBuffer.mk (replicate 17 [7; 7]) 14)).
  - intros x a b H. lia.
  - unfold StringBuffer.Valid, StringBuffer.RotationCount. cbn.
    split; [reflexivity|]. split; [|lia].
    repeat (apply Forall_cons; split; [discriminate|]). apply Forall_nil. exact I.
Defined.

(** X26. The array [chars] returns starts with a zero byte, that is, it
    reads as the empty C string, and the call changes no other array and no
    other byte of that array. *)
Theorem chars_clears_first_byte (clamp : Z → Z → Z → Z) (sb : StringBuffer.t) :
  (∀ x a b, a <= x <= b → clamp x a b = x) →
  StringBuffer.Valid sb →
  ∃ i sb', StringBuffer.chars clamp sb = Ok (i, sb') ∧ 0 <= i < 16 ∧
           (∃ row, StringBuffer.data_ sb !! Z.to_nat i = Some row ∧
                   StringBuffer.data_ sb' !! Z.to_nat i = Some (0 :: drop 1 row)) ∧
           (∀ j, j ≠ Z.to_nat i →
                 StringBuffer.data_ sb' !! j = StringBuffer.data_ sb !! j).
Proof.
  intros Hclamp HV.
  destruct (chars_step clamp Hclamp sb HV) as (row & Hrow & Hc & HV1).
  cbv zeta in Hc, HV1. unfold StringBuffer.RotationCount in *.
  set (i := (StringBuffer.rotate_ sb + 1) mod 16) in *.
  assert (Hi : 0 <= i < 16) by (apply Z.mod_pos_bound; lia).
  eexists i, _. split; [exact Hc|]. split; [exact Hi|].
  cbn [StringBuffer.data_]. split.
  - exists row. split; [exact Hrow|].
    rewrite list_lookup_insert_eq by (apply lookup_lt_Some in Hrow; exact Hrow).
    destruct HV as (_ & Hrows & _). rewrite Forall_forall in Hrows.
    assert (Hne : row ≠ []) by (apply Hrows, list_elem_of_lookup; eauto).
    destruct row; [congruence|]. reflexivity.
  - intros j Hj. apply list_lookup_insert_ne. auto.
Qed.

Lemma chars_clears_first_byte_witness :
  ∃ i sb', StringBuffer.chars (fun x a b => Z.max a (Z.min x b))
             (StringBuffer.mk (replicate 17 [7; 7]) 15) = Ok (i, sb') ∧ 0 <= i < 16 ∧
           (∃ row, StringBuffer.data_ (StringBuffer.mk (replicate 17 [7; 7]) 15)
                     !! Z.to_nat i = Some row ∧
                   StringBuffer.data_ sb' !! Z.to_nat i = Some (0 :: drop 1 row)) ∧
           (∀ j, j ≠ Z.to_nat i →
                 StringBuffer.data_ sb' !! j
                 = StringBuffer.data_ (StringBuffer.mk (replicate 17 [7; 7]) 15) !! j).
Proof.
  apply (chars_clears_first_byte (fun x a b => Z.max a (Z.min x b))
           (StringBuffer.mk (replicate 17 [7; 7]) 15)).
  - intros x a b H. lia.
  - unfold StringBuffer.Valid, StringBuffer.RotationCount. cbn.
    split; [reflexivity|]. split; [|lia].
    repeat (apply Forall_cons; split; [discriminate|]). apply Forall_nil. exact I.
Defined.

(** ** The two conversions of Utf8Tools *)

Lemma lor_high_low (c k y : Z) :
  0 <= k → 0 <= y < 2 ^ k → Z.lor (c * 2 ^ k) y = c * 2 ^ k + y.
Proof.
  intros Hk Hy.
  assert (Hland : Z.land (c * 2 ^ k) y = 0).
  { apply Z.bits_inj'. intros n Hn. rewrite Z.land_spec, Z.bits_0.
    destruct (Z.lt_ge_cases n k) as [Hlt|Hge].
    - rewrite Z.mul_pow2_bits_low by lia. reflexivity.
    - rewrite <- (Z.mod_small y (2 ^ k)) by lia.
      rewrite Z.mod_pow2_bits_high by lia. apply andb_false_r. }
  pose proof (Z.add_lor_land (c * 2 ^ k) y) as H. rewrite Hland in H. lia.
Qed.

Lemma land_six_bits (x : Z) : Z.land x 0x3F = x mod 64.
Proof. change 0x3F with (Z.ones 6). rewrite Z.land_ones by lia. reflexivity. Qed.

Lemma sint32_small' (x : Z) : - 2 ^ 31 <= x < 2 ^ 31 → Utf8Tools.sint32 x = x.
Proof.
  intros H. unfold Utf8Tools.sint32. rewrite Z.mod_small; lia.
Qed.

Lemma pow64 (j : nat) : 2 ^ (6 * Z.of_nat j) = 64 ^ Z.of_nat j.
Proof. rewrite Z.pow_mul_r by lia. reflexivity. Qed.

(** The inner loop writes the [j] trailing bytes after position [k]. *)
Lemma encode_tail_spec (j : nat) :
  ∀ (n : nat) (pre mid post : list Z) (k w : Z),
    (j <= n)%nat → (j <= 6)%nat → length mid = j → k + 1 = Z.of_nat (length pre) →
    Utf8Tools.encode_tail n (pre ++ mid ++ post) k (6 * Z.of_nat j) w
    = Ok (pre ++ tail_bytes j w ++ post).
Proof.
  induction j as [|j IH]; intros n pre mid post k w Hn H6 Hmid Hk.
  - destruct mid; [|discriminate]. destruct n; reflexivity.
  - destruct n as [|n]; [lia|]. destruct mid as [|x mid]; [discriminate|].
    cbn [Utf8Tools.encode_tail].
    assert (E : (6 * Z.of_nat (S j) >? 0) = true) by (apply Z.gtb_lt; lia).
    rewrite E.
    replace (6 * Z.of_nat (S j) - 6) with (6 * Z.of_nat j) by lia.
    rewrite sint32_small' by lia.
    rewrite wr_ok by (rewrite !length_app; cbn; lia).
    cbn [mbind res_bind].
    replace (Z.to_nat (k + 1)) with (length pre + 0)%nat by lia.
    rewrite insert_app_r. cbn [app]. cbn [insert list_insert].
    rewrite Z.shiftr_div_pow2, land_six_bits, pow64 by lia.
    assert (Hd : 0 <= (w / 64 ^ Z.of_nat j) mod 64 < 64) by (apply Z.mod_pos_bound; lia).
    change 0x80 with (2 * 2 ^ 6). rewrite lor_high_low by (change (2 ^ 6) with 64; lia).
    change (2 * 2 ^ 6) with 128.
    unfold Utf8Tools.to_char. rewrite Z.mod_small by lia.
    replace (pre ++ (128 + (w / 64 ^ Z.of_nat j) mod 64) :: mid ++ post)
      with ((pre ++ [128 + (w / 64 ^ Z.of_nat j) mod 64]) ++ mid ++ post)
      by (rewrite <- app_assoc; reflexivity).
    rewrite (IH n _ mid post (k + 1) w); [|lia|lia|cbn in Hmid; lia|rewrite length_app; cbn; lia].
    rewrite <- app_assoc. reflexivity.
Qed.

Lemma row_of_cases (w : Z) :
  0 <= w <= 0x7fffffff →
  (row_of w = 0%nat ∧ 0 <= w <= 0x7f) ∨ (row_of w = 1%nat ∧ 0x80 <= w <= 0x7ff) ∨
  (row_of w = 2%nat ∧ 0x800 <= w <= 0xffff) ∨
  (row_of w = 3%nat ∧ 0x10000 <= w <= 0x1fffff) ∨
  (row_of w = 4%nat ∧ 0x200000 <= w <= 0x3ffffff) ∨
  (row_of w = 5%nat ∧ 0x4000000 <= w <= 0x7fffffff).
Proof.
  intros H. unfold row_of.
  repeat match goal with |- context [?a <=? ?b] => destruct (a <=? b) eqn:? end; lia.
Qed.

(** The lead byte of a code point stays below the next row's [cval]. *)
Lemma lead_range (w : Z) :
  0 <= w <= 0x7fffffff →
  0 <= w / 64 ^ Z.of_nat (row_of w) < 2 ^ (Z.of_nat (nth (row_of w) [7; 5; 4; 3; 2; 1]%nat 0%nat)).
Proof.
  intros H.
  destruct (row_of_cases w H) as [[-> Hr]|[[-> Hr]|[[-> Hr]|[[-> Hr]|[[-> Hr]|[-> Hr]]]]]];
    cbn [nth Z.of_nat]; cbn; Z.to_euclidean_division_equations; lia.
Qed.

Lemma utfTable_rows :
  Utf8Tools.utfTable_
  = [Utf8Tools.mkTable 0x80 0x00 0 0x7f 0; Utf8Tools.mkTable 0xe0 0xc0 6 0x7ff 0x80;
     Utf8Tools.mkTable 0xf0 0xe0 12 0xffff 0x800;
     Utf8Tools.mkTable 0xf8 0xf0 18 0x1fffff 0x10000;
     Utf8Tools.mkTable 0xfc 0xf8 24 0x3ffffff 0x200000;
     Utf8Tools.mkTable 0xfe 0xfc 30 0x7fffffff 0x4000000].
Proof. reflexivity. Qed.

Ltac decide_leb :=
  repeat match goal with
         | |- context [?a <=? ?b] =>
             first [ rewrite (proj2 (Z.leb_le a b)) by lia
                   | rewrite (proj2 (Z.leb_gt a b)) by lia ]
         end.

(** The outer loop stops at the row of the code point. *)
Lemma encode_loop_row (w : Z) (m : list Z) :
  0 <= w <= 0x7fffffff →
  Utf8Tools.encode_loop Utf8Tools.utfTable_ m 0 w
  = (m0 ← wr m 0 (Utf8Tools.to_char
                    (Z.lor (lead_of (row_of w)) (Z.shiftr w (6 * Z.of_nat (row_of w)))));
     m1 ← Utf8Tools.encode_tail 6 m0 0 (6 * Z.of_nat (row_of w)) w;
     Ok (Z.of_nat (S (row_of w)), m1)).
Proof.
  intros H. rewrite utfTable_rows.
  destruct (row_of_cases w H) as [[-> Hr]|[[-> Hr]|[[-> Hr]|[[-> Hr]|[[-> Hr]|[-> Hr]]]]]];
    cbn [Utf8Tools.encode_loop Utf8Tools.lmask Utf8Tools.shift Utf8Tools.cval];
    decide_leb; reflexivity.
Qed.

Lemma lead_byte (w : Z) :
  0 <= w <= 0x7fffffff →
  Utf8Tools.to_char (Z.lor (lead_of (row_of w)) (Z.shiftr w (6 * Z.of_nat (row_of w))))
  = lead_of (row_of w) + w / 64 ^ Z.of_nat (row_of w) ∧
  0 <= lead_of (row_of w) + w / 64 ^ Z.of_nat (row_of w) < 256.
Proof.
  intros H. pose proof (lead_range w H) as Hy.
  rewrite Z.shiftr_div_pow2, pow64 by lia.
  set (y := w / 64 ^ Z.of_nat (row_of w)) in *. clearbody y.
  unfold Utf8Tools.to_char.
  destruct (row_of_cases w H) as [[E Hr]|[[E Hr]|[[E Hr]|[[E Hr]|[[E Hr]|[E Hr]]]]]];
    rewrite E in *; cbn [nth lead_of] in *.
  - change 0x00 with (0 * 2 ^ Z.of_nat 7). rewrite lor_high_low by lia.
    change (2 ^ Z.of_nat 7) with 128 in *. rewrite Z.mod_small; lia.
  - change 0xc0 with (6 * 2 ^ Z.of_nat 5). rewrite lor_high_low by lia.
    change (2 ^ Z.of_nat 5) with 32 in *. rewrite Z.mod_small; lia.
  - change 0xe0 with (14 * 2 ^ Z.of_nat 4). rewrite lor_high_low by lia.
    change (2 ^ Z.of_nat 4) with 16 in *. rewrite Z.mod_small; lia.
  - change 0xf0 with (30 * 2 ^ Z.of_nat 3). rewrite lor_high_low by lia.
    change (2 ^ Z.of_nat 3) with 8 in *. rewrite Z.mod_small; lia.
  - change 0xf8 with (62 * 2 ^ Z.of_nat 2). rewrite lor_high_low by lia.
    change (2 ^ Z.of_nat 2) with 4 in *. rewrite Z.mod_small; lia.
  - change 0xfc with (126 * 2 ^ Z.of_nat 1). rewrite lor_high_low by lia.
    change (2 ^ Z.of_nat 1) with 2 in *. rewrite Z.mod_small; lia.
Qed.

Lemma row_of_bound (w : Z) : (row_of w <= 5)%nat.
Proof.
  unfold row_of.
  repeat match goal with |- context [?a <=? ?b] => destruct (a <=? b) end; lia.
Qed.

Lemma tail_bytes_length (j : nat) (w : Z) : length (tail_bytes j w) = j.
Proof. induction j as [|j IH]; cbn [tail_bytes length]; congruence. Qed.

Lemma encode_sequence (w : Z) (m : list Z) :
  0 <= w <= 0x7fffffff → (row_of w < length m)%nat →
  Utf8Tools.wideCharToMultiByte (Some m) w
  = Ok (Z.of_nat (S (row_of w)), Some (sequence_of w ++ drop (S (row_of w)) m)).
Proof.
  intros H Hm. unfold Utf8Tools.wideCharToMultiByte.
  rewrite (encode_loop_row w m H).
  destruct (lead_byte w H) as [-> Hb].
  pose proof (row_of_bound w) as H5.
  set (r := row_of w) in *.
  destruct m as [|x0 m']; [cbn in Hm; lia|].
  rewrite wr_ok by (cbn; lia). cbn [mbind res_bind].
  change (Z.to_nat 0) with 0%nat. cbn [insert list_insert].
  rewrite <- (take_drop r m') at 1.
  change ((lead_of r + w / 64 ^ Z.of_nat r) :: take r m' ++ drop r m')
    with ([lead_of r + w / 64 ^ Z.of_nat r] ++ take r m' ++ drop r m').
  rewrite (encode_tail_spec r 6 _ (take r m') (drop r m') 0 w);
    [|lia|lia|rewrite length_take; cbn in Hm; lia|reflexivity].
  cbn [mbind res_bind fst snd]. reflexivity.
Qed.

Lemma forall_below (f : Z → bool) (n : nat) :
  forallb f (map Z.of_nat (seq 0 n)) = true → ∀ d, 0 <= d < Z.of_nat n → f d = true.
Proof.
  intros H d Hd. rewrite forallb_forall in H. apply H.
  apply in_map_iff. exists (Z.to_nat d). split; [lia|]. apply in_seq. lia.
Qed.

Section DecodeFacts.

Import Utf8Tools.

Variable char_signed : bool.
Variable wchar16 : bool.

(** A trailing byte [10xxxxxx] passes the test and yields its six bits. *)
Lemma trailing_test (d : Z) :
  0 <= d < 64 →
  Z.land (Z.lxor (char_to_int char_signed (0x80 + d)) 0x80) 0xff = d ∧
  Z.land d 0xc0 = 0.
Proof.
  intros Hd.
  pose proof (forall_below
    (fun d => (Z.land (Z.lxor (char_to_int char_signed (0x80 + d)) 0x80) 0xff =? d)
              && (Z.land d 0xc0 =? 0)) 64) as H.
  cbv beta in H. specialize (H ltac:(destruct char_signed; vm_compute; reflexivity) d Hd).
  apply andb_prop in H. lia.
Qed.

(** Which lead bytes each row of the table accepts. *)
Lemma lead_rows (b : Z) :
  0 <= b < 256 →
  map (fun table => Z.land (char_to_int char_signed b) (cmask table) =? cval table) utfTable_
  = map (fun r : Z * Z => (r.1 <=? b) && (b <=? r.2))
        [(0, 127); (192, 223); (224, 239); (240, 247); (248, 251); (252, 253)].
Proof.
  intros Hb.
  pose proof (forall_below
    (fun b => bool_decide
       (map (fun table => Z.land (char_to_int char_signed b) (cmask table) =? cval table)
            utfTable_
        = map (fun r : Z * Z => (r.1 <=? b) && (b <=? r.2))
              [(0, 127); (192, 223); (224, 239); (240, 247); (248, 251); (252, 253)]))
    256) as H.
  cbv beta in H. specialize (H ltac:(destruct char_signed; vm_compute; reflexivity) b Hb).
  apply bool_decide_eq_true in H. exact H.
Qed.

Lemma decode_skip (table : Utf8Table) (tbl : list Utf8Table) (bytes : list Z)
    (ch k len lv wide d : Z) :
  (Z.land ch (cmask table) =? cval table) = false →
  0 <= k → bytes !! Z.to_nat (k + 1) = Some (0x80 + d) → 0 <= d < 64 →
  decode_loop char_signed wchar16 (table :: tbl) (Some bytes) ch k len lv wide
  = decode_loop char_signed wchar16 tbl (Some bytes) ch (k + 1) (sint32 (len + 1))
      (sint32 (lv * 64 + d)) wide.
Proof.
  intros Hno Hk Hb Hd. cbn [decode_loop]. rewrite Hno.
  unfold rdp, rd. rewrite (proj2 (Z.ltb_ge (k + 1) 0)) by lia. rewrite Hb.
  cbn [mbind res_bind].
  destruct (trailing_test d Hd) as [-> ->]. cbn [Z.eqb negb].
  rewrite Z.shiftl_mul_pow2 by lia. rewrite lor_high_low by (change (2 ^ 6) with 64; lia).
  reflexivity.
Qed.

Lemma decode_hit (table : Utf8Table) (tbl : list Utf8Table) (mbs : cptr)
    (ch k len lv wide : Z) :
  (Z.land ch (cmask table) =? cval table) = true →
  decode_loop char_signed wchar16 (table :: tbl) mbs ch k len lv wide
  = (if sint32 (Z.land lv (lmask table)) <? lval table then Ok (-1, wide)
     else Ok (sint32 (len + 1), to_wchar wchar16 (sint32 (Z.land lv (lmask table))))).
Proof. intros H. cbn [decode_loop]. rewrite H. reflexivity. Qed.

End DecodeFacts.

Lemma rdp_head (x : Z) (l : list Z) : rdp (Some (x :: l)) 0 = Ok x.
Proof. reflexivity. Qed.

Ltac decide_leb_in H :=
  repeat match type of H with
         | context [?a <=? ?b] =>
             first [ rewrite (proj2 (Z.leb_le a b)) in H by lia
                   | rewrite (proj2 (Z.leb_gt a b)) in H by lia ]
         end;
  cbn [andb] in H.

Ltac fold_powers :=
  change (64 ^ Z.of_nat 0) with 1 in *; change (64 ^ Z.of_nat 1) with 64 in *;
  change (64 ^ Z.of_nat 2) with 4096 in *; change (64 ^ Z.of_nat 3) with 262144 in *;
  change (64 ^ Z.of_nat 4) with 16777216 in *;
  change (64 ^ Z.of_nat 5) with 1073741824 in *.

Section DecodeSequence.

Import Utf8Tools.

Variable char_signed : bool.
Variable wchar16 : bool.

(** Before the conversion to [wchar_t], decoding the sequence of a code
    point yields the code point and the number of its bytes. *)
Lemma decode_sequence (w wide : Z) (rest : list Z) :
  0 <= w <= 0x7fffffff →
  multiByteToWideChar char_signed wchar16 wide (Some (sequence_of w ++ rest))
  = Ok (Z.of_nat (S (row_of w)), to_wchar wchar16 w).
Proof.
  intros H. destruct (lead_byte w H) as [_ Hb]. pose proof (lead_range w H) as Hy.
  unfold multiByteToWideChar, sequence_of.
  remember (lead_of (row_of w) + w / 64 ^ Z.of_nat (row_of w)) as b0 eqn:Hb0.
  pose proof (lead_rows char_signed b0 Hb) as Hrows.
  rewrite utfTable_rows in Hrows |- *.
  cbn [map cmask cval fst snd] in Hrows.
  injection Hrows as H0 H1 H2 H3 H4 H5.
  cbn [app]. rewrite rdp_head. cbn [mbind res_bind].
  destruct (row_of_cases w H) as [[E Hr]|[[E Hr]|[[E Hr]|[[E Hr]|[[E Hr]|[E Hr]]]]]];
    rewrite E in *; cbn [nth lead_of tail_bytes app] in *; fold_powers;
    change (2 ^ Z.of_nat 7) with 128 in Hy; change (2 ^ Z.of_nat 5) with 32 in Hy;
    change (2 ^ Z.of_nat 4) with 16 in Hy; change (2 ^ Z.of_nat 3) with 8 in Hy;
    change (2 ^ Z.of_nat 2) with 4 in Hy; change (2 ^ Z.of_nat 1) with 2 in Hy;
    decide_leb_in H0; decide_leb_in H1; decide_leb_in H2; decide_leb_in H3;
    decide_leb_in H4; decide_leb_in H5;
    repeat (erewrite decode_skip;
            [ | eassumption | lia | reflexivity | apply Z.mod_pos_bound; lia ]);
    (rewrite decode_hit by assumption); cbn [lmask lval].
  - change 0x7f with (Z.ones 7). rewrite Z.land_ones by lia.
    assert (Hlv : char_to_int char_signed b0 mod 2 ^ 7 = w).
    { unfold char_to_int. destruct char_signed; cbn [andb];
        [destruct (b0 >=? 128) eqn:E1|];
        change (2 ^ 7) with 128; Z.to_euclidean_division_equations; lia. }
    rewrite Hlv, sint32_small' by lia.
    rewrite (proj2 (Z.ltb_ge w 0)) by lia. reflexivity.
  - change 0x7ff with (Z.ones 11). rewrite Z.land_ones by lia.
    match goal with |- context [?lv mod 2 ^ 11] =>
      assert (Hlv : lv mod 2 ^ 11 = w) end.
    { unfold char_to_int, sint32. destruct char_signed; cbn [andb];
        [destruct (b0 >=? 128) eqn:E1|];
        change (2 ^ 11) with 2048; change (2 ^ 31) with 2147483648;
        change (2 ^ 32) with 4294967296; Z.to_euclidean_division_equations; lia. }
    rewrite Hlv, sint32_small' by lia.
    rewrite (proj2 (Z.ltb_ge w 128)) by lia. reflexivity.
  - change 0xffff with (Z.ones 16). rewrite Z.land_ones by lia.
    match goal with |- context [?lv mod 2 ^ 16] =>
      assert (Hlv : lv mod 2 ^ 16 = w) end.
    { unfold char_to_int, sint32. destruct char_signed; cbn [andb];
        [destruct (b0 >=? 128) eqn:E1|];
        change (2 ^ 16) with 65536; change (2 ^ 31) with 2147483648;
        change (2 ^ 32) with 4294967296; Z.to_euclidean_division_equations; lia. }
    rewrite Hlv, sint32_small' by lia.
    rewrite (proj2 (Z.ltb_ge w 2048)) by lia. reflexivity.
  - change 0x1fffff with (Z.ones 21). rewrite Z.land_ones by lia.
    match goal with |- context [?lv mod 2 ^ 21] =>
      assert (Hlv : lv mod 2 ^ 21 = w) end.
    { unfold char_to_int, sint32. destruct char_signed; cbn [andb];
        [destruct (b0 >=? 128) eqn:E1|];
        change (2 ^ 21) with 2097152; change (2 ^ 31) with 2147483648;
        change (2 ^ 32) with 4294967296; Z.to_euclidean_division_equations; lia. }
    rewrite Hlv, sint32_small' by lia.
    rewrite (proj2 (Z.ltb_ge w 65536)) by lia. reflexivity.
  - change 0x3ffffff with (Z.ones 26). rewrite Z.land_ones by lia.
    match goal with |- context [?lv mod 2 ^ 26] =>
      assert (Hlv : lv mod 2 ^ 26 = w) end.
    { unfold char_to_int, sint32. destruct char_signed; cbn [andb];
        [destruct (b0 >=? 128) eqn:E1|];
        change (2 ^ 26) with 67108864; change (2 ^ 31) with 2147483648;
        change (2 ^ 32) with 4294967296; Z.to_euclidean_division_equations; lia. }
    rewrite Hlv, sint32_small' by lia.
    rewrite (proj2 (Z.ltb_ge w 2097152)) by lia. reflexivity.
  - change 0x7fffffff with (Z.ones 31). rewrite Z.land_ones by lia.
    match goal with |- context [?lv mod 2 ^ 31] =>
      assert (Hlv : lv mod 2 ^ 31 = w) end.
    { unfold char_to_int, sint32. destruct char_signed; cbn [andb];
        [destruct (b0 >=? 128) eqn:E1|];
        change (2 ^ 31) with 2147483648;
        change (2 ^ 32) with 4294967296; Z.to_euclidean_division_equations; lia. }
    rewrite Hlv, sint32_small' by lia.
    rewrite (proj2 (Z.ltb_ge w 67108864)) by lia. reflexivity.
Qed.

End DecodeSequence.

Section DecodeSafety.

Import Utf8Tools.

Variable char_signed : bool.
Variable wchar16 : bool.




End DecodeSafety.



(** X27. [wideCharToMultiByte] writes the FSS-UTF sequence of a code point
    between 0 and [0x7fffffff] into a buffer that has room for it: it
    returns the number of bytes, one more than the row of the code point,
    and changes the buffer in those bytes only. *)
Theorem encode_writes_sequence (w : Z) (m : list Z) :
  0 <= w <= 0x7fffffff → (row_of w < length m)%nat →
  Utf8Tools.wideCharToMultiByte (Some m) w
  = Ok (Z.of_nat (length (sequence_of w)),
        Some (sequence_of w ++ drop (length (sequence_of w)) m)).
Proof.
  intros H Hm. rewrite (encode_sequence w m H Hm).
  unfold sequence_of. cbn [length]. rewrite tail_bytes_length. reflexivity.
Qed.

Lemma encode_writes_sequence_witness :
  Utf8Tools.wideCharToMultiByte (Some [1; 2; 3; 4]) 0x20AC
  = Ok (Z.of_nat (length (sequence_of 0x20AC)),
        Some (sequence_of 0x20AC ++ drop (length (sequence_of 0x20AC)) [1; 2; 3; 4])).
Proof.
  apply (encode_writes_sequence 0x20AC [1; 2; 3; 4]).
  - lia.
  - cbn. lia.
Defined.

(** X28. Decoding undoes encoding: for a code point [w] that [wchar_t] can
    hold without a sign (up to [0xffff] when it has 16 bits, up to
    [0x7fffffff] otherwise) and a buffer with room for its sequence,
    [wideCharToMultiByte] returns a length between 1 and 6, and
    [multiByteToWideChar] on the buffer it wrote returns the same length and
    stores [w], whether plain [char] is signed or not. *)
Theorem decode_inverts_encode (char_signed wchar16 : bool) (w wide : Z) (m : list Z) :
  0 <= w <= (if wchar16 then 0xffff else 0x7fffffff) → (row_of w < length m)%nat →
  ∃ len m',
    Utf8Tools.wideCharToMultiByte (Some m) w = Ok (len, Some m') ∧ 1 <= len <= 6 ∧
    Utf8Tools.multiByteToWideChar char_signed wchar16 wide (Some m') = Ok (len, w).
Proof.
  intros H Hm.
  assert (H' : 0 <= w <= 0x7fffffff) by (destruct wchar16; lia).
  pose proof (row_of_bound w) as H5.
  eexists _, _. split; [apply (encode_sequence w m H' Hm)|]. split; [lia|].
  rewrite (decode_sequence char_signed wchar16 w wide _ H').
  f_equal. f_equal. unfold Utf8Tools.to_wchar. destruct wchar16.
  - apply Z.mod_small. lia.
  - apply sint32_small'. lia.
Qed.

Lemma decode_inverts_encode_witness :
  ∃ len m',
    Utf8Tools.wideCharToMultiByte (Some [0; 0; 0; 0]) 0x20AC = Ok (len, Some m') ∧
    1 <= len <= 6 ∧
    Utf8Tools.multiByteToWideChar true true 7 (Some m') = Ok (len, 0x20AC).
Proof.
  apply (decode_inverts_encode true true 0x20AC 7 [0; 0; 0; 0]).
  - cbn. lia.
  - cbn. lia.
Defined.

(** X30. [toUpper] follows the table: a code point that is the key of a row
    (as [wchar_t] holds it) is mapped to the value of that row, and a code
    point that is the key of no row is returned as it is; the binary search
    always ends within its 706 rounds. *)
Theorem toUpper_follows_table (wchar16 : bool) (ch : Z) :
  (∀ e, (e ∈ Utf8Tools.upperTable_) →
        ch = Utf8Tools.to_wchar wchar16 (Utf8Tools.from e) →
        Utf8Tools.toUpper wchar16 ch
        = Ok (Utf8Tools.to_wchar wchar16 (Utf8Tools.to e))) ∧
  ((∀ e, (e ∈ Utf8Tools.upperTable_) →
         ch ≠ Utf8Tools.to_wchar wchar16 (Utf8Tools.from e)) →
   Utf8Tools.toUpper wchar16 ch = Ok ch).
Proof.
  rewrite toUpper_spec. unfold Utf8Tools.upper_of. split.
  - intros e He Hkey. apply list_elem_of_lookup in He as [i Hi].
    destruct (list_find _ Utf8Tools.upperTable_) as [[j e']|] eqn:Hfind.
    + apply list_find_Some in Hfind as (Hj & Hkey' & _).
      destruct (Nat.lt_trichotomy i j) as [Hlt|[->|Hgt]].
      * pose proof (upper_keys_lt wchar16 i j e e' Hlt Hi Hj). lia.
      * rewrite Hi in Hj. injection Hj as <-. reflexivity.
      * pose proof (upper_keys_lt wchar16 j i e' e Hgt Hj Hi). lia.
    + apply list_find_None in Hfind. rewrite Forall_lookup in Hfind.
      destruct (Hfind i e Hi Hkey).
  - intros Hnone.
    destruct (list_find _ Utf8Tools.upperTable_) as [[j e']|] eqn:Hfind; [|reflexivity].
    apply list_find_Some in Hfind as (Hj & Hkey' & _).
    destruct (Hnone e' ltac:(apply list_elem_of_lookup; eauto) Hkey').
Qed.
